(** * computesdk/benchmarks: the event-stream assembler, the iteration
      orchestrator and the scoring engine, embedded in Rocq.

    Sources embedded here:
    - [src/table.ts] (second half, the ISLO provider): [parseSseResult] with
      its closures [emitEvent] and [handleLine], the time-out of a request
      and [normalizeBaseUrl]; (first half) [round] and the iterations
      [writeResultsJson] writes;
    - [src/run.ts] (second half, the benchmark driver): [computeStats],
      [runBenchmark], [runIteration], [withTimeout], [runCheckedCommand],
      [msToSeconds], [truncate]; (first half, the command line)
      [getArgValue], [parsePositiveInt], [resolveWorkloadConfig];
    - [src/scoring.ts]: [scoreMetric], [computeSuccessRate],
      [computeTimingScore], [computeCompositeScores], [sortByCompositeScore].

    Conventions of the embedding:
    - a JavaScript string is the list of its UTF-16 code units ([list N]);
    - a JavaScript number that holds a duration or a score is an IEEE
      double, kept as the rational it is ([Q]) and extended with [NaN]
      where the code can produce it; every operation of the statistics,
      the scoring and the results file rounds its exact result to the
      nearest double, the even one at a tie ([double]), with
      no bound on the exponent: infinities, subnormal numbers and the sign
      of zero are left out, except that [parseInt] refuses what overflows;
    - an exit code or a count is the integer [parseInt] reads: the digits,
      rounded to a double;
    - [Array.prototype.sort] is any engine that meets the ECMAScript
      contract ([ArraySort]): a rearrangement, the sorted one when the
      comparator is consistent;
    - a thrown [Error] is the [Throw] case of [result], carrying its message;
    - promises and timers are run against a logical clock in milliseconds,
      which is exact: a reading of [performance.now()], the difference of
      two readings and the seconds of a time-out are taken without
      rounding. *)

From Stdlib Require Import List ZArith NArith QArith Qround Qabs Qpower.
From Stdlib Require Import Ascii String DecimalString Bool Lia Lqa.
From Stdlib Require Import Permutation Sorted.
From Stdlib Require DecimalFacts DecimalPos DecimalZ.
From Equations Require Import Equations.
Import ListNotations.

Set Implicit Arguments.

(* ================================================================== *)
(** * The JavaScript built-ins the sources call *)
(* ================================================================== *)

Module JS.

(** A string is its sequence of UTF-16 code units. *)
Definition jsstring := list N.

(** String literals of the sources, written as Rocq strings. *)
Definition str (s : string) : jsstring :=
  map N_of_ascii (list_ascii_of_string s).

(** Thrown errors carry their message. *)
Inductive result (A : Type) : Type :=
| Ok (a : A)
| Throw (message : jsstring).
Arguments Ok {A} a.
Arguments Throw {A} message.

(** Truthiness of a [string | null | undefined] value. *)
Definition truthy (s : option jsstring) : bool :=
  match s with
  | Some (_ :: _) => true
  | _ => false
  end.

(** ECMAScript WhiteSpace and LineTerminator code units, the set that
    [trim], [trimStart] and [parseInt] strip. *)
Definition isWhiteSpace (c : N) : bool :=
  ((9 <=? c) && (c <=? 13) || (c =? 32) || (c =? 160) || (c =? 5760)
   || (8192 <=? c) && (c <=? 8202) || (c =? 8232) || (c =? 8233)
   || (c =? 8239) || (c =? 8287) || (c =? 12288) || (c =? 65279))%N.

Fixpoint trimStart (s : jsstring) : jsstring :=
  match s with
  | [] => []
  | c :: rest => if isWhiteSpace c then trimStart rest else s
  end.

Definition trimEnd (s : jsstring) : jsstring := rev (trimStart (rev s)).

Definition trim (s : jsstring) : jsstring := trimEnd (trimStart s).

Fixpoint startsWith (s prefix : jsstring) : bool :=
  match prefix, s with
  | [], _ => true
  | _ :: _, [] => false
  | p :: prefix', c :: s' => (c =? p)%N && startsWith s' prefix'
  end.

Definition endsWith (s suffix : jsstring) : bool :=
  startsWith (rev s) (rev suffix).

Fixpoint eqb (s t : jsstring) : bool :=
  match s, t with
  | [], [] => true
  | c :: s', d :: t' => (c =? d)%N && eqb s' t'
  | _, _ => false
  end.

(** [s.slice(n)], [s.slice(0, n)] and [s.slice(0, -1)] for [n >= 0]. *)
Definition sliceFrom (n : nat) (s : jsstring) : jsstring := skipn n s.
Definition sliceTo (n : nat) (s : jsstring) : jsstring := firstn n s.
Definition dropLast (s : jsstring) : jsstring := removelast s.

(** [lines.join(sep)]. *)
Fixpoint join (sep : jsstring) (parts : list jsstring) : jsstring :=
  match parts with
  | [] => []
  | [p] => p
  | p :: rest => p ++ sep ++ join sep rest
  end.

(** [s.indexOf(c)] for a one-unit needle: [None] stands for -1. *)
Fixpoint indexOf (c : N) (s : jsstring) : option nat :=
  match s with
  | [] => None
  | d :: rest =>
      if (d =? c)%N then Some O
      else match indexOf c rest with
           | Some i => Some (S i)
           | None => None
           end
  end.

Definition LF : N := 10.
Definition CR : N := 13.

(** ** Numbers

    A finite JavaScript number is an IEEE 754 double; it is kept here as
    the rational it is. An arithmetic operation gives the exact result
    rounded to the nearest double, to the even significand at a tie:
    [double] is that rounding, for a significand of 53 bits. The range of
    the exponent is left open: overflow to an infinity and gradual
    underflow, which set in beyond 1.7e308 and below 2.3e-308, are
    modelled only where a number is read from text ([parseInt]); +0 and
    -0 are one number. *)

Definition pow2 (e : Z) : Q := 2 ^ e.

(** The exponent of the binade of a positive number:
    [2^k <= x < 2^(k+1)]. *)
Definition ilog2 (x : Q) : Z :=
  let k := (Z.log2 (Qnum x) - Z.log2 (Zpos (Qden x)))%Z in
  if Qle_bool (pow2 k) x then k else (k - 1)%Z.

(** The nearest integer, the even one at a tie. *)
Definition nearestEven (y : Q) : Z :=
  let f := Qfloor y in
  match Qcompare (y - inject_Z f) (1 # 2) with
  | Lt => f
  | Gt => (f + 1)%Z
  | Eq => if Z.even f then f else (f + 1)%Z
  end.

Definition doublePos (x : Q) : Q :=
  let e := (ilog2 x - 52)%Z in
  inject_Z (nearestEven (x / pow2 e)) * pow2 e.

Definition double (x : Q) : Q :=
  match Qcompare x 0 with
  | Eq => 0
  | Gt => doublePos x
  | Lt => - doublePos (- x)
  end.
Arguments double x : simpl never.

(** ** [parseInt(s, 10)] and [Number.isInteger] *)

Definition digitValue (c : N) : option Z :=
  if ((48 <=? c) && (c <=? 57))%N then Some (Z.of_N c - 48)%Z else None.

(** The longest prefix of decimal digits, read left to right; [None]
    when the prefix is empty. *)
Fixpoint digits (acc : option Z) (s : jsstring) : option Z :=
  match s with
  | [] => acc
  | c :: rest =>
      match digitValue c with
      | Some d =>
          digits (Some (10 * match acc with Some a => a | None => 0 end + d)%Z) rest
      | None => acc
      end
  end.

(** The integer the text stands for ([mathInt] with its sign, in the
    words of ECMAScript): leading white space is skipped, one sign is
    read, then the digits; anything after them is ignored. [None] when
    there is no digit. *)
Definition mathInt (s : jsstring) : option Z :=
  match trimStart s with
  | 45%N :: rest => option_map Z.opp (digits None rest)
  | 43%N :: rest => digits None rest
  | rest => digits None rest
  end.

(** [parseInt] gives the double nearest to that integer, which is an
    infinity from 2^1024 on, and NaN when there is no digit. [None] is
    NaN or an infinity: the sources only pass the value on after
    [Number.isInteger], which refuses the three alike. *)
Definition parseInt (s : jsstring) : option Z :=
  match mathInt s with
  | Some n =>
      let d := double (inject_Z n) in
      if Qle_bool (pow2 1024) (Qabs d) then None else Some (Qfloor d)
  | None => None
  end.

Definition isInteger (n : option Z) : bool :=
  match n with Some _ => true | None => false end.

(** ** [Number::toString] of an integer, as a template literal renders it *)

(** The decimal digits of an integer. *)
Definition decimal (z : Z) : jsstring :=
  str (NilZero.string_of_int (Z.to_int z)).

(** Whether the digits [s] followed by [p] zeros read as the double [x]. *)
Definition readsAs (x s p : Z) : bool :=
  Qeq_bool (double (inject_Z (s * 10 ^ p))) (inject_Z x).

(** The ways to write a positive double [x] of [nd] decimal digits with
    [k] significant digits: the digits [s] and the number [p] of zeros
    after them. *)
Definition candidates (x nd k : Z) : list (Z * Z) :=
  filter (fun c => let '(s, p) := c in
            (0 <=? p)%Z && (10 ^ (k - 1) <=? s)%Z && (s <? 10 ^ k)%Z
            && readsAs x s p)
    (flat_map (fun p => [((x / 10 ^ p)%Z, p); ((x / 10 ^ p + 1)%Z, p)])
       [(nd - k)%Z; (nd + 1 - k)%Z]).

(** Of two ways, the one closer to [x], the even one at a tie. *)
Definition closer (x : Z) (a b : Z * Z) : Z * Z :=
  let da := Z.abs (fst a * 10 ^ snd a - x) in
  let db := Z.abs (fst b * 10 ^ snd b - x) in
  if (da <? db)%Z then a
  else if (db <? da)%Z then b
  else if Z.even (fst a) then a else b.

(** The fewest significant digits that read as [x]. *)
Fixpoint shortest (x nd : Z) (ks : list Z) : Z * Z :=
  match ks with
  | [] => (x, 0%Z)
  | k :: rest =>
      match candidates x nd k with
      | [] => shortest x nd rest
      | c :: cs => fold_left (closer x) cs c
      end
  end.

Definition zeros (n : Z) : jsstring := repeat 48%N (Z.to_nat n).

(** A positive integer that is a double: up to 2^53 its digits; beyond,
    the fewest digits that read as it, followed by zeros while the number
    is below 1e21, and in exponent notation from 1e21 on. *)
Definition showPositive (x : Z) : jsstring :=
  if (x <=? 2 ^ 53)%Z then decimal x
  else
    let nd := Z.of_nat (List.length (decimal x)) in
    let '(s, p) := shortest x nd (map Z.of_nat (seq 1 17)) in
    let k := Z.of_nat (List.length (decimal s)) in
    let n := (k + p)%Z in
    if (n <=? 21)%Z then decimal s ++ zeros p
    else
      match decimal s with
      | [] => []
      | d1 :: more =>
          d1 :: (match more with [] => [] | _ :: _ => 46%N :: more end)
          ++ str "e+" ++ decimal (n - 1)
      end.

(** Template-literal rendering of an integer-valued number. *)
Definition showZ (z : Z) : jsstring :=
  match z with
  | Z0 => str "0"
  | Zpos _ => showPositive z
  | Zneg _ => 45%N :: showPositive (- z)
  end.

(** ** Numbers that may be NaN *)

Inductive num : Type :=
| Num (q : Q)
| NaN.

(** Reading a numeric property that the object may lack: [undefined]
    becomes NaN in arithmetic. *)
Definition toNumber (v : option Q) : num :=
  match v with Some q => Num q | None => NaN end.

Definition lift2 (f : Q -> Q -> Q) (a b : num) : num :=
  match a, b with
  | Num x, Num y => Num (f x y)
  | _, _ => NaN
  end.

(** The four operations on doubles. *)
Definition fadd (x y : Q) : Q := double (x + y).
Definition fsub (x y : Q) : Q := double (x - y).
Definition fmul (x y : Q) : Q := double (x * y).
(** Division by a non-zero number is the only division in the sources. *)
Definition fdiv (x y : Q) : Q := double (x / y).

Definition add := lift2 fadd.
Definition sub := lift2 fsub.
Definition mul := lift2 fmul.
Definition div := lift2 fdiv.

(** [Math.max(0, x)]: NaN if an argument is NaN. *)
Definition max0 (a : num) : num :=
  match a with
  | Num x => Num (if Qle_bool 0 x then x else 0)
  | NaN => NaN
  end.

(** [Math.round]: the nearest integer, halves towards +infinity. The
    nearest integer to a double is a double, so nothing is rounded
    again. *)
Definition roundQ (x : Q) : Q := inject_Z (Qfloor (x + (1 # 2))).

Definition round (a : num) : num :=
  match a with
  | Num x => Num (roundQ x)
  | NaN => NaN
  end.

(** Equality of numbers as values: rationals up to [Qeq]. *)
Definition num_eq (a b : num) : Prop :=
  match a, b with
  | Num x, Num y => x == y
  | NaN, NaN => True
  | _, _ => False
  end.

Definition isNaN (a : num) : bool :=
  match a with NaN => true | Num _ => false end.

(** ** [Array.prototype.sort] with a comparator

    A comparator result that is NaN counts as 0. [positive v] is [v > 0]:
    the first argument goes after the second. *)
Definition positive (v : num) : bool :=
  match v with
  | Num q => negb (Qle_bool q 0)
  | NaN => false
  end.

Definition negative (v : num) : bool :=
  match v with
  | Num q => negb (Qle_bool 0 q)
  | NaN => false
  end.

Definition isZero (v : num) : bool :=
  match v with
  | Num q => Qeq_bool q 0
  | NaN => false
  end.

(** The array that a stable sort returns for a consistent comparator,
    computed by insertion. *)
Section Sort.
Context {A : Type} (comparefn : A -> A -> num).

Fixpoint insert (x : A) (sorted : list A) : list A :=
  match sorted with
  | [] => [x]
  | y :: rest =>
      if positive (comparefn x y) then y :: insert x rest
      else x :: sorted
  end.

Fixpoint sort (l : list A) : list A :=
  match l with
  | [] => []
  | x :: rest => insert x (sort rest)
  end.

(** A consistent comparator for the elements of [l], as ECMAScript
    defines it: never NaN, and the three relations it induces are an
    equivalence and two transitive orders. *)
Definition consistent (l : list A) : Prop :=
  forall a b c, In a l -> In b l -> In c l ->
    isNaN (comparefn a b) = false
    /\ isZero (comparefn a a) = true
    /\ (isZero (comparefn a b) = true -> isZero (comparefn b a) = true)
    /\ (isZero (comparefn a b) = true -> isZero (comparefn b c) = true ->
        isZero (comparefn a c) = true)
    /\ (negative (comparefn a b) = true -> negative (comparefn b c) = true ->
        negative (comparefn a c) = true)
    /\ (positive (comparefn a b) = true -> positive (comparefn b c) = true ->
        positive (comparefn a c) = true).
End Sort.

(** The sort of the engine. It rearranges the array; for a consistent
    comparator the order is the stable sorted one, which is unique, and
    for any other comparator the order is the engine's own choice. *)
Class ArraySort : Type := {
  arraySort : forall A : Type, (A -> A -> num) -> list A -> list A;
  arraySort_rearranges :
    forall (A : Type) (comparefn : A -> A -> num) (l : list A),
      Permutation l (arraySort comparefn l);
  arraySort_consistent :
    forall (A : Type) (comparefn : A -> A -> num) (l : list A),
      consistent comparefn l -> arraySort comparefn l = sort comparefn l
}.

End JS.

Import JS.

Declare Scope js_scope.
Delimit Scope js_scope with js.
Notation "a =n= b" := (num_eq a b) (at level 70, no associativity) : js_scope.

(* ================================================================== *)
(** * The platform's streaming text decoder *)
(* ================================================================== *)

Module Encoding.

Definition byte := Byte.byte.

(** What [parseSseResult] uses of a [TextDecoder]: a decoder consumes
    the bytes of a chunk one at a time, keeps what is incomplete in its
    state ([decode(value, { stream: true })]) and is flushed once at the
    end of the stream ([decode()]). *)
Class TextDecoder (D : Type) : Type := {
  fresh : D;
  handler : D -> byte -> D * jsstring;
  flush : D -> jsstring
}.

Section Decode.
Context {D : Type} {TD : TextDecoder D}.

(** [decoder.decode(value, { stream: true })]. *)
Fixpoint decode (d : D) (value : list byte) : D * jsstring :=
  match value with
  | [] => (d, [])
  | b :: rest =>
      let '(d1, out1) := handler d b in
      let '(d2, out2) := decode d1 rest in
      (d2, out1 ++ out2)
  end.
End Decode.

(** ** The UTF-8 decoder of the Encoding Standard, the default of
    [new TextDecoder()] *)

Record Utf8 : Type := {
  codePoint : N;
  bytesSeen : N;
  bytesNeeded : N;
  lowerBoundary : N;
  upperBoundary : N;
  bomSeen : bool
}.

Definition utf8Reset (bom : bool) : Utf8 :=
  {| codePoint := 0; bytesSeen := 0; bytesNeeded := 0;
     lowerBoundary := 128; upperBoundary := 191; bomSeen := bom |}.

Definition between (lo hi b : N) : bool := ((lo <=? b) && (b <=? hi))%N.

(** A byte read when no sequence is open. The result is the new state
    and the code points produced. *)
Definition utf8Lead (bom : bool) (b : N) : Utf8 * list N :=
  if between 0 127 b then (utf8Reset bom, [b])
  else if between 194 223 b then
    ({| codePoint := N.land b 31; bytesSeen := 0; bytesNeeded := 1;
        lowerBoundary := 128; upperBoundary := 191; bomSeen := bom |}, [])
  else if between 224 239 b then
    ({| codePoint := N.land b 15; bytesSeen := 0; bytesNeeded := 2;
        lowerBoundary := if (b =? 224)%N then 160 else 128;
        upperBoundary := if (b =? 237)%N then 159 else 191;
        bomSeen := bom |}, [])
  else if between 240 244 b then
    ({| codePoint := N.land b 7; bytesSeen := 0; bytesNeeded := 3;
        lowerBoundary := if (b =? 240)%N then 144 else 128;
        upperBoundary := if (b =? 244)%N then 143 else 191;
        bomSeen := bom |}, [])
  else (utf8Reset bom, [65533%N]).

Definition utf8Points (d : Utf8) (b : N) : Utf8 * list N :=
  if (bytesNeeded d =? 0)%N then utf8Lead (bomSeen d) b
  else if negb (between (lowerBoundary d) (upperBoundary d) b) then
    (* the byte is put back and read again with no sequence open *)
    let '(d', out) := utf8Lead (bomSeen d) b in (d', 65533%N :: out)
  else
    let cp := N.lor (N.shiftl (codePoint d) 6) (N.land b 63) in
    if (bytesSeen d + 1 =? bytesNeeded d)%N then (utf8Reset (bomSeen d), [cp])
    else
      ({| codePoint := cp; bytesSeen := bytesSeen d + 1;
          bytesNeeded := bytesNeeded d;
          lowerBoundary := 128; upperBoundary := 191;
          bomSeen := bomSeen d |}, []).

(** A code point as UTF-16 code units. *)
Definition utf16 (cp : N) : jsstring :=
  if (cp <? 65536)%N then [cp]
  else [(55296 + N.shiftr (cp - 65536) 10)%N; (56320 + N.land (cp - 65536) 1023)%N].

(** Serialising the decoded code points: a leading U+FEFF is dropped. *)
Fixpoint utf8Emit (bom : bool) (points : list N) : bool * jsstring :=
  match points with
  | [] => (bom, [])
  | cp :: rest =>
      let '(bom', out) := utf8Emit true rest in
      (bom', if negb bom && (cp =? 65279)%N then out else utf16 cp ++ out)
  end.

Definition utf8Handler (d : Utf8) (b : byte) : Utf8 * jsstring :=
  let '(d1, points) := utf8Points d (Byte.to_N b) in
  let '(bom, out) := utf8Emit (bomSeen d) points in
  ({| codePoint := codePoint d1; bytesSeen := bytesSeen d1;
      bytesNeeded := bytesNeeded d1;
      lowerBoundary := lowerBoundary d1; upperBoundary := upperBoundary d1;
      bomSeen := bom |}, out).

Definition utf8Flush (d : Utf8) : jsstring :=
  if (bytesNeeded d =? 0)%N then [] else [65533%N].

#[export] Instance utf8Decoder : TextDecoder Utf8 := {
  fresh := utf8Reset false;
  handler := utf8Handler;
  flush := utf8Flush
}.

End Encoding.

Import Encoding.

(* ================================================================== *)
(** * src/table.ts: the ISLO event-stream assembler *)
(* ================================================================== *)

Module Islo.

Record IsloCommandResult : Type := {
  stdout : jsstring;
  stderr : jsstring;
  exitCode : Z
}.

(** The [let] variables of [parseSseResult] that [emitEvent] and
    [handleLine] close over. [None] is [null]. *)
Record Vars : Type := {
  v_stdout : jsstring;
  v_stderr : jsstring;
  v_exitCode : option Z;
  v_pendingError : option jsstring;
  v_currentEvent : jsstring;
  v_dataLines : list jsstring
}.

Definition initialVars : Vars :=
  {| v_stdout := []; v_stderr := []; v_exitCode := None;
     v_pendingError := None;
     v_currentEvent := str "message"; v_dataLines := [] |}.

Definition emitEvent (v : Vars) : Vars :=
  match v_dataLines v with
  | [] =>
      {| v_stdout := v_stdout v; v_stderr := v_stderr v;
         v_exitCode := v_exitCode v; v_pendingError := v_pendingError v;
         v_currentEvent := str "message"; v_dataLines := [] |}
  | _ :: _ =>
      let payload := join [LF] (v_dataLines v) in
      let ev := v_currentEvent v in
      let stdout' :=
        if JS.eqb ev (str "stdout") then v_stdout v ++ payload else v_stdout v in
      let stderr' :=
        if JS.eqb ev (str "stderr") then v_stderr v ++ payload else v_stderr v in
      let exitCode' :=
        if JS.eqb ev (str "exit") then
          let parsed := parseInt payload in
          if isInteger parsed then parsed else v_exitCode v
        else v_exitCode v in
      let pendingError' :=
        if JS.eqb ev (str "error") then
          match v_pendingError v with
          | Some (c :: e) => Some ((c :: e) ++ [LF] ++ payload)
          | _ => Some payload
          end
        else v_pendingError v in
      {| v_stdout := stdout'; v_stderr := stderr';
         v_exitCode := exitCode'; v_pendingError := pendingError';
         v_currentEvent := str "message"; v_dataLines := [] |}
  end.

Definition handleLine (v : Vars) (rawLine : jsstring) : Vars :=
  let line := if endsWith rawLine [CR] then dropLast rawLine else rawLine in
  match line with
  | [] => emitEvent v
  | _ :: _ =>
      if startsWith line (str ":") then v
      else if startsWith line (str "event:") then
        {| v_stdout := v_stdout v; v_stderr := v_stderr v;
           v_exitCode := v_exitCode v; v_pendingError := v_pendingError v;
           v_currentEvent := trim (sliceFrom 6 line);
           v_dataLines := v_dataLines v |}
      else if startsWith line (str "data:") then
        {| v_stdout := v_stdout v; v_stderr := v_stderr v;
           v_exitCode := v_exitCode v; v_pendingError := v_pendingError v;
           v_currentEvent := v_currentEvent v;
           v_dataLines := v_dataLines v ++ [trimStart (sliceFrom 5 line)] |}
      else v
  end.

(** The checks after the read loop. *)
Definition finish (v : Vars) : result IsloCommandResult :=
  if truthy (v_pendingError v) then
    Throw (str "ISLO exec stream error: "
           ++ match v_pendingError v with Some e => e | None => [] end)
  else
    match v_exitCode v with
    | None => Throw (str "ISLO exec stream ended without exit event")
    | Some code =>
        Ok {| stdout := v_stdout v; stderr := v_stderr v; exitCode := code |}
    end.

(** A value together with the equation that it is the value, so that the
    loop below knows the index it found is an index of its buffer. *)
Definition inspect {A : Type} (a : A) : {b : A | a = b} :=
  exist _ a eq_refl.

(** The read loop, with the closure it calls on every line as a
    parameter: [St] is what the closure updates. *)
Section ReadLoop.
Context {D : Type} {TD : TextDecoder D}.
Context {St : Type} (onLine : St -> jsstring -> St).

(** The inner [while (true)]: lines are cut off the front of [buffer]
    for as long as it holds a line feed. *)
Equations? drain (buffer : jsstring) (s : St) : jsstring * St
  by wf (List.length buffer) lt :=
  drain buffer s with inspect (indexOf LF buffer) => {
    | exist _ None _ => (buffer, s);
    | exist _ (Some newlineIndex) _ =>
        drain (sliceFrom (newlineIndex + 1) buffer)
              (onLine s (sliceTo newlineIndex buffer)) }.
Proof.
  unfold sliceFrom. rewrite length_skipn.
  destruct buffer as [|c buffer]; [discriminate|].
  rewrite Nat.add_1_r. simpl. lia.
Qed.

(** One turn of the outer loop on a chunk that was read. *)
Definition onChunk (st : D * jsstring * St) (value : list byte)
  : D * jsstring * St :=
  let '(d, buffer, s) := st in
  let '(d', text) := decode d value in
  let '(buffer', s') := drain (buffer ++ text) s in
  (d', buffer', s').

(** After [done]: the decoder is flushed and what is left in the
    buffer is one last line. *)
Definition onDone (st : D * jsstring * St) : St :=
  let '(d, buffer, s) := st in
  let buffer' := buffer ++ flush d in
  match buffer' with
  | [] => s
  | _ :: _ => onLine s buffer'
  end.

Definition readAll (body : list (list byte)) (s : St) : St :=
  onDone (fold_left onChunk body (fresh, [], s)).
End ReadLoop.

(** [body] is the sequence of chunks the reader yields before [done]. *)
Definition parseSseResult {D : Type} {TD : TextDecoder D}
    (body : list (list byte)) : result IsloCommandResult :=
  finish (emitEvent (readAll handleLine body initialVars)).

(** The closure that only keeps the lines it is called on. *)
Definition record (seen : list jsstring) (line : jsstring) : list jsstring :=
  seen ++ [line].

(** The lines [handleLine] is called on, in order. *)
Definition decodedLines {D : Type} {TD : TextDecoder D}
    (body : list (list byte)) : list jsstring :=
  readAll record body [].

(** Assembly from the decoded lines alone. *)
Definition assemble (lines : list jsstring) : result IsloCommandResult :=
  finish (emitEvent (fold_left handleLine lines initialVars)).

End Islo.

(* ================================================================== *)
(** * The shapes of ./types.js that the sources use *)
(* ================================================================== *)

Module Types.

(** [error?: string]: [None] is an absent field. *)
Record TimingResult : Type := {
  ttiMs : Q;
  workloadMs : option Q;
  totalMs : option Q;
  error : option jsstring
}.

(** The object [computeStats] builds has [min], [max], [median] and
    [avg]; [computeTimingScore] also reads [p95] and [p99], which are
    [None] on an object that lacks them. *)
Record Stats : Type := {
  min : Q;
  max : Q;
  median : Q;
  avg : Q;
  p95 : option Q;
  p99 : option Q
}.

Record Summary : Type := {
  sum_ttiMs : Stats;
  sum_workloadMs : option Stats;
  sum_totalMs : option Stats
}.

(** [skipped?: boolean]: an absent flag is [false]. *)
Record BenchmarkResult : Type := {
  provider : jsstring;
  iterations : list TimingResult;
  summary : Summary;
  skipped : bool;
  skipReason : option jsstring;
  successRate : option Q;
  compositeScore : option num
}.

Record WorkloadConfig : Type := {
  name : jsstring;
  setupCommand : option jsstring;
  command : option jsstring;
  cwd : option jsstring;
  timeoutMs : option Q
}.

End Types.

Import Types.

(* ================================================================== *)
(** * src/scoring.ts *)
(* ================================================================== *)

Module Scoring.

Record ScoringWeights : Type := {
  w_median : Q;
  w_p95 : Q;
  w_p99 : Q;
  w_min : Q;
  w_max : Q
}.

(** The literals 0.50, 0.20, 0.10, 0.05 and 0.15 as numbers. *)
Definition DEFAULT_WEIGHTS : ScoringWeights :=
  {| w_median := double (50 # 100); w_p95 := double (20 # 100);
     w_p99 := double (10 # 100); w_min := double (5 # 100);
     w_max := double (15 # 100) |}.

Definition CEILING_MS : Q := 10000.

Definition scoreMetric (valueMs : num) : num :=
  max0 (mul (Num 100) (sub (Num 1) (div valueMs (Num CEILING_MS)))).

Definition computeSuccessRate (result : BenchmarkResult) : Q :=
  if skipped result || (List.length (iterations result) =? 0)%nat then 0
  else
    let successful :=
      List.length (filter (fun i => negb (truthy (error i))) (iterations result)) in
    fdiv (inject_Z (Z.of_nat successful))
      (inject_Z (Z.of_nat (List.length (iterations result)))).

Definition computeTimingScore (stats : Stats) (weights : ScoringWeights) : num :=
  add (add (add (add
    (mul (Num (w_median weights)) (scoreMetric (Num (median stats))))
    (mul (Num (w_p95 weights)) (scoreMetric (toNumber (p95 stats)))))
    (mul (Num (w_p99 weights)) (scoreMetric (toNumber (p99 stats)))))
    (mul (Num (w_min weights)) (scoreMetric (Num (min stats)))))
    (mul (Num (w_max weights)) (scoreMetric (Num (max stats)))).

Definition withScores (result : BenchmarkResult) (rate : Q) (score : num)
  : BenchmarkResult :=
  {| provider := provider result; iterations := iterations result;
     summary := summary result; skipped := skipped result;
     skipReason := skipReason result;
     successRate := Some rate; compositeScore := Some score |}.

(** The body of the [for] loop: the result with both fields assigned. *)
Definition scoreResult (weights : ScoringWeights) (result : BenchmarkResult)
  : BenchmarkResult :=
  let successRate := computeSuccessRate result in
  if skipped result || Qeq_bool successRate 0 then
    withScores result successRate (Num 0)
  else
    let timingScore := computeTimingScore (sum_ttiMs (summary result)) weights in
    withScores result successRate
      (div (round (mul (mul timingScore (Num successRate)) (Num 100))) (Num 100)).

(** The results are updated in place, in order. *)
Definition computeCompositeScores (results : list BenchmarkResult)
    (weights : ScoringWeights) : list BenchmarkResult :=
  map (scoreResult weights) results.

(** [compositeScore ?? 0]. *)
Definition scoreOrZero (r : BenchmarkResult) : num :=
  match compositeScore r with Some s => s | None => Num 0 end.

Definition compareResults (a b : BenchmarkResult) : num :=
  if skipped a && negb (skipped b) then Num 1
  else if negb (skipped a) && skipped b then Num (-1)
  else if skipped a && skipped b then Num 0
  else sub (scoreOrZero b) (scoreOrZero a).

Definition sortByCompositeScore {engine : ArraySort}
    (results : list BenchmarkResult) : list BenchmarkResult :=
  arraySort compareResults results.

End Scoring.

(* ================================================================== *)
(** * Promises, timers and the provider, on a logical clock *)
(* ================================================================== *)

Module Runtime.

(** The object a provider's [create] resolves with, known by an
    identifier. *)
Record Sandbox : Type := { sandboxId : N }.

(** What [sandbox.runCommand] resolves with; [stderr] and [stdout] may
    be missing on the object of a provider. *)
Record CommandResult : Type := {
  stdout : option jsstring;
  stderr : option jsstring;
  exitCode : Z
}.

(** The options object handed to [sandbox.runCommand]. *)
Record RunOptions : Type := {
  opt_cwd : option jsstring;
  opt_timeout : Q
}.

(** Calls made on the provider, in the order they are made. *)
Inductive Call : Type :=
| CallCreate
| CallRunCommand (sb : Sandbox) (command : jsstring) (options : RunOptions)
| CallDestroy (sb : Sandbox).

Record World : Type := {
  now : Q;
  calls : list Call
}.

Inductive settled (A : Type) : Type :=
| Fulfilled (a : A)
| Rejected (reason : jsstring).
Arguments Fulfilled {A} a.
Arguments Rejected {A} reason.

(** A pending promise: after how many milliseconds it settles and how,
    or [None] if it never does. *)
Definition promise (A : Type) : Type := option (Q * settled A).

(** The provider under test. What a call answers may depend on the
    clock and on the calls made so far. *)
Record Compute : Type := {
  create : World -> promise Sandbox;
  runCommand : World -> Sandbox -> jsstring -> RunOptions -> promise CommandResult;
  destroy : World -> Sandbox -> promise unit
}.

Definition logCall (c : Call) (w : World) : World :=
  {| now := now w; calls := calls w ++ [c] |}.

Definition advance (ms : Q) (w : World) : World :=
  {| now := now w + ms; calls := calls w |}.

(** [await Promise.race([p, timer])], where the timer rejects with
    [message] after [ms]: the promise wins if it settles no later than
    the timer fires. *)
Definition awaitRace {A : Type} (p : promise A) (ms : Q) (message : jsstring)
    (w : World) : result A * World :=
  match p with
  | Some (after, outcome) =>
      if Qle_bool after ms then
        (match outcome with
         | Fulfilled a => Ok a
         | Rejected reason => Throw reason
         end, advance after w)
      else (Throw message, advance ms w)
  | None => (Throw message, advance ms w)
  end.

(** An [async] function that awaits [p] and then runs [k] on its value
    settles when [p] does. *)
Definition thenCheck {A B : Type} (p : promise A) (k : A -> result B) : promise B :=
  match p with
  | Some (after, Fulfilled a) =>
      Some (after, match k a with
                   | Ok b => Fulfilled b
                   | Throw message => Rejected message
                   end)
  | Some (after, Rejected reason) => Some (after, Rejected reason)
  | None => None
  end.

End Runtime.

Import Runtime.

(* ================================================================== *)
(** * src/run.ts: the benchmark driver *)
(* ================================================================== *)

Module Benchmark.

Definition ascending (a b : Q) : num := Num (fsub a b).

(** The comparator [ascending] is consistent on any numbers, so that
    the sorted copy is the same array in every engine: the one [sort]
    computes. *)
Definition computeStats (values : list Q) : Stats :=
  match values with
  | [] => {| min := 0; max := 0; median := 0; avg := 0;
             p95 := None; p99 := None |}
  | _ :: _ =>
      let sorted := sort ascending values in
      let mid := (List.length sorted / 2)%nat in
      let median :=
        if (List.length sorted mod 2 =? 0)%nat
        then fdiv (fadd (nth (mid - 1) sorted 0) (nth mid sorted 0)) 2
        else nth mid sorted 0 in
      {| min := nth 0 sorted 0;
         max := nth (List.length sorted - 1) sorted 0;
         median := median;
         avg := fdiv (fold_left fadd values 0)
                  (inject_Z (Z.of_nat (List.length values)));
         p95 := None; p99 := None |}
  end.

(** [value.slice(0, maxLength - 3)] is a prefix for [maxLength >= 3],
    which holds at the only call ([maxLength = 220]). *)
Definition truncate (value : jsstring) (maxLength : nat) : jsstring :=
  if (List.length value <=? maxLength)%nat then value
  else sliceTo (maxLength - 3) value ++ str "...".

Definition msToSeconds (ms : Q) : Q :=
  let seconds := inject_Z (Qceiling (ms / 1000)) in
  if Qle_bool 1 seconds then seconds else 1.

(** [s?.trim()]. *)
Definition trimOpt (s : option jsstring) : option jsstring :=
  option_map trim s.

(** The part of [runCheckedCommand] after the [await]. *)
Definition checkResult (failurePrefix : jsstring) (result : CommandResult)
  : JS.result unit :=
  if negb (exitCode result =? 0)%Z then
    let stderr := trimOpt (stderr result) in
    let stdout := trimOpt (stdout result) in
    let detail := if truthy stderr then stderr else stdout in
    match detail with
    | Some (c :: d) =>
        Throw (failurePrefix ++ str " (exit " ++ showZ (exitCode result)
               ++ str "): " ++ truncate (c :: d) 220)
    | _ =>
        Throw (failurePrefix ++ str " (exit " ++ showZ (exitCode result)
               ++ str ")")
    end
  else Ok tt.

(** Calling [runCheckedCommand] calls [sandbox.runCommand] at once and
    gives the promise of the checked outcome. *)
Definition runCheckedCommand (compute : Compute) (sandbox : Sandbox)
    (command : jsstring) (cwd : option jsstring) (timeoutSeconds : Q)
    (failurePrefix : jsstring) (w : World) : promise unit * World :=
  let options :=
    {| opt_cwd := if truthy cwd then cwd else None;
       opt_timeout := timeoutSeconds |} in
  (thenCheck (runCommand compute w sandbox command options)
             (checkResult failurePrefix),
   logCall (CallRunCommand sandbox command options) w).

(** [withTimeout(promise, ms, message)], awaited. *)
Definition withTimeout {A : Type} (p : promise A) (ms : Q) (message : jsstring)
    (w : World) : result A * World :=
  awaitRace p ms message w.

(** ** [runIteration]

    The [try] block runs in a monad that threads the world and the
    local variable [sandbox], and stops at the first throw. *)
Record Frame : Type := {
  world : World;
  sandbox : option Sandbox
}.

Definition M (A : Type) : Type := Frame -> result A * Frame.

Definition ret {A : Type} (a : A) : M A := fun f => (Ok a, f).

Definition bind {A B : Type} (m : M A) (k : A -> M B) : M B :=
  fun f =>
    match m f with
    | (Ok a, f') => k a f'
    | (Throw message, f') => (Throw message, f')
    end.

Definition inWorld {A : Type} (op : World -> result A * World) : M A :=
  fun f =>
    let '(r, w) := op (world f) in
    (r, {| world := w; sandbox := sandbox f |}).

Definition performanceNow : M Q := fun f => (Ok (now (world f)), f).

Definition setSandbox (sb : Sandbox) : M unit :=
  fun f => (Ok tt, {| world := world f; sandbox := Some sb |}).

Definition when (b : bool) (m : M unit) : M unit := if b then m else ret tt.

Notation "x <- m ;; k" := (bind m (fun x => k))
  (at level 61, m at next level, right associativity).
Notation "m ;;; k" := (bind m (fun _ => k))
  (at level 61, right associativity).

(** The command of the first execution: echo, a space and the word
    benchmark between double quotes. *)
Definition smokeCommand : jsstring :=
  str "echo " ++ [34%N] ++ str "benchmark" ++ [34%N].

Definition bareSample (tti : Q) : TimingResult :=
  {| ttiMs := tti; workloadMs := None; totalMs := None; error := None |}.

Definition tryBlock (compute : Compute) (timeout : Q)
    (workload : option WorkloadConfig) (workloadTimeoutMs : Q) : M TimingResult :=
  start <- performanceNow ;;
  sb <- inWorld (fun w =>
          withTimeout (create compute w) timeout
            (str "Sandbox creation timed out") (logCall CallCreate w)) ;;
  setSandbox sb ;;;
  inWorld (fun w =>
    let '(p, w1) :=
      runCheckedCommand compute sb smokeCommand None 30
        (str "First command execution failed") w in
    withTimeout p 30000 (str "First command execution timed out") w1) ;;;
  t <- performanceNow ;;
  let tti := t - start in
  let setup := match workload with Some wl => setupCommand wl | None => None end in
  let cmd := match workload with Some wl => command wl | None => None end in
  let dir := match workload with Some wl => cwd wl | None => None end in
  if negb (truthy setup) && negb (truthy cmd) then ret (bareSample tti)
  else
    workloadStart <- performanceNow ;;
    let timeoutSeconds := msToSeconds workloadTimeoutMs in
    when (truthy setup)
      (inWorld (fun w =>
         let '(p, w1) :=
           runCheckedCommand compute sb
             (match setup with Some c => c | None => [] end)
             dir timeoutSeconds (str "Workload setup failed") w in
         withTimeout p workloadTimeoutMs (str "Workload setup timed out") w1)) ;;;
    when (truthy cmd)
      (inWorld (fun w =>
         let '(p, w1) :=
           runCheckedCommand compute sb
             (match cmd with Some c => c | None => [] end)
             dir timeoutSeconds (str "Workload command failed") w in
         withTimeout p workloadTimeoutMs (str "Workload command timed out") w1)) ;;;
    t1 <- performanceNow ;;
    t2 <- performanceNow ;;
    ret {| ttiMs := tti; workloadMs := Some (t1 - workloadStart);
           totalMs := Some (t2 - start); error := None |}.

(** The [finally] block: what [destroy] or its timer answers is
    dropped by the empty [catch]. *)
Definition finallyBlock (compute : Compute) (f : Frame) : World :=
  match sandbox f with
  | Some sb =>
      snd (awaitRace (destroy compute (world f) sb) 15000
             (str "Destroy timeout") (logCall (CallDestroy sb) (world f)))
  | None => world f
  end.

Definition runIteration (compute : Compute) (timeout : Q)
    (workload : option WorkloadConfig) (w : World) : result TimingResult * World :=
  let workloadTimeoutMs :=
    match workload with
    | Some wl => match timeoutMs wl with Some ms => ms | None => 300000 end
    | None => 300000
    end in
  let '(r, f) :=
    tryBlock compute timeout workload workloadTimeoutMs
      {| world := w; sandbox := None |} in
  (r, finallyBlock compute f).

(** ** [runBenchmark] *)

Record ProviderConfig : Type := {
  cfg_name : jsstring;
  cfg_iterations : option nat;
  cfg_timeout : option Q;
  requiredEnvVars : list jsstring;
  createCompute : result Compute
}.

(** The body of the [for] loop: a throw of [runIteration] becomes a
    sample with its message. *)
Definition iterationSample (compute : Compute) (timeout : Q)
    (workload : option WorkloadConfig) (w : World) : TimingResult * World :=
  match runIteration compute timeout workload w with
  | (Ok sample, w') => (sample, w')
  | (Throw message, w') =>
      ({| ttiMs := 0; workloadMs := None; totalMs := None;
          error := Some message |}, w')
  end.

Fixpoint runIterations (n : nat) (compute : Compute) (timeout : Q)
    (workload : option WorkloadConfig) (results : list TimingResult) (w : World)
  : list TimingResult * World :=
  match n with
  | O => (results, w)
  | S n' =>
      let '(sample, w') := iterationSample compute timeout workload w in
      runIterations n' compute timeout workload (results ++ [sample]) w'
  end.

Definition zeroStats : Stats :=
  {| min := 0; max := 0; median := 0; avg := 0; p95 := None; p99 := None |}.

Definition skippedResult (name : jsstring) (results : list TimingResult)
    (reason : jsstring) : BenchmarkResult :=
  {| provider := name; iterations := results;
     summary := {| sum_ttiMs := zeroStats; sum_workloadMs := None;
                   sum_totalMs := None |};
     skipped := true; skipReason := Some reason;
     successRate := None; compositeScore := None |}.

Fixpoint present (values : list (option Q)) : list Q :=
  match values with
  | [] => []
  | Some v :: rest => v :: present rest
  | None :: rest => present rest
  end.

(** [env] is [process.env]; [createCompute] is what the call
    [config.createCompute()] comes to, a client or a throw. *)
Definition runBenchmark (env : jsstring -> option jsstring)
    (config : ProviderConfig) (workload : option WorkloadConfig) (w : World)
  : result BenchmarkResult * World :=
  let iterations := match cfg_iterations config with Some n => n | None => 10%nat end in
  let timeout := match cfg_timeout config with Some t => t | None => 120000 end in
  let missingVars :=
    filter (fun v => negb (truthy (env v))) (requiredEnvVars config) in
  match missingVars with
  | _ :: _ =>
      (Ok (skippedResult (cfg_name config) []
             (str "Missing: " ++ join (str ", ") missingVars)), w)
  | [] =>
      match createCompute config with
      | Throw message => (Throw message, w)
      | Ok compute =>
          let '(results, w') :=
            runIterations iterations compute timeout workload [] w in
          let successful := filter (fun r => negb (truthy (error r))) results in
          match successful with
          | [] => (Ok (skippedResult (cfg_name config) results
                         (str "All iterations failed")), w')
          | _ :: _ =>
              let workloadValues := present (map workloadMs successful) in
              let totalValues := present (map totalMs successful) in
              (Ok {| provider := cfg_name config; iterations := results;
                     summary :=
                       {| sum_ttiMs := computeStats (map ttiMs successful);
                          sum_workloadMs :=
                            match workloadValues with
                            | [] => None
                            | _ :: _ => Some (computeStats workloadValues)
                            end;
                          sum_totalMs :=
                            match totalValues with
                            | [] => None
                            | _ :: _ => Some (computeStats totalValues)
                            end |};
                     skipped := false; skipReason := None;
                     successRate := None; compositeScore := None |}, w')
          end
      end
  end.

End Benchmark.

(* ================================================================== *)
(** * Vocabulary of the statements *)
(* ================================================================== *)

Module Events.
Import Islo.

(** A reconstructed record: its event type and its payload. *)
Record ProtocolEvent : Type := {
  type : jsstring;
  payload : jsstring
}.

Definition newline : jsstring := [LF].

(** What a call of [emitEvent] emits: nothing when no data line is
    buffered, else the pending type with the joined data lines. *)
Definition emitted (v : Vars) : list ProtocolEvent :=
  match v_dataLines v with
  | [] => []
  | _ :: _ =>
      [{| type := v_currentEvent v;
          payload := join newline (v_dataLines v) |}]
  end.

(** The events emitted while [lines] are handled from [v], the last
    [emitEvent] after the loop included. *)
Fixpoint emittedEvents (v : Vars) (lines : list jsstring) : list ProtocolEvent :=
  match lines with
  | [] => emitted v
  | rawLine :: rest =>
      (match (if endsWith rawLine [CR] then dropLast rawLine else rawLine) with
       | [] => emitted v
       | _ :: _ => []
       end) ++ emittedEvents (handleLine v rawLine) rest
  end.

Definition hasType (t : string) (e : ProtocolEvent) : bool :=
  JS.eqb (type e) (str t).

(** The payloads of the events of one type, concatenated. *)
Definition outputOf (t : string) (events : list ProtocolEvent) : jsstring :=
  List.concat (map payload (filter (hasType t) events)).

(** The exit code that stands after the events: that of the last exit
    event whose payload parses. *)
Definition exitOf (before : option Z) (events : list ProtocolEvent) : option Z :=
  fold_left
    (fun code e =>
       if hasType "exit" e then
         match parseInt (payload e) with
         | Some n => Some n
         | None => code
         end
       else code)
    events before.

(** The error text that stands after the events. *)
Definition errorOf (before : option jsstring) (events : list ProtocolEvent)
  : option jsstring :=
  fold_left
    (fun pending e =>
       if hasType "error" e then
         match pending with
         | Some (c :: p) => Some ((c :: p) ++ newline ++ payload e)
         | _ => Some (payload e)
         end
       else pending)
    events before.

(** The remainder of a data line as the specification words it: at
    most one leading space goes. *)
Definition stripOneSpace (s : jsstring) : jsstring :=
  match s with
  | 32%N :: rest => rest
  | _ => s
  end.

(** A raw line without its carriage return, as [handleLine] sees it. *)
Definition stripCR (rawLine : jsstring) : jsstring :=
  if endsWith rawLine [CR] then dropLast rawLine else rawLine.

End Events.

Module Vocabulary.
Import Scoring Benchmark.

(** Rounding to two decimal places, as the sources write it. *)
Definition round2 (x : num) : num :=
  div (round (mul x (Num 100))) (Num 100).

Definition notSkipped (r : BenchmarkResult) : bool := negb (skipped r).

(** A result as [runBenchmark] builds it when no iteration failed. *)
Definition measured (samples : list Q) : BenchmarkResult :=
  {| provider := str "provider";
     iterations := map bareSample samples;
     summary := {| sum_ttiMs := computeStats samples;
                   sum_workloadMs := None; sum_totalMs := None |};
     skipped := false; skipReason := None;
     successRate := None; compositeScore := None |}.

(** One iteration of two failed, and every metric at 2000 ms, which the
    ceiling scores 80. *)
Definition halfSuccessful : BenchmarkResult :=
  {| provider := str "provider";
     iterations :=
       [bareSample 2000;
        {| ttiMs := 0; workloadMs := None; totalMs := None;
           error := Some (str "Sandbox creation timed out") |}];
     summary :=
       {| sum_ttiMs := {| min := 2000; max := 2000; median := 2000;
                          avg := 2000; p95 := Some 2000; p99 := Some 2000 |};
          sum_workloadMs := None; sum_totalMs := None |};
     skipped := false; skipReason := None;
     successRate := None; compositeScore := None |}.

(** Every metric at 17.5 ms, and the one iteration successful. *)
Definition quick : BenchmarkResult :=
  {| provider := str "provider";
     iterations := [bareSample (35 # 2)];
     summary :=
       {| sum_ttiMs := {| min := 35 # 2; max := 35 # 2; median := 35 # 2;
                          avg := 35 # 2; p95 := Some (35 # 2);
                          p99 := Some (35 # 2) |};
          sum_workloadMs := None; sum_totalMs := None |};
     skipped := false; skipReason := None;
     successRate := None; compositeScore := None |}.

(** [a] ranks at least as high as [b]. *)
Definition outranks (a b : BenchmarkResult) : Prop :=
  match scoreOrZero a, scoreOrZero b with
  | Num x, Num y => y <= x
  | _, _ => False
  end.

(** No result that takes part in the comparison of scores has NaN for
    a score. *)
Definition scoresAreNumbers (results : list BenchmarkResult) : Prop :=
  forall r, In r results -> skipped r = false -> isNaN (scoreOrZero r) = false.

(** A result with a composite score assigned. *)
Definition scoring (name : string) (score : Q) : BenchmarkResult :=
  {| provider := str name; iterations := [bareSample 1000];
     summary := {| sum_ttiMs := computeStats [1000];
                   sum_workloadMs := None; sum_totalMs := None |};
     skipped := false; skipReason := None;
     successRate := Some 1; compositeScore := Some (Num score) |}.

Definition missingKey : BenchmarkResult :=
  skippedResult (str "unconfigured") [] (str "Missing: API_KEY").

Definition isDestroy (c : Call) : bool :=
  match c with CallDestroy _ => true | _ => false end.

Definition destroyCalls (cs : list Call) : nat :=
  List.length (filter isDestroy cs).

(** A step of the [try] block that leaves the variable [sandbox] and
    the number of [destroy] calls as they are. *)
Definition quiet {A : Type} (m : M A) : Prop :=
  forall f,
    sandbox (snd (m f)) = sandbox f
    /\ destroyCalls (calls (world (snd (m f))))
       = destroyCalls (calls (world f)).

(** The time-out of the workload commands, as [runIteration] reads it. *)
Definition workloadTimeout (workload : option WorkloadConfig) : Q :=
  match workload with
  | Some wl => match timeoutMs wl with Some ms => ms | None => 300000 end
  | None => 300000
  end.

(** A provider that answers after fixed delays: [create] with sandbox 1,
    every command with the given result, and [destroy] as given. *)
Definition scripted (r : CommandResult) (destroyed : promise unit) : Compute :=
  {| create := fun _ => Some (120, Fulfilled {| sandboxId := 1 |});
     runCommand := fun _ _ _ _ => Some (290, Fulfilled r);
     destroy := fun _ _ => destroyed |}.

Definition succeeded : CommandResult :=
  {| Runtime.stdout := Some (str "benchmark"); Runtime.stderr := Some [];
     Runtime.exitCode := 0 |}.

Definition setupOnly : WorkloadConfig :=
  {| name := str "custom-workload";
     setupCommand := Some (str "npm install"); command := None;
     cwd := None; timeoutMs := None |}.

Definition startOfRun : World := {| now := 0; calls := [] |}.

(** The diagnostic text [runCheckedCommand] reports: trimmed stderr, or
    trimmed stdout when that is empty or missing. *)
Definition detailOf (r : CommandResult) : jsstring :=
  match trimOpt (stderr r) with
  | Some (c :: e) => c :: e
  | _ => match trimOpt (stdout r) with
         | Some o => o
         | None => []
         end
  end.

(** [t] is what some string ends with. *)
Definition isTailOf (t s : jsstring) : Prop := exists h, s = h ++ t.

(** [t] occurs in [s]. *)
Definition occursIn (t s : jsstring) : Prop := exists a b, s = a ++ t ++ b.

Definition bytesOf (s : string) : list byte := list_byte_of_string s.

(** The bytes of a stream whose lines each end with a line feed. *)
Definition wire (lines : list (list byte)) : list byte :=
  flat_map (fun l => l ++ [Byte.x0a]) lines.

End Vocabulary.

(* ================================================================== *)
(** * src/run.ts: the command line *)
(* ================================================================== *)

Module Cli.

(** [args.indexOf(flag)]: [None] stands for -1. *)
Fixpoint indexOfArg (flag : jsstring) (args : list jsstring) : option nat :=
  match args with
  | [] => None
  | a :: rest =>
      if JS.eqb a flag then Some O
      else match indexOfArg flag rest with
           | Some i => Some (S i)
           | None => None
           end
  end.

Definition getArgValue (args : list jsstring) (flag : jsstring) : option jsstring :=
  match indexOfArg flag args with
  | Some idx =>
      if (idx + 1 <? List.length args)%nat then nth_error args (idx + 1) else None
  | None => None
  end.

Definition parsePositiveInt (value flagName : jsstring) : result Z :=
  let parsed := parseInt value in
  if negb (isInteger parsed)
     || match parsed with Some n => (n <=? 0)%Z | None => false end
  then Throw (flagName ++ str " must be a positive integer")
  else Ok (match parsed with Some n => n | None => 0%Z end).

(** [a || b] on strings. *)
Definition orElse (a : option jsstring) (b : jsstring) : jsstring :=
  match a with
  | Some (c :: s) => c :: s
  | _ => b
  end.

(** [a ?? b]. *)
Definition coalesce {A : Type} (a b : option A) : option A :=
  match a with
  | Some v => Some v
  | None => b
  end.

(** The [const iterations] at the top of the file. *)
Definition iterationsOf (args : list jsstring) : result Z :=
  parsePositiveInt (orElse (getArgValue args (str "--iterations")) (str "10"))
    (str "--iterations").

(** The object a workload file parses to, every field optional. *)
Record PartialWorkloadConfig : Type := {
  file_name : option jsstring;
  file_setupCommand : option jsstring;
  file_command : option jsstring;
  file_cwd : option jsstring;
  file_timeoutMs : option Q
}.

Definition noFile : PartialWorkloadConfig :=
  {| file_name := None; file_setupCommand := None; file_command := None;
     file_cwd := None; file_timeoutMs := None |}.

(** Keeps a string only if it is truthy: [...(s ? { s } : {})]. *)
Definition ifTruthy (s : option jsstring) : option jsstring :=
  if truthy s then s else None.

(** [readWorkload path] stands for resolving the path, reading the file
    and [JSON.parse]: it throws as they do, and gives [None] when the
    parsed value is not an object. *)
Definition resolveWorkloadConfig
    (readWorkload : jsstring -> result (option PartialWorkloadConfig))
    (args : list jsstring) : result (option WorkloadConfig) :=
  let workloadFilePath := getArgValue args (str "--workload-file") in
  let loaded :=
    match workloadFilePath with
    | Some (c :: p) =>
        match readWorkload (c :: p) with
        | Ok (Some parsed) => Ok parsed
        | Ok None => Throw (str "Invalid workload file: " ++ c :: p)
        | Throw message => Throw message
        end
    | _ => Ok noFile
    end in
  match loaded with
  | Throw message => Throw message
  | Ok fileConfig =>
      let setupCommand :=
        coalesce (getArgValue args (str "--setup-cmd")) (file_setupCommand fileConfig) in
      let command :=
        coalesce (getArgValue args (str "--workload-cmd")) (file_command fileConfig) in
      if negb (truthy setupCommand) && negb (truthy command) then Ok None
      else
        let timeoutArg := getArgValue args (str "--workload-timeout-ms") in
        let parsedTimeout :=
          match timeoutArg with
          | Some (c :: t) =>
              match parsePositiveInt (c :: t) (str "--workload-timeout-ms") with
              | Ok n => Ok (Some (inject_Z n))
              | Throw message => Throw message
              end
          | _ => Ok (file_timeoutMs fileConfig)
          end in
        match parsedTimeout with
        | Throw message => Throw message
        | Ok timeoutMs =>
            if match timeoutMs with Some t => Qle_bool t 0 | None => false end
            then Throw (str "--workload-timeout-ms must be greater than 0")
            else
              let name :=
                match coalesce (getArgValue args (str "--workload-name"))
                        (file_name fileConfig) with
                | Some n => n
                | None => str "custom-workload"
                end in
              let cwd :=
                coalesce (getArgValue args (str "--workload-cwd")) (file_cwd fileConfig) in
              Ok (Some {| name := name;
                          setupCommand := ifTruthy setupCommand;
                          command := ifTruthy command;
                          cwd := ifTruthy cwd;
                          timeoutMs := timeoutMs |})
        end
  end.

End Cli.

(* ================================================================== *)
(** * src/table.ts: rounding for the results file, and the ISLO client *)
(* ================================================================== *)

Module Table.

(** [round]: to two decimal places. *)
Definition round (n : num) : num :=
  div (JS.round (mul n (Num 100))) (Num 100).

(** The iteration as [writeResultsJson] writes it. *)
Definition cleanIteration (i : TimingResult) : TimingResult :=
  {| ttiMs := match round (Num (ttiMs i)) with Num q => q | NaN => 0 end;
     workloadMs :=
       option_map (fun v => match round (Num v) with Num q => q | NaN => 0 end)
         (workloadMs i);
     totalMs :=
       option_map (fun v => match round (Num v) with Num q => q | NaN => 0 end)
         (totalMs i);
     error := if truthy (error i) then error i else None |}.

End Table.

Module IsloClient.

(** The time-out of the request, in [createSandbox]'s [runCommand]:
    [options?.timeout ?? 300] seconds, in milliseconds. *)
Definition requestTimeoutMs (timeout : option Q) : Q :=
  let timeoutSeconds := match timeout with Some t => t | None => 300 end in
  let ms := inject_Z (Qceiling (timeoutSeconds * 1000)) in
  if Qle_bool 1 ms then ms else 1.

Definition slash : N := 47.

Fixpoint dropSlashes (s : jsstring) : jsstring :=
  match s with
  | [] => []
  | c :: rest => if (c =? slash)%N then dropSlashes rest else s
  end.

(** [url.replace(/\/+$/, '')]: the slashes the string ends with go. *)
Definition normalizeBaseUrl (url : jsstring) : jsstring :=
  rev (dropSlashes (rev url)).

End IsloClient.

(* ================================================================== *)
(** * Vocabulary of the further statements *)
(* ================================================================== *)

Module Terms.
Import Islo Events Scoring Benchmark Vocabulary.

(** A line that [handleLine] passes over: a comment, or a field that is
    neither [event:] nor [data:]. *)
Definition passedOver (rawLine : jsstring) : bool :=
  match stripCR rawLine with
  | [] => false
  | c :: line =>
      startsWith (c :: line) (str ":")
      || negb (startsWith (c :: line) (str "event:"))
         && negb (startsWith (c :: line) (str "data:"))
  end.

Definition hasLF (s : jsstring) : bool := existsb (N.eqb LF) s.

(** The lines of a text, each followed by its line feed. *)
Definition withLineFeeds (lines : list jsstring) : jsstring :=
  flat_map (fun l => l ++ [LF]) lines.

(** The record of a well-formed exit event. *)
Definition exitRecord (n : Z) : list jsstring :=
  [str "event: exit"; str "data: " ++ decimal n; []].

Definition isCreate (c : Call) : bool :=
  match c with CallCreate => true | _ => false end.

Definition createCalls (cs : list Call) : nat :=
  List.length (filter isCreate cs).

(** How [create] ends against its time-out: [None] when it fulfils in
    time, else the message thrown and the time that passed. *)
Definition creationFailure (p : promise Sandbox) (timeout : Q)
  : option (jsstring * Q) :=
  match p with
  | Some (after, Fulfilled _) =>
      if Qle_bool after timeout then None
      else Some (str "Sandbox creation timed out", timeout)
  | Some (after, Rejected reason) =>
      if Qle_bool after timeout then Some (reason, after)
      else Some (str "Sandbox creation timed out", timeout)
  | None => Some (str "Sandbox creation timed out", timeout)
  end.

(** The stats hold numbers that are not negative, [p95] and [p99]
    included. *)
Definition statsInRange (s : Stats) : Prop :=
  0 <= min s /\ 0 <= max s /\ 0 <= median s
  /\ (exists v, p95 s = Some v /\ 0 <= v)
  /\ (exists v, p99 s = Some v /\ 0 <= v).

(** Weights that are not negative and sum to 1, as doubles do: up to a
    billionth. *)
Definition weightsNormal (w : ScoringWeights) : Prop :=
  0 <= w_median w /\ 0 <= w_p95 w /\ 0 <= w_p99 w /\ 0 <= w_min w
  /\ 0 <= w_max w
  /\ Qabs (w_median w + w_p95 w + w_p99 w + w_min w + w_max w - 1)
     <= 1 # 1000000000.

(** Two stats objects with the same [min], [max] and [median]. *)
Definition sameRanks (a b : Stats) : Prop :=
  min a == min b /\ max a == max b /\ median a == median b
  /\ p95 a = p95 b /\ p99 a = p99 b.

(** A number that is a double. *)
Definition isDouble (x : Q) : Prop := double x == x.

(** The time the [finally] block waits for [destroy]: until it
    settles, or the 15000 ms of the timer when it has not by then. *)
Definition teardownTime (destroyed : promise unit) : Q :=
  match destroyed with
  | Some (after, _) => if Qle_bool after 15000 then after else 15000
  | None => 15000
  end.

(** What follows the digits: nothing, or a character that is no digit. *)
Definition endsDigits (rest : jsstring) : Prop :=
  match rest with
  | [] => True
  | c :: _ => digitValue c = None
  end.

(** The first command, as a call on the sandbox [sb]. *)
Definition smokeCall (sb : Sandbox) : Call :=
  CallRunCommand sb smokeCommand {| opt_cwd := None; opt_timeout := 30 |}.

(** The commands of the workload as calls on [sb]: the setup command if
    there is one, then the workload command if there is one, both in the
    directory of the workload and with its time-out in seconds. *)
Definition planned (sb : Sandbox) (workload : option WorkloadConfig) : list Call :=
  match workload with
  | None => []
  | Some wl =>
      let options :=
        {| opt_cwd := if truthy (cwd wl) then cwd wl else None;
           opt_timeout := msToSeconds (workloadTimeout workload) |} in
      match setupCommand wl with
      | Some (c :: s) => [CallRunCommand sb (c :: s) options]
      | _ => []
      end
      ++ match command wl with
         | Some (c :: s) => [CallRunCommand sb (c :: s) options]
         | _ => []
         end
  end.

(** The number of iterations [runBenchmark] runs. *)
Definition iterationCount (config : ProviderConfig) : nat :=
  match cfg_iterations config with Some n => n | None => 10%nat end.

(** The sample [runBenchmark] records for an iteration that threw. *)
Definition failedSample (message : jsstring) : TimingResult :=
  {| ttiMs := 0; workloadMs := None; totalMs := None; error := Some message |}.

End Terms.

Import Islo Events Scoring Benchmark Vocabulary Cli IsloClient Terms.
Local Open Scope js_scope.
Unset Implicit Arguments.

(* ================================================================== *)
(** * Rounding to a double *)
(* ================================================================== *)

Section Doubles.

Lemma pow2_pos (e : Z) : 0 < pow2 e.
Proof. apply Qpower_0_lt. reflexivity. Qed.

Lemma pow2_lt (a b : Z) : (a < b)%Z -> pow2 a < pow2 b.
Proof. intros H. apply Qpower_lt_compat_l; [exact H|reflexivity]. Qed.

Lemma pow2_le (a b : Z) : (a <= b)%Z -> pow2 a <= pow2 b.
Proof. intros H. apply Qpower_le_compat_l; [exact H|discriminate]. Qed.

Lemma pow2_plus (a b : Z) : pow2 (a + b) == pow2 a * pow2 b.
Proof. apply Qpower_plus. discriminate. Qed.

Lemma pow2_minus (a b : Z) : pow2 (a - b) == pow2 a / pow2 b.
Proof. apply Qpower_minus. discriminate. Qed.

Lemma pow2_succ (a : Z) : pow2 (a + 1) == 2 * pow2 a.
Proof. rewrite pow2_plus. change (pow2 1) with 2. ring. Qed.

Lemma pow2_Z (a : Z) : (0 <= a)%Z -> pow2 a == inject_Z (2 ^ a).
Proof. intros H. unfold pow2. now rewrite Zpower_Qpower. Qed.

Lemma pow2_lt_inv (a b : Z) : pow2 a < pow2 b -> (a < b)%Z.
Proof. intros H. apply (Qpower_lt_compat_l_inv 2); [exact H|reflexivity]. Qed.

(** [ilog2 x] is the exponent of the binade of a positive [x]. *)
Lemma ilog2_spec (x : Q) :
  0 < x -> pow2 (ilog2 x) <= x /\ x < pow2 (ilog2 x + 1).
Proof.
  intros Hx. destruct x as [n d]. unfold ilog2. cbn [Qnum Qden].
  assert (Hn : (0 < n)%Z) by (unfold Qlt in Hx; cbn in Hx; lia).
  set (a := Z.log2 n). set (b := Z.log2 (Z.pos d)).
  assert (Ha : (2 ^ a <= n < 2 ^ (a + 1))%Z).
  { unfold a. pose proof (Z.log2_spec n Hn) as H. rewrite <- Z.add_1_r in H. lia. }
  assert (Hb : (2 ^ b <= Z.pos d < 2 ^ (b + 1))%Z).
  { unfold b. pose proof (Z.log2_spec (Z.pos d) eq_refl) as H.
    rewrite <- Z.add_1_r in H. lia. }
  assert (Ha0 : (0 <= a)%Z) by apply Z.log2_nonneg.
  assert (Hb0 : (0 <= b)%Z) by apply Z.log2_nonneg.
  assert (Hx' : n # d == inject_Z n / inject_Z (Z.pos d)) by apply Qmake_Qdiv.
  assert (Hd : 0 < inject_Z (Z.pos d)) by reflexivity.
  assert (Hup : n # d < pow2 (a - b + 1)).
  { rewrite Hx'. apply Qlt_shift_div_r; [exact Hd|].
    replace (a - b + 1)%Z with ((a + 1) - b)%Z by lia.
    rewrite pow2_minus, (pow2_Z (a + 1)), (pow2_Z b) by lia.
    assert (H1 : inject_Z n < inject_Z (2 ^ (a + 1))) by (rewrite <- Zlt_Qlt; lia).
    assert (H2 : inject_Z (2 ^ b) <= inject_Z (Z.pos d)) by (rewrite <- Zle_Qle; lia).
    assert (H3 : 0 < inject_Z (2 ^ b)).
    { change 0 with (inject_Z 0). rewrite <- Zlt_Qlt. apply Z.pow_pos_nonneg; lia. }
    assert (H0 : 0 < inject_Z n) by (change 0 with (inject_Z 0); rewrite <- Zlt_Qlt; lia).
    setoid_replace (inject_Z (2 ^ (a + 1)) / inject_Z (2 ^ b) * inject_Z (Z.pos d))
      with (inject_Z (2 ^ (a + 1)) * inject_Z (Z.pos d) / inject_Z (2 ^ b))
      by (field; lra).
    apply Qlt_shift_div_l; [exact H3|]. nra. }
  assert (Hlow : pow2 (a - b - 1) < n # d).
  { rewrite Hx'. apply Qlt_shift_div_l; [exact Hd|].
    replace (a - b - 1)%Z with (a - (b + 1))%Z by lia.
    rewrite pow2_minus, (pow2_Z a), (pow2_Z (b + 1)) by lia.
    assert (H1 : inject_Z (2 ^ a) <= inject_Z n) by (rewrite <- Zle_Qle; lia).
    assert (H2 : inject_Z (Z.pos d) < inject_Z (2 ^ (b + 1))) by (rewrite <- Zlt_Qlt; lia).
    assert (H3 : 0 < inject_Z (2 ^ (b + 1))) by lra.
    assert (H4 : 0 < inject_Z (2 ^ a)).
    { change 0 with (inject_Z 0). rewrite <- Zlt_Qlt. apply Z.pow_pos_nonneg; lia. }
    setoid_replace (inject_Z (2 ^ a) / inject_Z (2 ^ (b + 1)) * inject_Z (Z.pos d))
      with (inject_Z (2 ^ a) * inject_Z (Z.pos d) / inject_Z (2 ^ (b + 1)))
      by (field; lra).
    apply Qlt_shift_div_r; [exact H3|]. nra. }
  destruct (Qle_bool (pow2 (a - b)) (n # d)) eqn:Hle.
  - apply Qle_bool_iff in Hle. split; [exact Hle|exact Hup].
  - assert (Hnle : ~ pow2 (a - b) <= n # d)
      by (intros H; apply Qle_bool_iff in H; congruence).
    replace (a - b - 1 + 1)%Z with (a - b)%Z by lia.
    split; [apply Qlt_le_weak; exact Hlow|lra].
Qed.

Lemma ilog2_unique (x : Q) (k : Z) :
  pow2 k <= x -> x < pow2 (k + 1) -> ilog2 x = k.
Proof.
  intros Hlo Hhi.
  assert (Hx : 0 < x) by (pose proof (pow2_pos k); lra).
  destruct (ilog2_spec x Hx) as [Hlo' Hhi'].
  assert (H1 : (k < ilog2 x + 1)%Z) by (apply pow2_lt_inv; lra).
  assert (H2 : (ilog2 x < k + 1)%Z) by (apply pow2_lt_inv; lra).
  lia.
Qed.

Lemma ilog2_comp (x y : Q) : 0 < x -> x == y -> ilog2 x = ilog2 y.
Proof.
  intros Hx Heq. symmetry. destruct (ilog2_spec x Hx) as [Hlo Hhi].
  apply ilog2_unique; rewrite <- Heq; assumption.
Qed.

Lemma nearestEven_cases (y : Q) :
  let f := Qfloor y in
  inject_Z f <= y /\ y < inject_Z f + 1
  /\ (nearestEven y = f /\ y - inject_Z f <= 1 # 2
      \/ nearestEven y = (f + 1)%Z /\ 1 # 2 <= y - inject_Z f).
Proof.
  cbn zeta. pose proof (Qfloor_le y) as Hlo. pose proof (Qlt_floor y) as Hhi.
  rewrite inject_Z_plus in Hhi. change (inject_Z 1) with 1 in Hhi.
  split; [exact Hlo|]. split; [exact Hhi|]. unfold nearestEven.
  destruct (Qcompare_spec (y - inject_Z (Qfloor y)) (1 # 2)) as [H|H|H].
  - destruct (Z.even (Qfloor y)); [left|right]; (split; [reflexivity|lra]).
  - left. split; [reflexivity|lra].
  - right. split; [reflexivity|lra].
Qed.

Lemma nearestEven_close (y : Q) : Qabs (inject_Z (nearestEven y) - y) <= 1 # 2.
Proof.
  destruct (nearestEven_cases y) as (Hlo & Hhi & [[-> H]|[-> H]]);
    apply Qabs_Qle_condition; rewrite ?inject_Z_plus;
    change (inject_Z 1) with 1; split; lra.
Qed.

Lemma nearestEven_comp (y y' : Q) : y == y' -> nearestEven y = nearestEven y'.
Proof.
  intros H. unfold nearestEven. rewrite (Qfloor_comp _ _ H).
  assert (Hc : Qcompare (y - inject_Z (Qfloor y')) (1 # 2)
               = Qcompare (y' - inject_Z (Qfloor y')) (1 # 2))
    by (now rewrite H).
  now rewrite Hc.
Qed.

Lemma nearestEven_int (n : Z) : nearestEven (inject_Z n) = n.
Proof.
  unfold nearestEven. rewrite Qfloor_Z.
  assert (H : Qcompare (inject_Z n - inject_Z n) (1 # 2) = Lt).
  { rewrite <- Qlt_alt. setoid_replace (inject_Z n - inject_Z n) with 0 by ring.
    reflexivity. }
  now rewrite H.
Qed.

Lemma nearestEven_mono (y y' : Q) : y <= y' -> (nearestEven y <= nearestEven y')%Z.
Proof.
  intros Hle.
  pose proof (Qfloor_resp_le _ _ Hle) as Hf.
  destruct (Z.eq_dec (Qfloor y) (Qfloor y')) as [Heq|Hne].
  - unfold nearestEven. rewrite Heq.
    assert (Hr : y - inject_Z (Qfloor y') <= y' - inject_Z (Qfloor y')) by lra.
    destruct (Qcompare_spec (y - inject_Z (Qfloor y')) (1 # 2)) as [H|H|H];
      destruct (Qcompare_spec (y' - inject_Z (Qfloor y')) (1 # 2)) as [H'|H'|H'];
      try lra; destruct (Z.even (Qfloor y')); lia.
  - destruct (nearestEven_cases y) as (_ & _ & [[-> _]|[-> _]]);
      destruct (nearestEven_cases y') as (_ & _ & [[-> _]|[-> _]]); lia.
Qed.

Lemma doublePos_comp (x y : Q) : 0 < x -> x == y -> doublePos x == doublePos y.
Proof.
  intros Hx Heq. unfold doublePos. rewrite (ilog2_comp x y Hx Heq).
  rewrite (nearestEven_comp (x / pow2 (ilog2 y - 52)) (y / pow2 (ilog2 y - 52)));
    [reflexivity|now rewrite Heq].
Qed.

#[global] Instance double_comp : Proper (Qeq ==> Qeq) double.
Proof.
  intros x y Heq. unfold double. rewrite <- Heq.
  destruct (Qcompare_spec x 0) as [H|H|H].
  - reflexivity.
  - apply Qopp_comp. apply doublePos_comp; [lra|now rewrite Heq].
  - now apply doublePos_comp.
Qed.

(** The scaled significand of a positive number lies in [2^52, 2^53). *)
Lemma significand_range (x : Q) :
  0 < x ->
  let e := (ilog2 x - 52)%Z in
  inject_Z (2 ^ 52) <= x / pow2 e /\ x / pow2 e < inject_Z (2 ^ 53)
  /\ x == (x / pow2 e) * pow2 e.
Proof.
  intros Hx e. destruct (ilog2_spec x Hx) as [Hlo Hhi].
  pose proof (pow2_pos e) as He.
  assert (H1 : pow2 (ilog2 x) == inject_Z (2 ^ 52) * pow2 e).
  { unfold e. rewrite <- (pow2_Z 52) by lia. rewrite <- pow2_plus.
    now replace (52 + (ilog2 x - 52))%Z with (ilog2 x) by lia. }
  assert (H2 : pow2 (ilog2 x + 1) == inject_Z (2 ^ 53) * pow2 e).
  { unfold e. rewrite <- (pow2_Z 53) by lia. rewrite <- pow2_plus.
    now replace (53 + (ilog2 x - 52))%Z with (ilog2 x + 1)%Z by lia. }
  split; [apply Qle_shift_div_l; [exact He|lra]|].
  split; [apply Qlt_shift_div_r; [exact He|lra]|]. field. lra.
Qed.

Lemma doublePos_range (x : Q) :
  0 < x -> pow2 (ilog2 x) <= doublePos x /\ doublePos x <= pow2 (ilog2 x + 1).
Proof.
  intros Hx. destruct (significand_range x Hx) as (Hlo & Hhi & _).
  cbn zeta in *. unfold doublePos. set (e := (ilog2 x - 52)%Z) in *.
  pose proof (pow2_pos e) as He.
  assert (H1 : pow2 (ilog2 x) == inject_Z (2 ^ 52) * pow2 e).
  { unfold e. rewrite <- (pow2_Z 52) by lia. rewrite <- pow2_plus.
    now replace (52 + (ilog2 x - 52))%Z with (ilog2 x) by lia. }
  assert (H2 : pow2 (ilog2 x + 1) == inject_Z (2 ^ 53) * pow2 e).
  { unfold e. rewrite <- (pow2_Z 53) by lia. rewrite <- pow2_plus.
    now replace (53 + (ilog2 x - 52))%Z with (ilog2 x + 1)%Z by lia. }
  assert (Hn1 : (2 ^ 52 <= nearestEven (x / pow2 e))%Z).
  { rewrite <- (nearestEven_int (2 ^ 52)). now apply nearestEven_mono. }
  assert (Hn2 : (nearestEven (x / pow2 e) <= 2 ^ 53)%Z).
  { rewrite <- (nearestEven_int (2 ^ 53)). apply nearestEven_mono. lra. }
  rewrite H1, H2. rewrite Zle_Qle in Hn1, Hn2.
  split; apply Qmult_le_compat_r; lra.
Qed.

Lemma doublePos_error (x : Q) :
  0 < x -> Qabs (doublePos x - x) <= x * (1 # 2 ^ 53).
Proof.
  intros Hx. destruct (significand_range x Hx) as (Hlo & Hhi & Heq).
  cbn zeta in *. unfold doublePos.
  pose proof (pow2_pos (ilog2 x - 52)) as He.
  pose proof (nearestEven_close (x / pow2 (ilog2 x - 52))) as Hc.
  apply Qabs_Qle_condition in Hc. destruct Hc as [Hc1 Hc2].
  change (inject_Z (2 ^ 52)) with 4503599627370496 in Hlo.
  revert Hlo Heq He Hc1 Hc2.
  generalize (inject_Z (nearestEven (x / pow2 (ilog2 x - 52)))).
  generalize (x / pow2 (ilog2 x - 52)). generalize (pow2 (ilog2 x - 52)).
  intros p y n Hlo Heq He Hc1 Hc2.
  apply Qabs_Qle_condition.
  change (1 # 2 ^ 53) with (1 # 9007199254740992).
  clear Hhi.
  assert (H1 : (n - y) * p <= (1 # 2) * p) by (apply Qmult_le_compat_r; lra).
  assert (H2 : - (1 # 2) * p <= (n - y) * p) by (apply Qmult_le_compat_r; lra).
  assert (H3 : 4503599627370496 * p <= y * p) by (apply Qmult_le_compat_r; lra).
  split; lra.
Qed.

Lemma double_0 : double 0 = 0.
Proof. reflexivity. Qed.

Lemma double_pos_eq (x : Q) : 0 < x -> double x = doublePos x.
Proof.
  intros Hx. unfold double.
  destruct (Qcompare_spec x 0) as [H|H|H]; try lra. reflexivity.
Qed.

Lemma double_neg_eq (x : Q) : x < 0 -> double x = - doublePos (- x).
Proof.
  intros Hx. unfold double.
  destruct (Qcompare_spec x 0) as [H|H|H]; try lra. reflexivity.
Qed.

Lemma double_opp (x : Q) : double (- x) == - double x.
Proof.
  destruct (Qcompare_spec x 0) as [H|H|H].
  - rewrite H. reflexivity.
  - rewrite (double_neg_eq x H), (double_pos_eq (- x)) by lra. ring.
  - rewrite (double_pos_eq x H), (double_neg_eq (- x)) by lra.
    apply Qopp_comp. apply doublePos_comp; [lra|ring].
Qed.

Lemma double_pos (x : Q) : 0 < x -> 0 < double x.
Proof.
  intros Hx. rewrite (double_pos_eq x Hx).
  destruct (doublePos_range x Hx) as [Hlo _].
  pose proof (pow2_pos (ilog2 x)). lra.
Qed.

Lemma double_neg (x : Q) : x < 0 -> double x < 0.
Proof.
  intros Hx. assert (H : 0 < double (- x)) by (apply double_pos; lra).
  rewrite double_opp in H. lra.
Qed.

Lemma double_zero_iff (x : Q) : double x == 0 <-> x == 0.
Proof.
  split.
  - intros H. destruct (Qcompare_spec x 0) as [H0|H0|H0]; [exact H0| |].
    + pose proof (double_neg x H0). lra.
    + pose proof (double_pos x H0). lra.
  - intros ->. reflexivity.
Qed.

Lemma doublePos_mono (x y : Q) : 0 < x -> x <= y -> doublePos x <= doublePos y.
Proof.
  intros Hx Hxy. assert (Hy : 0 < y) by lra.
  destruct (ilog2_spec x Hx) as [Hxl Hxh].
  destruct (ilog2_spec y Hy) as [Hyl Hyh].
  assert (He : (ilog2 x <= ilog2 y)%Z).
  { assert (ilog2 x < ilog2 y + 1)%Z by (apply pow2_lt_inv; lra). lia. }
  destruct (Z.eq_dec (ilog2 x) (ilog2 y)) as [Heq|Hne].
  - unfold doublePos. rewrite Heq. set (e := (ilog2 y - 52)%Z).
    pose proof (pow2_pos e) as Hpe.
    apply Qmult_le_compat_r; [|lra]. rewrite <- Zle_Qle.
    apply nearestEven_mono. apply Qle_shift_div_l; [exact Hpe|].
    setoid_replace (x / pow2 e * pow2 e) with x by (field; lra). exact Hxy.
  - destruct (doublePos_range x Hx) as [_ Hx2].
    destruct (doublePos_range y Hy) as [Hy1 _].
    assert (pow2 (ilog2 x + 1) <= pow2 (ilog2 y)) by (apply pow2_le; lia).
    lra.
Qed.

Lemma double_mono (x y : Q) : x <= y -> double x <= double y.
Proof.
  intros Hxy.
  destruct (Qcompare_spec x 0) as [Hx|Hx|Hx];
    destruct (Qcompare_spec y 0) as [Hy|Hy|Hy]; try lra.
  - rewrite Hx, Hy. lra.
  - rewrite Hx. pose proof (double_pos y Hy). change (double 0) with 0. lra.
  - rewrite Hy. pose proof (double_neg x Hx). change (double 0) with 0. lra.
  - rewrite (double_neg_eq x Hx), (double_neg_eq y Hy).
    assert (doublePos (- y) <= doublePos (- x)) by (apply doublePos_mono; lra).
    lra.
  - pose proof (double_neg x Hx). pose proof (double_pos y Hy). lra.
  - rewrite (double_pos_eq x Hx), (double_pos_eq y Hy).
    now apply doublePos_mono.
Qed.

Lemma double_error (x : Q) : Qabs (double x - x) <= Qabs x * (1 # 2 ^ 53).
Proof.
  destruct (Qcompare_spec x 0) as [Hx|Hx|Hx].
  - rewrite Hx. vm_compute. discriminate.
  - rewrite (double_neg_eq x Hx).
    pose proof (doublePos_error (- x)) as H.
    assert (H0 : 0 < - x) by lra. specialize (H H0).
    rewrite (Qabs_neg x) by lra.
    apply Qabs_Qle_condition in H. apply Qabs_Qle_condition. lra.
  - rewrite (double_pos_eq x Hx), (Qabs_pos x) by lra.
    now apply doublePos_error.
Qed.

(** A number with a significand of at most 53 bits is a double. *)
Lemma double_repr (m e : Z) :
  (Z.abs m < 2 ^ 53)%Z -> double (inject_Z m * pow2 e) == inject_Z m * pow2 e.
Proof.
  assert (Hpos : forall m, (0 < m < 2 ^ 53)%Z ->
            doublePos (inject_Z m * pow2 e) == inject_Z m * pow2 e).
  { clear m. intros m Hm. pose proof (pow2_pos e) as He.
    set (L := Z.log2 m).
    assert (HL : (2 ^ L <= m < 2 ^ (L + 1))%Z).
    { unfold L. pose proof (Z.log2_spec m (proj1 Hm)) as H.
      rewrite <- Z.add_1_r in H. lia. }
    assert (HL0 : (0 <= L)%Z) by apply Z.log2_nonneg.
    assert (HL52 : (L <= 52)%Z).
    { assert (2 ^ L < 2 ^ 53)%Z by lia.
      apply Z.pow_lt_mono_r_iff in H; lia. }
    assert (Hm0 : 0 < inject_Z m)
      by (change 0 with (inject_Z 0); rewrite <- Zlt_Qlt; lia).
    assert (Hlog : ilog2 (inject_Z m * pow2 e) = (L + e)%Z).
    { apply ilog2_unique.
      - rewrite pow2_plus, (pow2_Z L) by lia.
        apply Qmult_le_compat_r; [rewrite <- Zle_Qle; lia|lra].
      - replace (L + e + 1)%Z with ((L + 1) + e)%Z by lia.
        rewrite pow2_plus, (pow2_Z (L + 1)) by lia.
        apply Qmult_lt_r; [exact He|]. rewrite <- Zlt_Qlt. lia. }
    unfold doublePos. rewrite Hlog.
    assert (Hy : inject_Z m * pow2 e / pow2 (L + e - 52)
                 == inject_Z (m * 2 ^ (52 - L))).
    { rewrite inject_Z_mult, <- (pow2_Z (52 - L)) by lia.
      replace (L + e - 52)%Z with (e - (52 - L))%Z by lia.
      rewrite pow2_minus. pose proof (pow2_pos (52 - L)). field. lra. }
    rewrite (nearestEven_comp _ _ Hy), nearestEven_int.
    rewrite inject_Z_mult, <- (pow2_Z (52 - L)) by lia.
    replace (L + e - 52)%Z with (e - (52 - L))%Z by lia.
    rewrite (pow2_minus e (52 - L)). pose proof (pow2_pos (52 - L)). field. lra. }
  intros Hm. pose proof (pow2_pos e) as He.
  destruct (Z.lt_trichotomy m 0) as [Hneg|[->|Hp]].
  - assert (Hx : inject_Z m * pow2 e < 0).
    { assert (inject_Z m < 0)
        by (change 0 with (inject_Z 0); rewrite <- Zlt_Qlt; lia). nra. }
    rewrite (double_neg_eq _ Hx).
    assert (Hm' : (0 < - m < 2 ^ 53)%Z) by lia.
    specialize (Hpos (- m)%Z Hm'). rewrite inject_Z_opp in Hpos.
    rewrite (doublePos_comp (- (inject_Z m * pow2 e)) (- inject_Z m * pow2 e));
      [rewrite Hpos; ring|lra|ring].
  - setoid_replace (inject_Z 0 * pow2 e) with 0 by ring. reflexivity.
  - assert (Hx : 0 < inject_Z m * pow2 e).
    { assert (0 < inject_Z m)
        by (change 0 with (inject_Z 0); rewrite <- Zlt_Qlt; lia). nra. }
    rewrite (double_pos_eq _ Hx). apply Hpos. lia.
Qed.

Lemma double_int (n : Z) : (Z.abs n <= 2 ^ 53)%Z -> double (inject_Z n) == inject_Z n.
Proof.
  intros Hn. destruct (Z.eq_dec (Z.abs n) (2 ^ 53)) as [Heq|Hne].
  - destruct (Z.abs_eq_or_opp n) as [H|H]; rewrite H in Heq.
    + subst n. vm_compute. reflexivity.
    + assert (n = - 2 ^ 53)%Z by lia. subst n. vm_compute. reflexivity.
  - pose proof (double_repr n 0) as H. change (pow2 0) with 1 in H.
    setoid_replace (inject_Z n) with (inject_Z n * 1) by ring.
    apply H. lia.
Qed.

(** What [double] returns is a double. *)
Lemma double_idem (x : Q) : double (double x) == double x.
Proof.
  assert (Hpos : forall x, 0 < x -> double (doublePos x) == doublePos x).
  { clear x. intros x Hx. destruct (significand_range x Hx) as (Hlo & Hhi & _).
    cbn zeta in *. unfold doublePos. set (e := (ilog2 x - 52)%Z) in *.
    set (n := nearestEven (x / pow2 e)).
    assert (Hn2 : (n <= 2 ^ 53)%Z).
    { unfold n. rewrite <- (nearestEven_int (2 ^ 53)). apply nearestEven_mono. lra. }
    assert (Hn1 : (2 ^ 52 <= n)%Z).
    { unfold n. rewrite <- (nearestEven_int (2 ^ 52)). now apply nearestEven_mono. }
    destruct (Z.eq_dec n (2 ^ 53)) as [->|Hne].
    - setoid_replace (inject_Z (2 ^ 53) * pow2 e)
        with (inject_Z (2 ^ 52) * pow2 (e + 1))
        by (rewrite pow2_succ; change (inject_Z (2 ^ 53)) with (2 * inject_Z (2 ^ 52)); ring).
      apply double_repr. vm_compute. reflexivity.
    - apply double_repr. lia. }
  destruct (Qcompare_spec x 0) as [Hx|Hx|Hx].
  - rewrite Hx. reflexivity.
  - rewrite (double_neg_eq x Hx), double_opp. apply Qopp_comp, Hpos. lra.
  - rewrite (double_pos_eq x Hx). now apply Hpos.
Qed.

End Doubles.


(* ================================================================== *)
(** * The assembler: what the variables hold after a run of lines *)
(* ================================================================== *)

Section Assembler.

Lemma emitEvent_resets (v : Vars) :
  v_dataLines (emitEvent v) = [] /\ v_currentEvent (emitEvent v) = str "message".
Proof.
  unfold emitEvent. destruct (v_dataLines v); split; reflexivity.
Qed.

Lemma emitted_after_emit (v : Vars) : emitted (emitEvent v) = [].
Proof.
  unfold emitted. destruct (emitEvent_resets v) as [-> _]. reflexivity.
Qed.

(** One [emitEvent] folds the event it emits into the four outputs. *)
Lemma emitEvent_folds (v : Vars) :
  v_stdout (emitEvent v) = v_stdout v ++ outputOf "stdout" (emitted v)
  /\ v_stderr (emitEvent v) = v_stderr v ++ outputOf "stderr" (emitted v)
  /\ v_exitCode (emitEvent v) = exitOf (v_exitCode v) (emitted v)
  /\ v_pendingError (emitEvent v) = errorOf (v_pendingError v) (emitted v).
Proof.
  unfold emitEvent, emitted, outputOf, exitOf, errorOf, hasType.
  destruct (v_dataLines v) as [|d ds]; cbn [v_stdout v_stderr v_exitCode
    v_pendingError filter map List.concat fold_left type payload].
  - rewrite !app_nil_r. repeat split; reflexivity.
  - repeat split.
    + destruct (JS.eqb _ (str "stdout")); cbn; now rewrite ?app_nil_r.
    + destruct (JS.eqb _ (str "stderr")); cbn; now rewrite ?app_nil_r.
    + destruct (JS.eqb _ (str "exit")); [|reflexivity].
      unfold newline. destruct (parseInt _); reflexivity.
Qed.

(** A line that is not blank leaves the four outputs alone. *)
Lemma handleLine_nonblank (v : Vars) (rawLine : jsstring) :
  stripCR rawLine <> [] ->
  v_stdout (handleLine v rawLine) = v_stdout v
  /\ v_stderr (handleLine v rawLine) = v_stderr v
  /\ v_exitCode (handleLine v rawLine) = v_exitCode v
  /\ v_pendingError (handleLine v rawLine) = v_pendingError v.
Proof.
  unfold handleLine, stripCR. intros Hline.
  destruct (if endsWith rawLine [CR] then dropLast rawLine else rawLine)
    as [|c line]; [congruence|].
  destruct (startsWith (c :: line) (str ":")); [repeat split|].
  destruct (startsWith (c :: line) (str "event:")); [repeat split|].
  destruct (startsWith (c :: line) (str "data:")); repeat split.
Qed.

Lemma handleLine_blank (v : Vars) (rawLine : jsstring) :
  stripCR rawLine = [] -> handleLine v rawLine = emitEvent v.
Proof.
  unfold handleLine, stripCR. intros ->. reflexivity.
Qed.

Lemma outputOf_app (t : string) (xs ys : list ProtocolEvent) :
  outputOf t (xs ++ ys) = outputOf t xs ++ outputOf t ys.
Proof.
  unfold outputOf. now rewrite filter_app, map_app, concat_app.
Qed.

Lemma exitOf_app (before : option Z) (xs ys : list ProtocolEvent) :
  exitOf before (xs ++ ys) = exitOf (exitOf before xs) ys.
Proof. unfold exitOf. apply fold_left_app. Qed.

Lemma errorOf_app (before : option jsstring) (xs ys : list ProtocolEvent) :
  errorOf before (xs ++ ys) = errorOf (errorOf before xs) ys.
Proof. unfold errorOf. apply fold_left_app. Qed.

(** The state machine on lines computes the fold over the events it
    emits. *)
Lemma lines_fold_events (lines : list jsstring) (v : Vars) :
  let v' := emitEvent (fold_left handleLine lines v) in
  let events := emittedEvents v lines in
  v_stdout v' = v_stdout v ++ outputOf "stdout" events
  /\ v_stderr v' = v_stderr v ++ outputOf "stderr" events
  /\ v_exitCode v' = exitOf (v_exitCode v) events
  /\ v_pendingError v' = errorOf (v_pendingError v) events.
Proof.
  revert v. induction lines as [|rawLine rest IH]; intros v; cbn zeta.
  - apply emitEvent_folds.
  - cbn [fold_left emittedEvents].
    specialize (IH (handleLine v rawLine)). cbn zeta in IH.
    destruct IH as (Ho & He & Hx & Hp).
    fold (stripCR rawLine).
    destruct (stripCR rawLine) as [|c line] eqn:Hline.
    + rewrite (handleLine_blank v rawLine Hline) in *.
      destruct (emitEvent_folds v) as (Eo & Ee & Ex & Ep).
      rewrite !outputOf_app, exitOf_app, errorOf_app.
      rewrite Ho, He, Hx, Hp, Eo, Ee, Ex, Ep, <- !app_assoc.
      repeat split; reflexivity.
    + assert (Hne : stripCR rawLine <> []) by (rewrite Hline; discriminate).
      destruct (handleLine_nonblank v rawLine Hne) as (Eo & Ee & Ex & Ep).
      cbn [app]. rewrite Ho, He, Hx, Hp, Eo, Ee, Ex, Ep.
      repeat split; reflexivity.
Qed.

(** Without an error event the pending error stays what it was. *)
Lemma errorOf_no_error (before : option jsstring) (events : list ProtocolEvent) :
  Forall (fun e => hasType "error" e = false) events ->
  errorOf before events = before.
Proof.
  unfold errorOf. intros H. revert before.
  induction H as [|e events He _ IH]; intros before; cbn [fold_left].
  - reflexivity.
  - rewrite He. apply IH.
Qed.

(** A recorded exit code is the parsed payload of an exit event. *)
Lemma exitOf_from_event (events : list ProtocolEvent) (before : option Z) (n : Z) :
  exitOf before events = Some n ->
  before = Some n
  \/ exists e, In e events /\ hasType "exit" e = true
               /\ parseInt (payload e) = Some n.
Proof.
  unfold exitOf. revert before.
  induction events as [|e events IH]; intros before H; cbn [fold_left] in H.
  - now left.
  - apply IH in H. destruct H as [H|(e' & Hin & Ht & Hp)].
    + destruct (hasType "exit" e) eqn:Ht; [|now left].
      destruct (parseInt (payload e)) eqn:Hp; [|now left].
      right. exists e. repeat split; [now left|assumption|congruence].
    + right. exists e'. repeat split; [now right|assumption|assumption].
Qed.

End Assembler.

(* ================================================================== *)
(** * Claims on the result contract (C2, C3) and on data lines (C5) *)
(* ================================================================== *)

(** An accumulated error text that is not empty makes assembly fail with
    that text, whatever exit code was recorded. *)
Lemma error_text_fails (lines : list jsstring) (c : N) (e : jsstring) :
  errorOf None (emittedEvents initialVars lines) = Some (c :: e) ->
  assemble lines = Throw (str "ISLO exec stream error: " ++ c :: e).
Proof.
  intros H. unfold assemble, finish.
  destruct (lines_fold_events lines initialVars) as (_ & _ & _ & Hp).
  cbn zeta in Hp. cbn [v_pendingError initialVars] in Hp.
  rewrite Hp, H. reflexivity.
Qed.

(** C2, evaluated on the code: a stream whose only error event has an
    empty payload, followed by a valid exit event. The error event is
    emitted, yet assembly returns a command result with exit code 0
    instead of failing, from the lines and from the bytes alike. *)
Theorem error_event_with_empty_payload_returns :
  let lines := [str "event: error"; str "data:"; [];
                str "event: exit"; str "data: 0"; []] in
  let body := [wire [bytesOf "event: error"; bytesOf "data:"; [];
                     bytesOf "event: exit"; bytesOf "data: 0"; []]] in
  emittedEvents initialVars lines
  = [{| type := str "error"; payload := [] |};
     {| type := str "exit"; payload := str "0" |}]
  /\ assemble lines
     = Ok {| Islo.stdout := []; Islo.stderr := []; Islo.exitCode := 0 |}
  /\ decodedLines (D := Utf8) body = lines
  /\ parseSseResult (D := Utf8) body
     = Ok {| Islo.stdout := []; Islo.stderr := []; Islo.exitCode := 0 |}.
Proof. repeat split; vm_compute; reflexivity. Qed.

(** C3: on a line stream that emits no error event, assembly fails with
    the missing-exit error when no exit event with a parsable payload was
    emitted, and otherwise returns the concatenated stdout payloads, the
    concatenated stderr payloads and the last parsed exit code, which is
    the parsed payload of an emitted exit event. *)
Theorem no_error_event_result (lines : list jsstring) :
  let events := emittedEvents initialVars lines in
  Forall (fun e => hasType "error" e = false) events ->
  match exitOf None events with
  | None =>
      assemble lines = Throw (str "ISLO exec stream ended without exit event")
  | Some code =>
      assemble lines
      = Ok {| Islo.stdout := outputOf "stdout" events;
              Islo.stderr := outputOf "stderr" events;
              Islo.exitCode := code |}
      /\ exists e, In e events /\ hasType "exit" e = true
                   /\ parseInt (payload e) = Some code
  end.
Proof.
  intros events Hno.
  destruct (lines_fold_events lines initialVars) as (Ho & He & Hx & Hp).
  cbn zeta in Ho, He, Hx, Hp. fold events in Ho, He, Hx, Hp.
  cbn [v_stdout v_stderr v_exitCode v_pendingError initialVars app] in Ho, He, Hx, Hp.
  rewrite (errorOf_no_error None events Hno) in Hp.
  unfold assemble, finish. rewrite Hp, Hx, Ho, He. cbn [truthy].
  destruct (exitOf None events) as [code|] eqn:Hexit; [|reflexivity].
  split; [reflexivity|].
  destruct (exitOf_from_event events None code Hexit) as [H|H]; [discriminate|exact H].
Qed.

Lemma no_error_event_result_witness :
  let lines := [str "event: stdout"; str "data: hi"; [];
                str "event: exit"; str "data: 3"; []] in
  Forall (fun e => hasType "error" e = false) (emittedEvents initialVars lines)
  /\ assemble lines
     = Ok {| Islo.stdout := str "hi"; Islo.stderr := []; Islo.exitCode := 3 |}.
Proof.
  intros lines.
  assert (Hno : Forall (fun e => hasType "error" e = false)
                  (emittedEvents initialVars lines)).
  { vm_compute. repeat constructor. }
  split; [exact Hno|].
  pose proof (no_error_event_result lines Hno) as H. cbv zeta in H.
  assert (Hexit : exitOf None (emittedEvents initialVars lines) = Some 3%Z)
    by (vm_compute; reflexivity).
  rewrite Hexit in H. destruct H as [H _]. rewrite H. vm_compute. reflexivity.
Defined.

(** A line that starts with [data:] starts with neither [:] nor
    [event:]. *)
Lemma data_line_is_no_other (line : jsstring) :
  startsWith line (str "data:") = true ->
  line <> [] /\ startsWith line (str ":") = false
  /\ startsWith line (str "event:") = false.
Proof.
  destruct line as [|c line]; [discriminate|].
  cbn. intros H. apply andb_prop in H. destruct H as [H _].
  apply N.eqb_eq in H. subst c. repeat split. discriminate.
Qed.

Lemma join_cons (sep first : jsstring) (rest : list jsstring) :
  join sep (first :: rest) = first ++ List.concat (map (app sep) rest).
Proof.
  revert first. induction rest as [|second rest IH]; intros first.
  - cbn. now rewrite app_nil_r.
  - change (join sep (first :: second :: rest))
      with (first ++ sep ++ join sep (second :: rest)).
    rewrite IH. cbn [map List.concat]. now rewrite <- app_assoc.
Qed.

(** What [trimStart] removes is white space, and what it leaves does not
    start with white space. *)
Lemma trimStart_strips (s : jsstring) :
  exists blanks,
    s = blanks ++ trimStart s
    /\ forallb isWhiteSpace blanks = true
    /\ match trimStart s with
       | [] => True
       | c :: _ => isWhiteSpace c = false
       end.
Proof.
  induction s as [|c s (blanks & Hs & Hb & Hhd)].
  - exists []. repeat split.
  - cbn [trimStart]. destruct (isWhiteSpace c) eqn:Hc.
    + exists (c :: blanks). cbn [app forallb]. rewrite Hc, Hb.
      repeat split; [now f_equal|exact Hhd].
    + exists []. repeat split. exact Hc.
Qed.

(** C5 as stated fails: on the line [data:  x], with two spaces, the
    code buffers [x], not the remainder less one space, which is [ x]. *)
Lemma data_line_two_spaces_counterexample :
  let line := str "data:  x" in
  startsWith line (str "data:") = true
  /\ stripOneSpace (sliceFrom 5 line) = str " x"
  /\ v_dataLines (handleLine initialVars line) = [str "x"]
  /\ v_dataLines (handleLine initialVars line)
     <> v_dataLines initialVars ++ [stripOneSpace (sliceFrom 5 line)].
Proof. vm_compute. repeat split. discriminate. Qed.

(** C5, amended: a line that starts with [data:], its trailing carriage
    return removed, appends to the buffered data lines the remainder after
    [data:] with all its leading white space stripped, and changes nothing
    else; the payload an [emitEvent] emits is the buffered lines with one
    line feed between neighbours, and that payload is what is folded into
    the outputs. *)
Theorem data_line_appends_trimmed_remainder (v : Vars) (rawLine : jsstring) :
  startsWith (stripCR rawLine) (str "data:") = true ->
  let remainder := sliceFrom 5 (stripCR rawLine) in
  handleLine v rawLine
  = {| v_stdout := v_stdout v; v_stderr := v_stderr v;
       v_exitCode := v_exitCode v; v_pendingError := v_pendingError v;
       v_currentEvent := v_currentEvent v;
       v_dataLines := v_dataLines v ++ [trimStart remainder] |}
  /\ (exists blanks,
        remainder = blanks ++ trimStart remainder
        /\ forallb isWhiteSpace blanks = true
        /\ match trimStart remainder with
           | [] => True
           | c :: _ => isWhiteSpace c = false
           end)
  /\ (forall first rest,
        v_dataLines v = first :: rest ->
        emitted v
        = [{| type := v_currentEvent v;
              payload := first ++ List.concat (map (app [LF]) rest) |}]
        /\ v_stdout (emitEvent v) = v_stdout v ++ outputOf "stdout" (emitted v)
        /\ v_stderr (emitEvent v) = v_stderr v ++ outputOf "stderr" (emitted v)
        /\ v_exitCode (emitEvent v) = exitOf (v_exitCode v) (emitted v)
        /\ v_pendingError (emitEvent v)
           = errorOf (v_pendingError v) (emitted v)).
Proof.
  intros Hdata remainder. split; [|split].
  - destruct (data_line_is_no_other _ Hdata) as (Hne & Hcolon & Hevent).
    unfold handleLine. fold (stripCR rawLine).
    destruct (stripCR rawLine) as [|c line] eqn:Hline; [congruence|].
    rewrite Hcolon, Hevent, Hdata. reflexivity.
  - apply trimStart_strips.
  - intros first rest Hlines. split; [|apply emitEvent_folds].
    unfold emitted. rewrite Hlines. unfold newline. now rewrite join_cons.
Qed.

Lemma data_line_appends_trimmed_remainder_witness :
  startsWith (stripCR (str "data:  x")) (str "data:") = true
  /\ v_dataLines (handleLine initialVars (str "data:  x")) = [str "x"].
Proof.
  split; [reflexivity|].
  destruct (data_line_appends_trimmed_remainder initialVars (str "data:  x")
              eq_refl) as [H _].
  rewrite H. reflexivity.
Defined.

(* ================================================================== *)
(** * The read loop does not see chunk boundaries (C4) *)
(* ================================================================== *)

Section ChunkInvariance.
Context {D : Type} {TD : TextDecoder D}.

Lemma decode_app (d : D) (a b : list byte) :
  decode d (a ++ b)
  = let '(d1, out1) := decode d a in
    let '(d2, out2) := decode d1 b in
    (d2, out1 ++ out2).
Proof.
  revert d. induction a as [|x a IH]; intros d; cbn [app decode].
  - destruct (decode d b). reflexivity.
  - destruct (handler d x) as [d1 o1]. rewrite IH.
    destruct (decode d1 a) as [d2 o2]. destruct (decode d2 b) as [d3 o3].
    now rewrite app_assoc.
Qed.

Lemma indexOf_bound (c : N) (s : jsstring) (i : nat) :
  indexOf c s = Some i -> (i < List.length s)%nat.
Proof.
  revert i. induction s as [|x s IH]; intros i; cbn [indexOf].
  - discriminate.
  - destruct (x =? c)%N.
    + intros [= <-]. cbn. lia.
    + destruct (indexOf c s) as [j|]; [|discriminate].
      intros [= <-]. specialize (IH j eq_refl). cbn. lia.
Qed.

Lemma indexOf_app_found (c : N) (a b : jsstring) (i : nat) :
  indexOf c a = Some i -> indexOf c (a ++ b) = Some i.
Proof.
  revert i. induction a as [|x a IH]; intros i; cbn [indexOf app].
  - discriminate.
  - destruct (x =? c)%N; [trivial|].
    destruct (indexOf c a) as [j|]; [|discriminate].
    intros [= <-]. now rewrite (IH j eq_refl).
Qed.

Section Drain.
Context {St : Type} (onLine : St -> jsstring -> St).

Lemma drain_none (buffer : jsstring) (s : St) :
  indexOf LF buffer = None -> drain onLine buffer s = (buffer, s).
Proof.
  intros H. funelim (drain onLine buffer s); [congruence|reflexivity].
Qed.

Lemma drain_some (buffer : jsstring) (s : St) (i : nat) :
  indexOf LF buffer = Some i ->
  drain onLine buffer s
  = drain onLine (sliceFrom (i + 1) buffer) (onLine s (sliceTo i buffer)).
Proof.
  intros H. funelim (drain onLine buffer s); [|congruence].
  assert (newlineIndex = i) by congruence. subst. reflexivity.
Qed.

(** Induction along the iterations of the inner loop. *)
Lemma drain_induction (P : jsstring -> Prop) :
  (forall buffer,
      (forall i, indexOf LF buffer = Some i -> P (sliceFrom (i + 1) buffer)) ->
      P buffer) ->
  forall buffer, P buffer.
Proof.
  intros step buffer.
  remember (List.length buffer) as n eqn:Hn.
  revert buffer Hn. induction n as [n IH] using lt_wf_ind. intros buffer Hn.
  apply step. intros i Hi.
  apply (IH (List.length (sliceFrom (i + 1) buffer))); [|reflexivity].
  apply indexOf_bound in Hi. unfold sliceFrom. rewrite length_skipn. lia.
Qed.

(** Text appended to the buffer can wait until the lines before it
    are cut off. *)
Lemma drain_app (a b : jsstring) (s : St) :
  drain onLine (a ++ b) s
  = let '(rest, s1) := drain onLine a s in drain onLine (rest ++ b) s1.
Proof.
  revert s. induction a as [a IH] using drain_induction. intros s.
  destruct (indexOf LF a) as [i|] eqn:Hi.
  - rewrite (drain_some a s i Hi).
    rewrite (drain_some (a ++ b) s i (indexOf_app_found LF a b i Hi)).
    pose proof (indexOf_bound _ _ _ Hi) as Hlt.
    unfold sliceFrom, sliceTo in *.
    rewrite skipn_app, firstn_app.
    replace (i + 1 - List.length a)%nat with 0%nat by lia.
    replace (i - List.length a)%nat with 0%nat by lia.
    cbn [skipn firstn]. rewrite app_nil_r.
    apply (IH i eq_refl).
  - rewrite (drain_none a s Hi). reflexivity.
Qed.

End Drain.

Section Handler.
Context {St : Type} (onLine : St -> jsstring -> St).

Lemma onChunk_app (st : D * jsstring * St) (c1 c2 : list byte) :
  onChunk onLine (onChunk onLine st c1) c2 = onChunk onLine st (c1 ++ c2).
Proof.
  destruct st as [[d buffer] s]. unfold onChunk.
  rewrite decode_app.
  destruct (decode d c1) as [d1 o1]. cbv beta iota.
  destruct (drain onLine (buffer ++ o1) s) as [rest s1] eqn:Hdrain.
  destruct (decode d1 c2) as [d2 o2].
  rewrite app_assoc, (drain_app onLine (buffer ++ o1) o2 s), Hdrain.
  reflexivity.
Qed.

Lemma onChunk_fold (body : list (list byte)) (st : D * jsstring * St)
    (c : list byte) :
  fold_left (onChunk onLine) body (onChunk onLine st c)
  = onChunk onLine st (c ++ List.concat body).
Proof.
  revert c. induction body as [|c' body IH]; intros c; cbn [fold_left List.concat].
  - now rewrite app_nil_r.
  - rewrite onChunk_app, IH, app_assoc. reflexivity.
Qed.

Lemma onChunk_empty (s : St) :
  onChunk onLine (fresh, [], s) [] = (fresh, [], s).
Proof.
  unfold onChunk. cbn [decode app]. now rewrite (drain_none onLine [] s eq_refl).
Qed.

Lemma readAll_one_chunk (body : list (list byte)) (s : St) :
  readAll onLine body s = readAll onLine [List.concat body] s.
Proof.
  unfold readAll. f_equal. cbn [fold_left].
  destruct body as [|c body]; cbn [fold_left List.concat].
  - now rewrite onChunk_empty.
  - apply onChunk_fold.
Qed.

(** ** The loop calls its closure on the decoded lines, in order *)

Lemma drain_record (s0 : St) (buffer : jsstring) (seen : list jsstring) :
  drain onLine buffer (fold_left onLine seen s0)
  = (fst (drain record buffer seen),
     fold_left onLine (snd (drain record buffer seen)) s0).
Proof.
  revert seen. induction buffer as [buffer IH] using drain_induction.
  intros seen. destruct (indexOf LF buffer) as [i|] eqn:Hi.
  - rewrite (drain_some onLine buffer _ i Hi).
    rewrite (drain_some record buffer seen i Hi).
    rewrite <- (IH i eq_refl). unfold record. now rewrite fold_left_app.
  - rewrite (drain_none onLine buffer _ Hi).
    now rewrite (drain_none record buffer seen Hi).
Qed.

Lemma onChunk_record (s0 : St) (c : list byte) (d : D) (buffer : jsstring)
    (seen : list jsstring) :
  onChunk onLine (d, buffer, fold_left onLine seen s0) c
  = let '(d', buffer', seen') := onChunk record (d, buffer, seen) c in
    (d', buffer', fold_left onLine seen' s0).
Proof.
  unfold onChunk. destruct (decode d c) as [d1 o1].
  rewrite drain_record. destruct (drain record (buffer ++ o1) seen).
  reflexivity.
Qed.

Lemma fold_onChunk_record (s0 : St) (body : list (list byte)) (d : D)
    (buffer : jsstring) (seen : list jsstring) :
  fold_left (onChunk onLine) body (d, buffer, fold_left onLine seen s0)
  = let '(d', buffer', seen') :=
      fold_left (onChunk record) body (d, buffer, seen) in
    (d', buffer', fold_left onLine seen' s0).
Proof.
  revert d buffer seen. induction body as [|c body IH]; intros d buffer seen.
  - reflexivity.
  - cbn [fold_left]. rewrite onChunk_record.
    destruct (onChunk record (d, buffer, seen) c) as [[d1 b1] seen1].
    apply IH.
Qed.

Lemma readAll_lines (body : list (list byte)) (s : St) :
  readAll onLine body s = fold_left onLine (decodedLines body) s.
Proof.
  unfold readAll at 1.
  pose proof (f_equal (onDone onLine)
                (fold_onChunk_record s body fresh [] [])) as H.
  cbn [fold_left] in H. etransitivity; [exact H|]. clear H.
  match goal with
  | |- onDone _ (match ?X with _ => _ end) = _ =>
      change (decodedLines body) with (onDone record X);
      destruct X as [[d b] seen]
  end.
  unfold onDone. destruct (b ++ flush d); [reflexivity|].
  unfold record. now rewrite fold_left_app.
Qed.
End Handler.

Lemma parse_is_assemble (body : list (list byte)) :
  parseSseResult body = assemble (decodedLines body).
Proof. unfold parseSseResult, assemble. now rewrite readAll_lines. Qed.

Lemma split_chunks (bytes : list byte) (k : nat) :
  List.concat [firstn k bytes; skipn k bytes] = bytes.
Proof. cbn. now rewrite app_nil_r, firstn_skipn. Qed.

End ChunkInvariance.

(** C4: however a byte sequence is cut into chunks, and with whatever
    streaming decoder, the read loop hands the same lines to [handleLine]
    as for the sequence in one chunk, and [parseSseResult] gives the same
    result (the same thrown message, or the same stdout, stderr and exit
    code); so it is for the two chunks cut at any offset [k], and for any
    two ways of cutting the same bytes; and the result is the assembly of
    the decoded lines. *)
Theorem chunking_invariance {D : Type} {TD : TextDecoder D}
    (body : list (list byte)) :
  decodedLines body = decodedLines [List.concat body]
  /\ parseSseResult body = parseSseResult [List.concat body]
  /\ parseSseResult body = assemble (decodedLines body)
  /\ (forall (bytes : list byte) (k : nat),
        decodedLines [firstn k bytes; skipn k bytes] = decodedLines [bytes]
        /\ parseSseResult [firstn k bytes; skipn k bytes]
           = parseSseResult [bytes])
  /\ (forall body' : list (list byte),
        List.concat body' = List.concat body ->
        decodedLines body' = decodedLines body
        /\ parseSseResult body' = parseSseResult body).
Proof.
  assert (Hlines : forall b : list (list byte),
             decodedLines b = decodedLines [List.concat b]).
  { intros b. unfold decodedLines. apply readAll_one_chunk. }
  assert (Hparse : forall b : list (list byte),
             parseSseResult b = parseSseResult [List.concat b]).
  { intros b. unfold parseSseResult. now rewrite readAll_one_chunk. }
  split; [apply Hlines|]. split; [apply Hparse|].
  split; [apply parse_is_assemble|]. split.
  - intros bytes k. split.
    + rewrite Hlines, split_chunks. reflexivity.
    + rewrite Hparse, split_chunks. reflexivity.
  - intros body' Hsame. split.
    + rewrite (Hlines body'), (Hlines body), Hsame. reflexivity.
    + rewrite (Hparse body'), (Hparse body), Hsame. reflexivity.
Qed.

Lemma chunking_invariance_witness :
  let whole := wire [bytesOf "event: exit"; bytesOf "data: 7"; []] in
  let body := [firstn 9 whole; skipn 9 whole] in
  let body' := [firstn 3 whole; []; firstn 11 (skipn 3 whole);
                skipn 14 whole] in
  List.concat body' = List.concat body
  /\ parseSseResult (D := Utf8) body' = parseSseResult (D := Utf8) body
  /\ parseSseResult (D := Utf8) body
     = Ok {| Islo.stdout := []; Islo.stderr := []; Islo.exitCode := 7 |}.
Proof.
  intros whole body body'.
  assert (Hsame : List.concat body' = List.concat body) by reflexivity.
  split; [exact Hsame|]. split.
  - exact (proj2 (proj2 (proj2 (proj2 (proj2
             (chunking_invariance (D := Utf8) body)))) body' Hsame)).
  - vm_compute. reflexivity.
Defined.

(** The same on a concrete stream through the UTF-8 decoder: a euro sign
    (bytes E2 82 AC) cut after its first byte, and a line cut in two. *)
Example chunking_utf8_example :
  let whole := wire [bytesOf "event: stdout"; bytesOf "data: " ++ [Byte.xe2; Byte.x82; Byte.xac];
                     []; bytesOf "event: exit"; bytesOf "data: 7"; []] in
  decodedLines (D := Utf8) [firstn 21 whole; skipn 21 whole]
  = [str "event: stdout"; str "data: " ++ [8364%N]; [];
     str "event: exit"; str "data: 7"; []]
  /\ parseSseResult (D := Utf8) [firstn 21 whole; skipn 21 whole]
     = Ok {| Islo.stdout := [8364%N]; Islo.stderr := []; Islo.exitCode := 7 |}
  /\ parseSseResult (D := Utf8) [whole]
     = Ok {| Islo.stdout := [8364%N]; Islo.stderr := []; Islo.exitCode := 7 |}.
Proof. repeat split; vm_compute; reflexivity. Qed.

Section DoubleArithmetic.

#[global] Instance fadd_comp : Proper (Qeq ==> Qeq ==> Qeq) fadd.
Proof. intros a b H c d H'. unfold fadd. now rewrite H, H'. Qed.

#[global] Instance fsub_comp : Proper (Qeq ==> Qeq ==> Qeq) fsub.
Proof. intros a b H c d H'. unfold fsub. now rewrite H, H'. Qed.

#[global] Instance fmul_comp : Proper (Qeq ==> Qeq ==> Qeq) fmul.
Proof. intros a b H c d H'. unfold fmul. now rewrite H, H'. Qed.

#[global] Instance fdiv_comp : Proper (Qeq ==> Qeq ==> Qeq) fdiv.
Proof. intros a b H c d H'. unfold fdiv. now rewrite H, H'. Qed.

#[global] Instance roundQ_comp : Proper (Qeq ==> Qeq) roundQ.
Proof.
  intros a b H. unfold roundQ.
  assert (Hf : Qfloor (a + (1 # 2)) = Qfloor (b + (1 # 2)))
    by (apply Qfloor_comp; now rewrite H).
  now rewrite Hf.
Qed.

(** [Math.round] gives the integer at most a half below and less than a
    half above. *)
Lemma roundQ_spec (y : Q) :
  exists n : Z,
    roundQ y = inject_Z n
    /\ inject_Z n - (1 # 2) <= y /\ y < inject_Z n + (1 # 2).
Proof.
  exists (Qfloor (y + (1 # 2))). split; [reflexivity|].
  pose proof (Qfloor_le (y + (1 # 2))) as Hle.
  pose proof (Qlt_floor (y + (1 # 2))) as Hlt.
  rewrite inject_Z_plus in Hlt. change (inject_Z 1) with 1 in Hlt.
  split; lra.
Qed.

Lemma roundQ_mono (x y : Q) : x <= y -> roundQ x <= roundQ y.
Proof.
  intros H. unfold roundQ. rewrite <- Zle_Qle. apply Qfloor_resp_le. lra.
Qed.

(** The error of a rounding, as two inequalities. *)
Lemma double_within (x a : Q) :
  Qabs x <= a ->
  - (a * (1 # 2 ^ 53)) <= double x - x /\ double x - x <= a * (1 # 2 ^ 53).
Proof.
  intros Ha. pose proof (double_error x) as H.
  apply Qabs_Qle_condition in H. destruct H as [H1 H2].
  assert (Qabs x * (1 # 2 ^ 53) <= a * (1 # 2 ^ 53))
    by (apply Qmult_le_compat_r; [exact Ha|discriminate]).
  split; lra.
Qed.

Lemma double_nonneg (x : Q) : 0 <= x -> 0 <= double x.
Proof. intros H. change 0 with (double 0) at 1. now apply double_mono. Qed.

End DoubleArithmetic.

(* ================================================================== *)
(** * Scoring: the timing score (C1) and the composite score (C8) *)
(* ================================================================== *)

(** The score of a metric, in the arithmetic of the code. *)
Lemma scoreMetric_value (v : Q) :
  let x := fmul 100 (fsub 1 (fdiv v 10000)) in
  scoreMetric (Num v) = Num (if Qle_bool 0 x then x else 0).
Proof. reflexivity. Qed.

Example scoreMetric_examples :
  scoreMetric (Num 0) =n= Num 100
  /\ scoreMetric (Num 10000) =n= Num 0
  /\ scoreMetric (Num 20000) =n= Num 0
  /\ scoreMetric (Num 5000) =n= Num 50.
Proof. repeat split; vm_compute; reflexivity. Qed.

(** On a stats object that carries [p95] and [p99], the timing score is
    the weighted sum of the five metric scores, each product and each sum
    rounded to a double, from left to right. *)
Lemma timing_score_weighted_sum (stats : Stats) (weights : ScoringWeights)
    (v95 v99 : Q) :
  p95 stats = Some v95 ->
  p99 stats = Some v99 ->
  exists m s95 s99 smin smax,
    scoreMetric (Num (median stats)) = Num m
    /\ scoreMetric (Num v95) = Num s95
    /\ scoreMetric (Num v99) = Num s99
    /\ scoreMetric (Num (min stats)) = Num smin
    /\ scoreMetric (Num (max stats)) = Num smax
    /\ computeTimingScore stats weights
       = Num (fadd (fadd (fadd (fadd (fmul (w_median weights) m)
                                     (fmul (w_p95 weights) s95))
                               (fmul (w_p99 weights) s99))
                         (fmul (w_min weights) smin))
                   (fmul (w_max weights) smax)).
Proof.
  intros H95 H99. unfold computeTimingScore. rewrite H95, H99. cbn [toNumber].
  rewrite !scoreMetric_value. cbv zeta. cbn [mul add lift2].
  do 5 eexists. repeat (split; [reflexivity|]). reflexivity.
Qed.

(** Without [p95] the timing score is NaN. *)
Lemma timing_score_needs_p95 (stats : Stats) (weights : ScoringWeights) :
  p95 stats = None -> computeTimingScore stats weights = NaN.
Proof.
  intros H. unfold computeTimingScore. rewrite H. cbn [toNumber].
  rewrite !scoreMetric_value. cbv zeta. reflexivity.
Qed.

Lemma computeStats_has_no_p95 (values : list Q) :
  p95 (computeStats values) = None /\ p99 (computeStats values) = None.
Proof. destruct values; split; reflexivity. Qed.

(** A provider measured at 100 ms in each of two iterations is scored
    NaN. *)
Lemma measured_pair_is_scored_NaN :
  compositeScore (scoreResult DEFAULT_WEIGHTS (measured [100; 100])) = Some NaN.
Proof.
  unfold scoreResult.
  assert (Hrate : computeSuccessRate (measured [100; 100]) == 1)
    by (vm_compute; reflexivity).
  assert (Hq : Qeq_bool (computeSuccessRate (measured [100; 100])) 0 = false).
  { apply not_true_is_false. intros H. apply Qeq_bool_iff in H. lra. }
  change (skipped (measured [100; 100])) with false. rewrite Hq. cbn [orb].
  unfold withScores. cbn [compositeScore].
  rewrite timing_score_needs_p95; [reflexivity|].
  apply computeStats_has_no_p95.
Qed.

(** C1, evaluated on the code: [computeStats] never sets [p95] or
    [p99], so on the stats it computes, for any samples and any weights,
    the timing score is NaN and not a weighted sum; a provider measured at
    100 ms in each of two iterations gets the composite score NaN. *)
Theorem timing_score_of_computed_stats_is_NaN
    (values : list Q) (weights : ScoringWeights) :
  p95 (computeStats values) = None
  /\ p99 (computeStats values) = None
  /\ computeTimingScore (computeStats values) weights = NaN
  /\ compositeScore (scoreResult DEFAULT_WEIGHTS (measured [100; 100]))
     = Some NaN.
Proof.
  destruct (computeStats_has_no_p95 values) as [H95 H99].
  split; [exact H95|]. split; [exact H99|].
  split; [now apply timing_score_needs_p95|].
  exact measured_pair_is_scored_NaN.
Qed.

(** Rounding to two decimals gives the double nearest to a number of
    hundredths: of the integer nearest to the hundredfold, the upper one
    at a tie. It is at most half a hundredth away, up to what three
    roundings to a double add. *)
Lemma round2_hundredths (q : Q) :
  exists n : Z,
    round2 (Num q) = Num (double (inject_Z n / 100))
    /\ inject_Z n - (1 # 2) <= double (q * 100)
    /\ double (q * 100) < inject_Z n + (1 # 2)
    /\ Qabs (double (inject_Z n / 100) - q)
       <= (1 # 200) + (Qabs q + 1) * (1 # 2 ^ 51).
Proof.
  destruct (roundQ_spec (double (q * 100))) as (n & Hn & Hlo & Hhi).
  exists n. split; [unfold round2; cbn [mul lift2 round div]; unfold fmul, fdiv;
                    now rewrite Hn|].
  split; [exact Hlo|]. split; [exact Hhi|].
  set (A := Qabs q).
  assert (HA : 0 <= A) by apply Qabs_nonneg.
  assert (HqA : - A <= q /\ q <= A)
    by (apply Qabs_Qle_condition; apply Qle_refl).
  assert (Hy : Qabs (q * 100) <= A * 100).
  { apply Qabs_Qle_condition. split; lra. }
  destruct (double_within (q * 100) (A * 100) Hy) as [Hy1 Hy2].
  change (1 # 2 ^ 53) with (1 # 9007199254740992) in Hy1, Hy2.
  assert (Hn' : Qabs (inject_Z n / 100)
                <= A * (1 + (1 # 9007199254740992)) + (1 # 200)).
  { apply Qabs_Qle_condition.
    split; [apply Qle_shift_div_l; [reflexivity|lra]
           |apply Qle_shift_div_r; [reflexivity|lra]]. }
  destruct (double_within (inject_Z n / 100) _ Hn') as [Hr1 Hr2].
  change (1 # 2 ^ 53) with (1 # 9007199254740992) in *.
  change (1 # 2 ^ 51) with (1 # 2251799813685248).
  assert (Hd : inject_Z n / 100 * 100 == inject_Z n) by (field).
  apply Qabs_Qle_condition. split; lra.
Qed.



(** The code's own arithmetic, where exact arithmetic would differ: with
    every metric at 17.5 ms and every iteration successful the product is
    a double just below 99.825, and the score is 99.82, not 99.83. *)
Example composite_score_follows_the_doubles :
  exists t score,
    computeTimingScore (sum_ttiMs (summary quick)) DEFAULT_WEIGHTS = Num t
    /\ t < 99825 # 1000
    /\ compositeScore (scoreResult DEFAULT_WEIGHTS quick) = Some (Num score)
    /\ score == double (9982 # 100).
Proof.
  eexists. eexists.
  split; [vm_compute; reflexivity|]. split; [vm_compute; reflexivity|].
  split; [vm_compute; reflexivity|]. vm_compute. reflexivity.
Qed.

(* ================================================================== *)
(** * Ranking (C9) *)
(* ================================================================== *)

Section InsertionSort.
Context {A : Type} (comparefn : A -> A -> num).

Lemma insert_permutation (x : A) (l : list A) :
  Permutation (x :: l) (insert comparefn x l).
Proof.
  induction l as [|y l IH]; cbn [insert].
  - reflexivity.
  - destruct (positive (comparefn x y)).
    + rewrite perm_swap. now apply perm_skip.
    + reflexivity.
Qed.

Lemma sort_permutation (l : list A) : Permutation l (sort comparefn l).
Proof.
  induction l as [|x l IH]; cbn [sort].
  - reflexivity.
  - rewrite <- insert_permutation. now apply perm_skip.
Qed.

(** An element that goes after all of [before] is inserted in what
    follows. *)
Lemma insert_passes (x : A) (before after : list A) :
  Forall (fun y => positive (comparefn x y) = true) before ->
  insert comparefn x (before ++ after) = before ++ insert comparefn x after.
Proof.
  induction 1 as [|y before Hy _ IH]; cbn [app insert].
  - reflexivity.
  - rewrite Hy, IH. reflexivity.
Qed.

(** An element that does not go after the head of [after] is inserted
    in what precedes. *)
Lemma insert_stops (x : A) (before after : list A) :
  match after with
  | [] => True
  | y :: _ => positive (comparefn x y) = false
  end ->
  insert comparefn x (before ++ after) = insert comparefn x before ++ after.
Proof.
  intros Hhead. induction before as [|y before IH]; cbn [app insert].
  - destruct after as [|z after]; [reflexivity|].
    cbn [insert]. rewrite Hhead. reflexivity.
  - destruct (positive (comparefn x y)); [|reflexivity].
    rewrite IH. reflexivity.
Qed.
End InsertionSort.

Lemma outranks_transitive (a b c : BenchmarkResult) :
  outranks a b -> outranks b c -> outranks a c.
Proof.
  unfold outranks.
  destruct (scoreOrZero a), (scoreOrZero b), (scoreOrZero c);
    try contradiction. intros H1 H2. lra.
Qed.

Section Signs.

Lemma double_le_0 (z : Q) : double z <= 0 <-> z <= 0.
Proof.
  split; intros H.
  - destruct (Qlt_le_dec 0 z) as [Hz|Hz]; [|exact Hz].
    pose proof (double_pos z Hz). lra.
  - change 0 with (double 0). now apply double_mono.
Qed.

Lemma double_ge_0 (z : Q) : 0 <= double z <-> 0 <= z.
Proof.
  split; intros H.
  - destruct (Qlt_le_dec z 0) as [Hz|Hz]; [|exact Hz].
    pose proof (double_neg z Hz). lra.
  - now apply double_nonneg.
Qed.

(** The sign of a difference of two numbers is not lost in rounding. *)
Lemma positive_fsub (x y : Q) :
  positive (Num (fsub y x)) = negb (Qle_bool (y - x) 0).
Proof.
  unfold positive, fsub. f_equal.
  destruct (Qle_bool (y - x) 0) eqn:H.
  - apply Qle_bool_iff, (proj2 (double_le_0 _)). now apply Qle_bool_iff.
  - apply not_true_is_false. intros H'.
    apply (proj1 (Qle_bool_iff _ _)), (proj1 (double_le_0 _)) in H'.
    apply (proj2 (Qle_bool_iff _ _)) in H'. congruence.
Qed.

Lemma negative_fsub (x y : Q) :
  negative (Num (fsub y x)) = negb (Qle_bool 0 (y - x)).
Proof.
  unfold negative, fsub. f_equal.
  destruct (Qle_bool 0 (y - x)) eqn:H.
  - apply Qle_bool_iff, (proj2 (double_ge_0 _)). now apply Qle_bool_iff.
  - apply not_true_is_false. intros H'.
    apply (proj1 (Qle_bool_iff _ _)), (proj1 (double_ge_0 _)) in H'.
    apply (proj2 (Qle_bool_iff _ _)) in H'. congruence.
Qed.

Lemma isZero_fsub (x y : Q) :
  isZero (Num (fsub y x)) = Qeq_bool (y - x) 0.
Proof.
  unfold isZero, fsub.
  destruct (Qeq_bool (y - x) 0) eqn:H.
  - apply Qeq_bool_iff, (proj2 (double_zero_iff _)). now apply Qeq_bool_iff.
  - apply not_true_is_false. intros H'.
    apply (proj1 (Qeq_bool_iff _ _)), (proj1 (double_zero_iff _)) in H'.
    apply (proj2 (Qeq_bool_iff _ _)) in H'. congruence.
Qed.

End Signs.

(** Insertion is a sort of the engine's kind. *)
#[local] Instance insertionSort : ArraySort :=
  {| arraySort := fun A comparefn l => sort comparefn l;
     arraySort_rearranges := fun A comparefn l => sort_permutation comparefn l;
     arraySort_consistent := fun A comparefn l _ => eq_refl |}.

(** How two results that are not skipped compare, when neither score is
    NaN. *)
Lemma compareResults_scores (a b : BenchmarkResult) :
  skipped a = false -> skipped b = false ->
  isNaN (scoreOrZero a) = false -> isNaN (scoreOrZero b) = false ->
  if positive (compareResults a b) then outranks b a else outranks a b.
Proof.
  unfold compareResults, outranks. intros -> -> Ha Hb. cbn [andb negb].
  destruct (scoreOrZero a) as [x|], (scoreOrZero b) as [y|]; try discriminate.
  cbn [sub lift2]. rewrite positive_fsub.
  destruct (Qle_bool (y - x) 0) eqn:Hle; cbn [negb].
  - apply Qle_bool_iff in Hle. lra.
  - assert (~ y - x <= 0) as Hn
      by (intros Hn; apply Qle_bool_iff in Hn; congruence).
    lra.
Qed.

Section Ranking.

(** The comparator of the ranking is consistent on results whose
    compared scores are numbers. *)
Lemma compareResults_consistent (results : list BenchmarkResult) :
  scoresAreNumbers results -> consistent compareResults results.
Proof.
  intros Hnum a b c Ha Hb Hc.
  pose proof (Hnum a Ha) as Na. pose proof (Hnum b Hb) as Nb.
  pose proof (Hnum c Hc) as Nc.
  unfold compareResults.
  destruct (skipped a), (skipped b), (skipped c); cbn [andb negb];
    try specialize (Na eq_refl); try specialize (Nb eq_refl);
    try specialize (Nc eq_refl);
    repeat match goal with
           | H : isNaN (scoreOrZero ?r) = false |- _ =>
               destruct (scoreOrZero r) as [?q|]; [clear H|discriminate H]
           end;
    cbn [sub lift2]; rewrite ?positive_fsub, ?negative_fsub, ?isZero_fsub;
    cbn [isNaN isZero negative positive];
    repeat split; try reflexivity; try discriminate;
    rewrite ?negb_true_iff; intros;
    repeat match goal with
           | H : Qeq_bool _ _ = true |- _ => apply Qeq_bool_iff in H
           | H : Qle_bool _ _ = false |- _ =>
               apply not_true_iff_false in H; rewrite Qle_bool_iff in H
           | H : Qle_bool _ _ = true |- _ => apply Qle_bool_iff in H
           end;
    try (apply Qeq_bool_iff; lra);
    try (apply not_true_iff_false; rewrite Qle_bool_iff; lra).
Qed.

Lemma scoresAreNumbers_incl (l l' : list BenchmarkResult) :
  (forall r, In r l' -> In r l) -> scoresAreNumbers l -> scoresAreNumbers l'.
Proof. intros Hincl Hnum r Hin. apply Hnum, Hincl, Hin. Qed.

Context {engine : ArraySort}.

(** On such results every engine sorts as insertion does. *)
Lemma sortByCompositeScore_sort (results : list BenchmarkResult) :
  scoresAreNumbers results ->
  sortByCompositeScore results = sort compareResults results.
Proof.
  intros Hnum. unfold sortByCompositeScore.
  apply arraySort_consistent. now apply compareResults_consistent.
Qed.

Lemma insert_ranked (x : BenchmarkResult) (l : list BenchmarkResult) :
  scoresAreNumbers (x :: l) ->
  Forall (fun r => skipped r = false) (x :: l) ->
  Sorted outranks l ->
  Sorted outranks (insert compareResults x l).
Proof.
  intros Hnum Hns Hsorted.
  induction Hsorted as [|y l Hl IH Hhd]; cbn [insert].
  - repeat constructor.
  - assert (Hx : skipped x = false) by (inversion Hns; assumption).
    assert (Hy : skipped y = false)
      by (inversion Hns as [|? ? _ Hns']; inversion Hns'; assumption).
    pose proof (compareResults_scores x y Hx Hy
                  (Hnum x (or_introl eq_refl) Hx)
                  (Hnum y (or_intror (or_introl eq_refl)) Hy)) as Hcmp.
    destruct (positive (compareResults x y)).
    + constructor.
      * apply IH.
        -- intros r [<-|Hin]; [apply Hnum; now left|].
           apply Hnum. right. now right.
        -- inversion Hns as [|? ? ? Hns']. inversion Hns'. now constructor.
      * destruct l as [|z l]; cbn [insert].
        -- now constructor.
        -- destruct (positive (compareResults x z)); constructor;
             [now inversion Hhd|assumption].
    + constructor; [now constructor|now constructor].
Qed.

Lemma sort_ranked (l : list BenchmarkResult) :
  scoresAreNumbers l ->
  Forall (fun r => skipped r = false) l ->
  Sorted outranks (sort compareResults l).
Proof.
  induction l as [|x l IH]; intros Hnum Hns; cbn [sort].
  - constructor.
  - inversion Hns as [|? ? Hx Hl]; subst.
    assert (Hnum' : scoresAreNumbers l)
      by (intros r Hin; apply Hnum; now right).
    apply insert_ranked.
    + intros r [<-|Hin]; [apply Hnum; now left|].
      apply Hnum'. now apply (Permutation_in r (Permutation_sym (sort_permutation compareResults l))).
    + constructor; [assumption|].
      eapply Permutation_Forall; [apply sort_permutation|assumption].
    + now apply IH.
Qed.

(** The skipped results stay behind the others, in the order they came. *)
Lemma sort_splits (results : list BenchmarkResult) :
  sort compareResults results
  = sort compareResults (filter notSkipped results) ++ filter skipped results.
Proof.
  induction results as [|x results IH]; cbn [sort filter].
  - reflexivity.
  - rewrite IH. unfold notSkipped at 2. destruct (skipped x) eqn:Hx; cbn [negb].
    + rewrite insert_passes.
      * f_equal. destruct (filter skipped results) as [|y rest] eqn:Hrest;
          [reflexivity|].
        cbn [insert].
        assert (Hy : skipped y = true).
        { assert (Hin : In y (filter skipped results))
            by (rewrite Hrest; now left).
          apply filter_In in Hin. tauto. }
        unfold compareResults. rewrite Hx, Hy. reflexivity.
      * eapply Permutation_Forall; [apply sort_permutation|].
        apply Forall_forall. intros y Hin. apply filter_In in Hin.
        destruct Hin as [_ Hy]. unfold notSkipped in Hy.
        unfold compareResults. rewrite Hx.
        destruct (skipped y); [discriminate|reflexivity].
    + cbn [sort]. apply insert_stops.
      destruct (filter skipped results) as [|y rest] eqn:Hrest; [exact I|].
      assert (Hy : skipped y = true).
      { assert (Hin : In y (filter skipped results))
          by (rewrite Hrest; now left).
        apply filter_In in Hin. tauto. }
      unfold compareResults. rewrite Hx, Hy. reflexivity.
Qed.

(** A score that is NaN is in no order with another score. *)
Lemma unranked_beside_NaN (l : list BenchmarkResult) (r : BenchmarkResult) :
  In r l -> scoreOrZero r = NaN -> (2 <= List.length l)%nat ->
  ~ StronglySorted outranks l.
Proof.
  intros Hin Hnan Hlen Hsorted.
  induction Hsorted as [|x l Hl IH Hall]; [destruct Hin|].
  destruct Hin as [->|Hin].
  - destruct l as [|y l]; [cbn in Hlen; lia|].
    inversion Hall as [|? ? Hy _]; subst.
    unfold outranks in Hy. now rewrite Hnan in Hy.
  - rewrite Forall_forall in Hall. specialize (Hall r Hin).
    unfold outranks in Hall. rewrite Hnan in Hall.
    now destruct (scoreOrZero x).
Qed.

End Ranking.

(** C9, against the claim as it stands: a result that is not skipped
    and has the score NaN, which is the score [computeCompositeScores]
    gives to every result [runBenchmark] measures, is in no descending
    order with the others, whatever the engine makes of the comparator:
    here the sorted list is never in descending order of score, and an
    engine that sorts by insertion leaves the scores 10 and 90 in that
    order. *)
Lemma nan_score_is_not_ranked_counterexample :
  let unscored := scoreResult DEFAULT_WEIGHTS (measured [100; 100]) in
  let results := [scoring "slow" 10; unscored; scoring "fast" 90] in
  Forall (fun r => skipped r = false) results
  /\ compositeScore unscored = Some NaN
  /\ (forall engine : ArraySort,
        ~ StronglySorted outranks (sortByCompositeScore (engine := engine) results))
  /\ sortByCompositeScore (engine := insertionSort) results = results.
Proof.
  intros unscored results.
  assert (Hnan : compositeScore unscored = Some NaN)
    by exact measured_pair_is_scored_NaN.
  split; [repeat constructor|]. split; [exact Hnan|]. split.
  - intros engine. apply (unranked_beside_NaN _ unscored).
    + apply (Permutation_in _ (arraySort_rearranges compareResults results)).
      right. now left.
    + unfold scoreOrZero. now rewrite Hnan.
    + unfold sortByCompositeScore.
      rewrite <- (Permutation_length (arraySort_rearranges compareResults results)).
      cbn. lia.
  - vm_compute. reflexivity.
Qed.

(** C9: for results whose compared scores are numbers, in every engine
    the sorted list is the results that are not skipped, in descending
    order of composite score, followed by the skipped ones in their
    original order; it is a rearrangement of the input; and of a skipped
    result and one that is not and has a number for a score, in either
    input order, the one that is not skipped comes first. *)
Theorem skipped_last_and_scores_descending
    {engine : ArraySort} (results : list BenchmarkResult) :
  scoresAreNumbers results ->
  let ranked := sortByCompositeScore (filter notSkipped results) in
  sortByCompositeScore results = ranked ++ filter skipped results
  /\ Permutation (filter notSkipped results) ranked
  /\ StronglySorted outranks ranked
  /\ Permutation results (sortByCompositeScore results)
  /\ (forall a b,
        skipped a = true -> skipped b = false ->
        isNaN (scoreOrZero b) = false ->
        sortByCompositeScore [a; b] = [b; a]
        /\ sortByCompositeScore [b; a] = [b; a]).
Proof.
  intros Hnum ranked.
  assert (Hnum' : scoresAreNumbers (filter notSkipped results)).
  { apply (scoresAreNumbers_incl results); [|exact Hnum].
    intros r Hin. apply filter_In in Hin. tauto. }
  unfold ranked. rewrite (sortByCompositeScore_sort _ Hnum).
  rewrite (sortByCompositeScore_sort _ Hnum').
  split; [apply sort_splits|].
  split; [apply sort_permutation|].
  split; [|split; [apply sort_permutation|]].
  - apply Sorted_StronglySorted.
    + intros a b c. apply outranks_transitive.
    + apply sort_ranked; [exact Hnum'|].
      apply Forall_forall. intros r Hin. apply filter_In in Hin.
      destruct Hin as [_ Hr]. unfold notSkipped in Hr.
      now destruct (skipped r).
  - intros a b Ha Hb Hscore.
    assert (Hab : scoresAreNumbers [a; b]).
    { intros r [<-|[<-|[]]] Hr; [congruence|exact Hscore]. }
    assert (Hba : scoresAreNumbers [b; a]).
    { intros r [<-|[<-|[]]] Hr; [exact Hscore|congruence]. }
    rewrite (sortByCompositeScore_sort _ Hab), (sortByCompositeScore_sort _ Hba).
    cbn [sort insert]. unfold compareResults.
    rewrite Ha, Hb. split; reflexivity.
Qed.

Lemma skipped_last_and_scores_descending_witness :
  let results := [missingKey; scoring "slow" 90; scoring "fast" 95] in
  scoresAreNumbers results
  /\ sortByCompositeScore (engine := insertionSort) results
     = [scoring "fast" 95; scoring "slow" 90; missingKey].
Proof.
  intros results.
  assert (Hnum : scoresAreNumbers results).
  { intros r [<-|[<-|[<-|[]]]] _; reflexivity. }
  split; [exact Hnum|].
  rewrite (proj1 (skipped_last_and_scores_descending (engine := insertionSort)
                    results Hnum)).
  reflexivity.
Defined.

(* ================================================================== *)
(** * The checked command (C6) *)
(* ================================================================== *)

Lemma truncate_length (value : jsstring) (maxLength : nat) :
  (3 <= maxLength)%nat ->
  (List.length (truncate value maxLength) <= maxLength)%nat.
Proof.
  intros Hmax. unfold truncate.
  destruct (List.length value <=? maxLength)%nat eqn:Hle.
  - now apply Nat.leb_le.
  - apply Nat.leb_gt in Hle. unfold sliceTo.
    rewrite length_app, length_firstn. cbn. lia.
Qed.

(** The detail the code tests is [detailOf]. *)
Lemma checkResult_message (failurePrefix : jsstring) (r : CommandResult) :
  Runtime.exitCode r <> 0%Z ->
  checkResult failurePrefix r
  = Throw (match detailOf r with
           | [] => failurePrefix ++ str " (exit " ++ showZ (Runtime.exitCode r)
                   ++ str ")"
           | _ :: _ => failurePrefix ++ str " (exit "
                       ++ showZ (Runtime.exitCode r)
                       ++ str "): " ++ truncate (detailOf r) 220
           end).
Proof.
  intros Hcode. unfold checkResult, detailOf.
  destruct (Runtime.exitCode r =? 0)%Z eqn:Hz; [apply Z.eqb_eq in Hz; contradiction|].
  cbn [negb].
  destruct (trimOpt (Runtime.stderr r)) as [[|c e]|];
    destruct (trimOpt (Runtime.stdout r)) as [[|c' o]|]; reflexivity.
Qed.

(** C6 as stated fails: with 221 characters on stderr, the last of them
    a Z, the message carries the head of stderr (its first 217
    characters and three dots); nothing that stderr ends with occurs in
    the message. *)
Lemma message_carries_head_not_tail_counterexample :
  let err := repeat 97%N 220 ++ [90%N] in
  let r := {| Runtime.stdout := None; Runtime.stderr := Some err;
              Runtime.exitCode := 1 |} in
  let message := str "Workload setup failed (exit 1): "
                 ++ repeat 97%N 217 ++ str "..." in
  detailOf r = err
  /\ checkResult (str "Workload setup failed") r = Throw message
  /\ ~ exists t, t <> [] /\ isTailOf t err /\ occursIn t message.
Proof.
  intros err r message. split; [|split].
  - vm_compute. reflexivity.
  - vm_compute. reflexivity.
  - intros (t & Hne & (h & Hh) & (a & b & Hm)).
    destruct (exists_last Hne) as (t' & x & ->).
    unfold err in Hh. rewrite app_assoc in Hh.
    apply app_inj_tail in Hh. destruct Hh as [_ <-].
    assert (Hin : In 90%N message)
      by (rewrite Hm; apply in_or_app; right; apply in_or_app; left;
          apply in_or_app; right; now left).
    assert (Hnot : existsb (N.eqb 90) message = false) by (vm_compute; reflexivity).
    assert (Hyes : existsb (N.eqb 90) message = true)
      by (apply existsb_exists; exists 90%N; split; [exact Hin|reflexivity]).
    congruence.
Qed.

(** C6, amended: on a result with a non-zero exit code the check throws,
    and so the promise of [runCheckedCommand] rejects although
    [sandbox.runCommand] fulfilled; the message is the prefix and the exit
    code, followed, when the detail is not empty, by the detail cut to at
    most 220 characters: the detail itself when it has at most 220
    characters, else its first 217 characters and three dots. The detail
    is trimmed stderr, or trimmed stdout when trimmed stderr is empty. *)
Theorem nonzero_exit_fails_with_truncated_detail
    (failurePrefix : jsstring) (r : CommandResult) :
  Runtime.exitCode r <> 0%Z ->
  let detail := detailOf r in
  let message :=
    match detail with
    | [] => failurePrefix ++ str " (exit " ++ showZ (Runtime.exitCode r) ++ str ")"
    | _ :: _ => failurePrefix ++ str " (exit " ++ showZ (Runtime.exitCode r)
                ++ str "): " ++ truncate detail 220
    end in
  checkResult failurePrefix r = Throw message
  /\ (forall compute sb command cwd seconds w after,
        runCommand compute w sb command
          {| opt_cwd := if truthy cwd then cwd else None; opt_timeout := seconds |}
        = Some (after, Fulfilled r) ->
        fst (runCheckedCommand compute sb command cwd seconds failurePrefix w)
        = Some (after, Rejected message))
  /\ (List.length (truncate detail 220) <= 220)%nat
  /\ ((List.length detail <= 220)%nat -> truncate detail 220 = detail)
  /\ ((220 < List.length detail)%nat ->
      truncate detail 220 = firstn 217 detail ++ str "...")
  /\ detail = match trimOpt (Runtime.stderr r) with
              | Some (c :: e) => c :: e
              | _ => match trimOpt (Runtime.stdout r) with
                     | Some o => o
                     | None => []
                     end
              end.
Proof.
  intros Hcode detail message.
  pose proof (checkResult_message failurePrefix r Hcode) as Hmsg.
  split; [exact Hmsg|]. split; [|split; [|split; [|split]]].
  - intros compute sb command cwd seconds w after Hrun.
    unfold runCheckedCommand. cbn [fst]. rewrite Hrun.
    unfold thenCheck. rewrite Hmsg. reflexivity.
  - apply truncate_length. lia.
  - intros Hle. unfold truncate.
    apply Nat.leb_le in Hle. rewrite Hle. reflexivity.
  - intros Hgt. unfold truncate.
    apply Nat.leb_gt in Hgt. rewrite Hgt. reflexivity.
  - reflexivity.
Qed.

Lemma nonzero_exit_fails_with_truncated_detail_witness :
  let r := {| Runtime.stdout := Some (str "partial output");
              Runtime.stderr := Some (str " npm ERR! missing script ");
              Runtime.exitCode := 1 |} in
  Runtime.exitCode r <> 0%Z
  /\ checkResult (str "Workload setup failed") r
     = Throw (str "Workload setup failed (exit 1): npm ERR! missing script").
Proof.
  intros r.
  assert (Hcode : Runtime.exitCode r <> 0%Z) by discriminate.
  split; [exact Hcode|].
  rewrite (proj1 (nonzero_exit_fails_with_truncated_detail
                    (str "Workload setup failed") r Hcode)).
  reflexivity.
Defined.

(* ================================================================== *)
(** * The iteration: teardown (C7) and the shape of the sample (C10) *)
(* ================================================================== *)

Section TryBlock.

Lemma bind_ok {A B : Type} (m : M A) (k : A -> M B) (f f' : Frame) (a : A) :
  m f = (Ok a, f') -> bind m k f = k a f'.
Proof. unfold bind. intros ->. reflexivity. Qed.

Lemma bind_inv {A B : Type} (m : M A) (k : A -> M B) (f f' : Frame) (b : B) :
  bind m k f = (Ok b, f') ->
  exists a f1, m f = (Ok a, f1) /\ k a f1 = (Ok b, f').
Proof.
  unfold bind. destruct (m f) as [[a|message] f1]; [|discriminate].
  intros H. now exists a, f1.
Qed.

Lemma quiet_ret {A : Type} (a : A) : quiet (ret a).
Proof. intros f. split; reflexivity. Qed.

Lemma quiet_performanceNow : quiet performanceNow.
Proof. intros f. split; reflexivity. Qed.

Lemma quiet_bind {A B : Type} (m : M A) (k : A -> M B) :
  quiet m -> (forall a, quiet (k a)) -> quiet (bind m k).
Proof.
  intros Hm Hk f. unfold bind. specialize (Hm f).
  destruct (m f) as [[a|message] f1]; cbn [snd] in *.
  - destruct (Hk a f1) as [Hs Hc]. destruct Hm as [Hs' Hc'].
    split; congruence.
  - exact Hm.
Qed.

Lemma quiet_when (b : bool) (m : M unit) : quiet m -> quiet (when b m).
Proof. destruct b; [trivial|intros _; apply quiet_ret]. Qed.

Lemma quiet_inWorld {A : Type} (op : World -> result A * World) :
  (forall w, destroyCalls (calls (snd (op w))) = destroyCalls (calls w)) ->
  quiet (inWorld op).
Proof.
  intros Hop f. unfold inWorld. specialize (Hop (world f)).
  destruct (op (world f)) as [r w]. split; [reflexivity|exact Hop].
Qed.

Lemma awaitRace_calls {A : Type} (p : promise A) (ms : Q) (message : jsstring)
    (w : World) :
  calls (snd (awaitRace p ms message w)) = calls w.
Proof.
  unfold awaitRace. destruct p as [[after outcome]|]; [|reflexivity].
  destruct (Qle_bool after ms); reflexivity.
Qed.

(** Awaiting a race takes no longer than its timer. *)
Lemma awaitRace_bounded {A : Type} (p : promise A) (ms : Q) (message : jsstring)
    (w : World) :
  now (snd (awaitRace p ms message w)) <= now w + ms.
Proof.
  unfold awaitRace. destruct p as [[after outcome]|]; cbn; [|lra].
  destruct (Qle_bool after ms) eqn:Hle; cbn; [|lra].
  apply Qle_bool_iff in Hle. lra.
Qed.

Lemma checked_command_quiet (compute : Compute) (sb : Sandbox)
    (command : jsstring) (dir : option jsstring) (seconds ms : Q)
    (failurePrefix message : jsstring) :
  quiet (inWorld (fun w =>
    let '(p, w1) :=
      runCheckedCommand compute sb command dir seconds failurePrefix w in
    withTimeout p ms message w1)).
Proof.
  apply quiet_inWorld. intros w. unfold runCheckedCommand, withTimeout.
  rewrite awaitRace_calls. unfold logCall, destroyCalls. cbn [calls].
  rewrite filter_app, length_app. cbn. lia.
Qed.

(** Once [create] has fulfilled in time, the [try] block ends with the
    sandbox in its variable and without a call of [destroy]. *)
Lemma tryBlock_keeps_sandbox (compute : Compute) (timeout : Q)
    (workload : option WorkloadConfig) (ms : Q) (w : World)
    (after : Q) (sb : Sandbox) :
  create compute w = Some (after, Fulfilled sb) ->
  Qle_bool after timeout = true ->
  let f := snd (tryBlock compute timeout workload ms
                  {| world := w; sandbox := None |}) in
  sandbox f = Some sb
  /\ destroyCalls (calls (world f)) = destroyCalls (calls w).
Proof.
  intros Hcreate Hle. cbn zeta. unfold tryBlock.
  erewrite bind_ok; [|reflexivity]. cbv beta.
  erewrite bind_ok;
    [|unfold inWorld, withTimeout, awaitRace; cbn [world sandbox];
      rewrite Hcreate, Hle; reflexivity].
  erewrite bind_ok; [|reflexivity].
  match goal with
  | |- context [snd (?m ?f)] =>
      assert (Hq : quiet m);
      [|destruct (Hq f) as [Hs Hc]; rewrite Hs, Hc; split; [reflexivity|]]
  end.
  - apply quiet_bind; [apply checked_command_quiet|intros _].
    apply quiet_bind; [apply quiet_performanceNow|intros t].
    cbv zeta.
    match goal with |- quiet (if ?c then _ else _) => destruct c end;
      [apply quiet_ret|].
    apply quiet_bind; [apply quiet_performanceNow|intros t0].
    apply quiet_bind; [apply quiet_when, checked_command_quiet|intros _].
    apply quiet_bind; [apply quiet_when, checked_command_quiet|intros _].
    apply quiet_bind; [apply quiet_performanceNow|intros t1].
    apply quiet_bind; [apply quiet_performanceNow|intros t2].
    apply quiet_ret.
  - unfold destroyCalls, advance, logCall. cbn [world calls].
    rewrite filter_app, length_app. cbn. lia.
Qed.

End TryBlock.

(** X30: when [create] fulfils within its time-out, the iteration calls
    [destroy] once, as its last call and on the sandbox created, on every
    path through the [try] block; awaiting it advances the clock by the
    time [destroy] takes to settle, or by 15000 ms when it has not
    settled by then, so by at most 15000 ms; and the iteration ends as
    the [try] block ended, whatever [destroy] answers or however long it
    takes: with the same sample or the same thrown message, also for any
    other [destroy]. *)
Theorem destroy_once_bounded_and_swallowed
    (compute : Compute) (timeout : Q) (workload : option WorkloadConfig)
    (w : World) (after : Q) (sb : Sandbox) :
  create compute w = Some (after, Fulfilled sb) ->
  Qle_bool after timeout = true ->
  let tried := tryBlock compute timeout workload (workloadTimeout workload)
                 {| world := w; sandbox := None |} in
  let done := runIteration compute timeout workload w in
  calls (snd done) = calls (world (snd tried)) ++ [CallDestroy sb]
  /\ destroyCalls (calls (world (snd tried))) = destroyCalls (calls w)
  /\ destroyCalls (calls (snd done)) = S (destroyCalls (calls w))
  /\ now (snd done)
     = now (world (snd tried))
       + teardownTime (destroy compute (world (snd tried)) sb)
  /\ now (snd done) <= now (world (snd tried)) + 15000
  /\ fst done = fst tried
  /\ forall destroy',
       fst (runIteration
              {| create := create compute; runCommand := runCommand compute;
                 destroy := destroy' |} timeout workload w)
       = fst done.
Proof.
  intros Hcreate Hle tried done.
  destruct (tryBlock_keeps_sandbox compute timeout workload
              (workloadTimeout workload) w after sb Hcreate Hle) as [Hsb Hcalls].
  fold tried in Hsb, Hcalls.
  assert (Hdone : done = (fst tried, finallyBlock compute (snd tried))).
  { unfold done, runIteration. fold (workloadTimeout workload). fold tried.
    destruct tried as [r f]. reflexivity. }
  assert (Hfinal : calls (snd done) = calls (world (snd tried)) ++ [CallDestroy sb]).
  { rewrite Hdone. cbn [snd]. unfold finallyBlock. rewrite Hsb.
    rewrite awaitRace_calls. reflexivity. }
  split; [exact Hfinal|]. split; [exact Hcalls|]. split; [|split; [|split; [|split]]].
  - rewrite Hfinal. unfold destroyCalls in *.
    rewrite filter_app, length_app, Hcalls. cbn. lia.
  - rewrite Hdone. cbn [snd]. unfold finallyBlock. rewrite Hsb.
    unfold awaitRace, teardownTime.
    destruct (destroy compute (world (snd tried)) sb) as [[dt outcome]|];
      [|reflexivity].
    destruct (Qle_bool dt 15000); reflexivity.
  - rewrite Hdone. cbn [snd]. unfold finallyBlock. rewrite Hsb.
    match goal with
    | |- now (snd (awaitRace ?p ?ms ?m ?w0)) <= _ =>
        pose proof (awaitRace_bounded p ms m w0) as Hb
    end.
    cbn [now logCall] in Hb. exact Hb.
  - rewrite Hdone. reflexivity.
  - intros destroy'. rewrite Hdone. cbn [fst].
    unfold runIteration. fold (workloadTimeout workload).
    change (tryBlock {| create := create compute; runCommand := runCommand compute;
                        destroy := destroy' |} timeout workload
              (workloadTimeout workload) {| world := w; sandbox := None |})
      with tried.
    destruct tried as [r f]. reflexivity.
Qed.

Lemma destroy_once_bounded_and_swallowed_witness :
  let compute := scripted succeeded None in
  let done := runIteration compute 120000 None startOfRun in
  create compute startOfRun = Some (120, Fulfilled {| sandboxId := 1 |})
  /\ Qle_bool 120 120000 = true
  /\ fst done = Ok (bareSample 410)
  /\ destroyCalls (calls (snd done)) = 1%nat
  /\ now (snd done) == 15410.
Proof.
  intros compute done.
  pose proof (destroy_once_bounded_and_swallowed compute 120000 None startOfRun
                120 {| sandboxId := 1 |} eq_refl eq_refl) as H.
  cbn zeta in H. destruct H as (_ & _ & Hone & Hclock & _ & Hsame & _).
  split; [reflexivity|]. split; [reflexivity|]. split; [|split].
  - unfold done. rewrite Hsame. vm_compute. reflexivity.
  - unfold done. rewrite Hone. reflexivity.
  - unfold done. rewrite Hclock. vm_compute. reflexivity.
Defined.

Section SampleShape.

(** With a workload command or a setup command to run, a sample that
    the [try] block returns has both workload fields. *)
Lemma tryBlock_sample_fields (compute : Compute) (timeout : Q)
    (workload : option WorkloadConfig) (ms : Q) (f f' : Frame)
    (sample : TimingResult) :
  tryBlock compute timeout workload ms f = (Ok sample, f') ->
  let setup := match workload with Some wl => setupCommand wl | None => None end in
  let cmd := match workload with Some wl => command wl | None => None end in
  if negb (truthy setup) && negb (truthy cmd)
  then workloadMs sample = None /\ totalMs sample = None
  else workloadMs sample <> None /\ totalMs sample <> None.
Proof.
  unfold tryBlock. intros H.
  do 5 (apply bind_inv in H; destruct H as (? & ? & _ & H); cbv beta in H).
  cbv zeta in *.
  match goal with
  | |- if ?c then _ else _ => destruct c
  end.
  - injection H as <- _. split; reflexivity.
  - do 5 (apply bind_inv in H; destruct H as (? & ? & _ & H); cbv beta in H).
    injection H as <- _. split; discriminate.
Qed.

End SampleShape.

(** C10: with a setup command and no workload command, once [create],
    the first command and the setup command have fulfilled in time with
    exit code 0, the iteration returns a sample with [ttiMs], [workloadMs]
    and [totalMs], where [workloadMs] is the time the setup command took;
    the calls made are [create], the first command, the setup command and
    [destroy], and no workload command. Conversely a returned sample lacks
    [workloadMs] or [totalMs] only when the configuration has neither a
    setup command nor a workload command. *)
Theorem setup_only_workload_is_timed
    (compute : Compute) (timeout : Q) (wl : WorkloadConfig) (w : World)
    (sb : Sandbox) (created smoked installed : Q) (smoke setup : CommandResult) :
  let ms := workloadTimeout (Some wl) in
  let smokeOptions := {| opt_cwd := None; opt_timeout := 30 |} in
  let setupText := match setupCommand wl with Some c => c | None => [] end in
  let setupOptions :=
    {| opt_cwd := if truthy (cwd wl) then cwd wl else None;
       opt_timeout := msToSeconds ms |} in
  let w1 := advance created (logCall CallCreate w) in
  let w2 := advance smoked
              (logCall (CallRunCommand sb smokeCommand smokeOptions) w1) in
  truthy (setupCommand wl) = true ->
  truthy (command wl) = false ->
  create compute w = Some (created, Fulfilled sb) ->
  Qle_bool created timeout = true ->
  runCommand compute w1 sb smokeCommand smokeOptions
  = Some (smoked, Fulfilled smoke) ->
  Runtime.exitCode smoke = 0%Z ->
  Qle_bool smoked 30000 = true ->
  runCommand compute w2 sb setupText setupOptions
  = Some (installed, Fulfilled setup) ->
  Runtime.exitCode setup = 0%Z ->
  Qle_bool installed ms = true ->
  (exists tti work total,
      fst (runIteration compute timeout (Some wl) w)
      = Ok {| ttiMs := tti; workloadMs := Some work; totalMs := Some total;
              error := None |}
      /\ tti == created + smoked
      /\ work == installed
      /\ total == created + smoked + installed)
  /\ calls (snd (runIteration compute timeout (Some wl) w))
     = calls w ++ [CallCreate;
                   CallRunCommand sb smokeCommand smokeOptions;
                   CallRunCommand sb setupText setupOptions;
                   CallDestroy sb]
  /\ (forall compute' timeout' workload' w' sample,
        fst (runIteration compute' timeout' workload' w') = Ok sample ->
        workloadMs sample = None \/ totalMs sample = None ->
        truthy (match workload' with Some c => setupCommand c | None => None end)
        = false
        /\ truthy (match workload' with Some c => command c | None => None end)
           = false).
Proof.
  intros ms smokeOptions setupText setupOptions w1 w2
    Hsetup Hcmd Hcreate Hle0 Hsmoke Hexit1 Hle1 Hrun Hexit2 Hle2.
  assert (Htry :
    tryBlock compute timeout (Some wl) ms {| world := w; sandbox := None |}
    = (Ok {| ttiMs := now w2 - now w;
             workloadMs := Some (now w2 + installed - now w2);
             totalMs := Some (now w2 + installed - now w);
             error := None |},
       {| world := advance installed
                     (logCall (CallRunCommand sb setupText setupOptions) w2);
          sandbox := Some sb |})).
  { unfold tryBlock.
    erewrite bind_ok; [|reflexivity]. cbv beta.
    erewrite bind_ok;
      [|unfold inWorld, withTimeout, awaitRace; cbn [world sandbox];
        rewrite Hcreate, Hle0; reflexivity].
    erewrite bind_ok; [|reflexivity].
    erewrite bind_ok;
      [|unfold inWorld, runCheckedCommand, withTimeout, awaitRace, thenCheck;
        cbn [world sandbox truthy]; fold smokeOptions; fold w1;
        rewrite Hsmoke; unfold checkResult; rewrite Hexit1; cbn [Z.eqb negb];
        rewrite Hle1; reflexivity].
    erewrite bind_ok; [|reflexivity]. cbv beta zeta.
    rewrite Hsetup, Hcmd. cbn [negb andb when].
    erewrite bind_ok; [|reflexivity]. cbv beta.
    erewrite bind_ok;
      [|unfold inWorld, runCheckedCommand, withTimeout, awaitRace, thenCheck;
        cbn [world sandbox]; fold smokeOptions; fold w1; fold w2;
        fold setupText; fold ms; fold setupOptions;
        rewrite Hrun; unfold checkResult; rewrite Hexit2; cbn [Z.eqb negb];
        rewrite Hle2; reflexivity].
    erewrite bind_ok; [|reflexivity].
    erewrite bind_ok; [|reflexivity]. cbv beta.
    erewrite bind_ok; [|reflexivity]. cbv beta.
    reflexivity. }
  assert (Hdone :
    runIteration compute timeout (Some wl) w
    = (Ok {| ttiMs := now w2 - now w;
             workloadMs := Some (now w2 + installed - now w2);
             totalMs := Some (now w2 + installed - now w);
             error := None |},
       finallyBlock compute
         {| world := advance installed
                       (logCall (CallRunCommand sb setupText setupOptions) w2);
            sandbox := Some sb |})).
  { unfold runIteration. fold (workloadTimeout (Some wl)). fold ms.
    rewrite Htry. reflexivity. }
  split; [|split].
  - do 3 eexists. rewrite Hdone. cbn [fst]. split; [reflexivity|].
    unfold w2, w1, advance, logCall. cbn [now]. repeat split; ring.
  - rewrite Hdone. cbn [snd]. unfold finallyBlock. cbn [sandbox world].
    rewrite awaitRace_calls. unfold w2, w1, advance, logCall. cbn [calls].
    rewrite <- !app_assoc. reflexivity.
  - intros compute' timeout' workload' w' sample Hok Hnone.
    unfold runIteration in Hok.
    destruct (tryBlock compute' timeout' workload' _ _) as [r f'] eqn:Htry'.
    cbn [fst] in Hok. subst r.
    pose proof (tryBlock_sample_fields _ _ _ _ _ _ _ Htry') as Hshape.
    cbv zeta in Hshape.
    destruct (truthy match workload' with Some c => setupCommand c | None => None end);
      destruct (truthy match workload' with Some c => command c | None => None end);
      cbn [negb andb] in Hshape; try (split; reflexivity);
      destruct Hshape as [Hw Ht]; destruct Hnone; contradiction.
Qed.

Lemma setup_only_workload_is_timed_witness :
  let compute := scripted succeeded (Some (80, Fulfilled tt)) in
  let sb := {| sandboxId := 1 |} in
  truthy (setupCommand setupOnly) = true
  /\ truthy (command setupOnly) = false
  /\ create compute startOfRun = Some (120, Fulfilled sb)
  /\ fst (runIteration compute 120000 (Some setupOnly) startOfRun)
     = Ok {| ttiMs := 410; workloadMs := Some 290; totalMs := Some 700;
             error := None |}
  /\ calls (snd (runIteration compute 120000 (Some setupOnly) startOfRun))
     = [CallCreate;
        CallRunCommand sb smokeCommand {| opt_cwd := None; opt_timeout := 30 |};
        CallRunCommand sb (str "npm install")
          {| opt_cwd := None; opt_timeout := 300 |};
        CallDestroy sb].
Proof.
  intros compute sb.
  pose proof (setup_only_workload_is_timed compute 120000 setupOnly startOfRun
                sb 120 290 290 succeeded succeeded
                eq_refl eq_refl eq_refl eq_refl eq_refl eq_refl eq_refl
                eq_refl eq_refl eq_refl) as H.
  destruct H as (_ & Hcalls & _).
  split; [reflexivity|]. split; [reflexivity|]. split; [reflexivity|].
  split; [vm_compute; reflexivity|].
  rewrite Hcalls. vm_compute. reflexivity.
Defined.

(* ================================================================== *)
(** * Further properties of the assembler *)
(* ================================================================== *)

Section AssemblerLaws.

Lemma emitEvent_idempotent (v : Vars) : emitEvent (emitEvent v) = emitEvent v.
Proof.
  unfold emitEvent at 1. destruct (emitEvent_resets v) as [Hd Hc].
  rewrite Hd. destruct (emitEvent v) as [o e x p c d]. cbn in *. congruence.
Qed.

Lemma occursIn_self (s : jsstring) : occursIn s s.
Proof. exists [], []. now rewrite app_nil_r. Qed.

Lemma occursIn_app_l (p s t : jsstring) : occursIn p s -> occursIn p (s ++ t).
Proof.
  intros (a & b & ->). exists a, (b ++ t). now rewrite <- !app_assoc.
Qed.

Lemma occursIn_app_r (p s t : jsstring) : occursIn p t -> occursIn p (s ++ t).
Proof.
  intros (a & b & ->). exists (s ++ a), b. now rewrite <- !app_assoc.
Qed.

(** An error text that carries [p] keeps carrying it. *)
Lemma errorOf_keeps (p : jsstring) (events : list ProtocolEvent)
    (before : option jsstring) :
  (exists c m, before = Some (c :: m) /\ occursIn p (c :: m)) ->
  exists c m, errorOf before events = Some (c :: m) /\ occursIn p (c :: m).
Proof.
  unfold errorOf. revert before.
  induction events as [|e events IH]; intros before H; cbn [fold_left].
  - exact H.
  - apply IH. destruct H as (c & m & -> & Hin).
    destruct (hasType "error" e).
    + exists c, (m ++ newline ++ payload e). split; [reflexivity|].
      now apply (occursIn_app_l p (c :: m)).
    + now exists c, m.
Qed.

Lemma errorOf_carries (e : ProtocolEvent) (events : list ProtocolEvent)
    (before : option jsstring) :
  In e events -> hasType "error" e = true -> payload e <> [] ->
  exists c m, errorOf before events = Some (c :: m)
              /\ occursIn (payload e) (c :: m).
Proof.
  intros Hin Htype Hpayload. revert before.
  induction events as [|e' events IH]; intros before; [contradiction|].
  destruct Hin as [->|Hin]; [|apply (IH Hin)].
  change (errorOf before (e :: events))
    with (errorOf (errorOf before [e]) events).
  apply errorOf_keeps. unfold errorOf. cbn [fold_left]. rewrite Htype.
  destruct before as [[|c m]|].
  - destruct (payload e) as [|c m]; [congruence|].
    exists c, m. split; [reflexivity|apply occursIn_self].
  - exists c, (m ++ newline ++ payload e). split; [reflexivity|].
    apply (occursIn_app_r _ (c :: m)), occursIn_app_r, occursIn_self.
  - destruct (payload e) as [|c m]; [congruence|].
    exists c, m. split; [reflexivity|apply occursIn_self].
Qed.

Lemma endsWith_snoc (s : jsstring) (c : N) : endsWith (s ++ [c]) [c] = true.
Proof.
  unfold endsWith. rewrite rev_app_distr. cbn [rev app startsWith].
  rewrite N.eqb_refl. destruct (rev s); reflexivity.
Qed.

Lemma handleLine_crlf (v : Vars) (line : jsstring) :
  endsWith line [CR] = false ->
  handleLine v (line ++ [CR]) = handleLine v line.
Proof.
  intros H. unfold handleLine.
  rewrite endsWith_snoc, H. unfold dropLast. now rewrite removelast_last.
Qed.

Lemma handleLine_passedOver (v : Vars) (rawLine : jsstring) :
  passedOver rawLine = true -> handleLine v rawLine = v.
Proof.
  unfold passedOver, handleLine. fold (stripCR rawLine).
  destruct (stripCR rawLine) as [|c line]; [discriminate|].
  destruct (startsWith (c :: line) (str ":")); [reflexivity|].
  destruct (startsWith (c :: line) (str "event:")); [discriminate|].
  destruct (startsWith (c :: line) (str "data:")); [discriminate|reflexivity].
Qed.

End AssemblerLaws.

(** X1: an emitted error event whose payload is not empty makes
    assembly throw a stream error that carries the payload, whatever was
    received besides. *)
Theorem error_payload_is_thrown (lines : list jsstring) (e : ProtocolEvent) :
  In e (emittedEvents initialVars lines) ->
  hasType "error" e = true ->
  payload e <> [] ->
  exists text,
    assemble lines = Throw (str "ISLO exec stream error: " ++ text)
    /\ occursIn (payload e) text.
Proof.
  intros Hin Htype Hpayload.
  destruct (errorOf_carries e _ None Hin Htype Hpayload) as (c & m & Herr & Hocc).
  exists (c :: m). split; [|exact Hocc].
  now apply error_text_fails.
Qed.

Lemma error_payload_is_thrown_witness :
  let lines := [str "event: exit"; str "data: 0"; [];
                str "event: error"; str "data: disk full"] in
  let e := {| type := str "error"; payload := str "disk full" |} in
  In e (emittedEvents initialVars lines)
  /\ assemble lines = Throw (str "ISLO exec stream error: disk full").
Proof.
  intros lines e.
  assert (Hin : In e (emittedEvents initialVars lines))
    by (vm_compute; right; left; reflexivity).
  split; [exact Hin|].
  destruct (error_payload_is_thrown lines e Hin eq_refl) as (text & H & _).
  - discriminate.
  - vm_compute. reflexivity.
Defined.

(** X2: a stream whose lines end with carriage return and line feed
    assembles like the same stream with line feeds alone. *)
Theorem carriage_returns_are_dropped (lines : list jsstring) :
  Forall (fun l => endsWith l [CR] = false) lines ->
  assemble (map (fun l => l ++ [CR]) lines) = assemble lines.
Proof.
  intros H. unfold assemble. do 2 f_equal.
  generalize initialVars. induction H as [|l lines Hl _ IH]; intros v.
  - reflexivity.
  - cbn [map fold_left]. rewrite (handleLine_crlf v l Hl). apply IH.
Qed.

Lemma carriage_returns_are_dropped_witness :
  let lines := [str "event: stdout"; str "data: ok"; [];
                str "event: exit"; str "data: 0"; []] in
  Forall (fun l => endsWith l [CR] = false) lines
  /\ assemble (map (fun l => l ++ [CR]) lines)
     = Ok {| Islo.stdout := str "ok"; Islo.stderr := []; Islo.exitCode := 0 |}.
Proof.
  intros lines.
  assert (H : Forall (fun l => endsWith l [CR] = false) lines)
    by (repeat constructor).
  split; [exact H|].
  rewrite (carriage_returns_are_dropped lines H). vm_compute. reflexivity.
Defined.

(** X3: the record a stream ends with needs no blank line after it: a
    blank line added at the end of the lines changes nothing. *)
Theorem last_record_needs_no_blank_line (lines : list jsstring) :
  assemble (lines ++ [[]]) = assemble lines.
Proof.
  unfold assemble. rewrite fold_left_app. cbn [fold_left].
  rewrite (handleLine_blank _ [] eq_refl), emitEvent_idempotent. reflexivity.
Qed.

(** X4: comment lines and fields other than [event:] and [data:] can be
    taken out of a stream without changing what it assembles to. *)
Theorem passed_over_lines_do_not_count (lines : list jsstring) :
  assemble (filter (fun l => negb (passedOver l)) lines) = assemble lines.
Proof.
  unfold assemble. do 2 f_equal.
  generalize initialVars. induction lines as [|l lines IH]; intros v.
  - reflexivity.
  - cbn [filter fold_left]. destruct (passedOver l) eqn:Hl; cbn [negb].
    + rewrite (handleLine_passedOver v l Hl). apply IH.
    + cbn [fold_left]. apply IH.
Qed.

(* ================================================================== *)
(** * The line splitter, and exit codes through the stream *)
(* ================================================================== *)

Section Splitter.

Lemma indexOf_none (c : N) (s : jsstring) :
  indexOf c s = None -> existsb (N.eqb c) s = false.
Proof.
  induction s as [|x s IH]; cbn [indexOf existsb]; [reflexivity|].
  rewrite (N.eqb_sym c x). destruct (x =? c)%N; [discriminate|].
  destruct (indexOf c s); [discriminate|]. intros _. now apply IH.
Qed.

Lemma indexOf_split (c : N) (s : jsstring) (i : nat) :
  indexOf c s = Some i ->
  s = firstn i s ++ c :: skipn (i + 1) s
  /\ existsb (N.eqb c) (firstn i s) = false.
Proof.
  revert i. induction s as [|x s IH]; intros i; cbn [indexOf]; [discriminate|].
  destruct (x =? c)%N eqn:Hx.
  - intros [= <-]. apply N.eqb_eq in Hx. subst x. split; reflexivity.
  - destruct (indexOf c s) as [j|]; [|discriminate].
    intros [= <-]. destruct (IH j eq_refl) as [Hs Hno].
    cbn [firstn skipn Nat.add app existsb].
    rewrite (N.eqb_sym c x), Hx, Hno. split; [|reflexivity].
    f_equal. exact Hs.
Qed.

(** What the inner loop cuts off a buffer, and what it leaves. *)
Lemma drain_cuts_lines (buffer : jsstring) (seen : list jsstring) :
  exists complete,
    snd (drain record buffer seen) = seen ++ complete
    /\ buffer = withLineFeeds complete ++ fst (drain record buffer seen)
    /\ Forall (fun l => hasLF l = false) complete
    /\ hasLF (fst (drain record buffer seen)) = false.
Proof.
  revert seen. induction buffer as [buffer IH] using drain_induction.
  intros seen. destruct (indexOf LF buffer) as [i|] eqn:Hi.
  - rewrite (drain_some record buffer seen i Hi).
    destruct (IH i eq_refl (record seen (sliceTo i buffer)))
      as (complete & Hsnd & Hbuf & Hall & Hrest).
    destruct (indexOf_split LF buffer i Hi) as [Hsplit Hno].
    exists (sliceTo i buffer :: complete). repeat split.
    + rewrite Hsnd. unfold record. now rewrite <- app_assoc.
    + unfold withLineFeeds in *. cbn [flat_map].
      rewrite <- !app_assoc. cbn [app].
      rewrite <- Hbuf. exact Hsplit.
    + constructor; [exact Hno|exact Hall].
    + exact Hrest.
  - rewrite (drain_none record buffer seen Hi). exists []. cbn [fst snd].
    repeat split; [now rewrite app_nil_r|constructor|].
    now apply indexOf_none.
Qed.

End Splitter.

(** X5: the lines handed to [handleLine] are the decoded text cut at
    its line feeds: the text is those lines, each with its line feed, and
    a rest without line feed; the rest, with what the decoder flushes, is
    one more line unless it is empty; no line but this last one holds a
    line feed. *)
Theorem decoded_lines_are_the_text {D : Type} {TD : TextDecoder D}
    (body : list (list byte)) :
  let decoded := decode fresh (List.concat body) in
  exists complete rest,
    snd decoded = withLineFeeds complete ++ rest
    /\ Forall (fun l => hasLF l = false) complete
    /\ hasLF rest = false
    /\ decodedLines body
       = complete ++ match rest ++ flush (fst decoded) with
                     | [] => []
                     | c :: last => [c :: last]
                     end.
Proof.
  intros decoded. unfold decodedLines.
  rewrite (readAll_one_chunk record body []).
  unfold readAll. cbn [fold_left]. unfold onChunk. fold decoded.
  destruct decoded as [d text]. cbn [app fst snd].
  destruct (drain_cuts_lines text []) as (complete & Hsnd & Htext & Hall & Hrest).
  destruct (drain record text []) as [rest seen]. cbn [fst snd app] in *.
  subst seen. exists complete, rest. repeat split; try assumption.
  unfold onDone. destruct (rest ++ flush d); [now rewrite app_nil_r|reflexivity].
Qed.

Section ExitCodes.

Lemma str_cons (c : ascii) (s : string) : str (String c s) = N_of_ascii c :: str s.
Proof. reflexivity. Qed.

Lemma digits_of_uint (d : Decimal.uint) (acc : Z) (rest : jsstring) :
  digits (Some acc) (str (NilEmpty.string_of_uint d) ++ rest)
  = digits (Some (acc * 10 ^ Z.of_N (DecimalPos.Unsigned.usize d)
                  + Z.of_N (DecimalPos.Unsigned.of_lu (Decimal.rev d)))%Z) rest.
Proof.
  revert acc. induction d; intros acc;
    [cbn; apply (f_equal (fun a => digits (Some a) rest)); lia|..];
    unfold Decimal.rev; cbn [Decimal.revapp]; rewrite DecimalPos.Unsigned.of_lu_revapp;
    fold (Decimal.rev d);
    cbn [NilEmpty.string_of_uint]; rewrite str_cons;
    cbn [digits app];
    match goal with |- context [digitValue ?c] =>
      let v := eval vm_compute in (digitValue c) in
      change (digitValue c) with v end;
    cbv iota; rewrite IHd;
    cbn [DecimalPos.Unsigned.of_lu DecimalPos.Unsigned.usize];
    rewrite !N2Z.inj_add, !N2Z.inj_mul, N2Z.inj_pow, N2Z.inj_succ,
      Z.pow_succ_r by lia; rewrite ?N.mul_0_r, ?N.add_0_r; cbn [Z.of_N];
    apply (f_equal (fun a => digits (Some a) rest)); ring.
Qed.

Lemma mathInt_digit_head (c : N) (rest : jsstring) :
  digitValue c <> None ->
  mathInt (c :: rest) = digits None (c :: rest) /\ isWhiteSpace c = false.
Proof.
  unfold digitValue. destruct ((48 <=? c)%N && (c <=? 57)%N) eqn:H; [|congruence].
  intros _. apply andb_prop in H. destruct H as [H1 H2].
  apply N.leb_le in H1, H2.
  assert (Hc : (c = 48 \/ c = 49 \/ c = 50 \/ c = 51 \/ c = 52 \/ c = 53
               \/ c = 54 \/ c = 55 \/ c = 56 \/ c = 57)%N) by lia.
  repeat (destruct Hc as [->|Hc]; [split; reflexivity|]).
  subst c. split; reflexivity.
Qed.

Ltac eval_head_char :=
  match goal with
  | |- context [N_of_ascii ?c] =>
      let v := eval vm_compute in (N_of_ascii c) in
      change (N_of_ascii c) with v
  end.

Lemma digits_end (acc : option Z) (rest : jsstring) :
  endsDigits rest -> digits acc rest = acc.
Proof. destruct rest as [|c rest]; [reflexivity|]. cbn. now intros ->. Qed.

Lemma digits_of_positive (p : BinNums.positive) (rest : jsstring) :
  endsDigits rest ->
  exists c more,
    str (NilZero.string_of_uint (Pos.to_uint p)) = c :: more
    /\ digitValue c <> None
    /\ digits None (c :: more ++ rest) = Some (Z.pos p).
Proof.
  intros Hrest.
  pose proof (DecimalPos.Unsigned.to_uint_nonnil p) as Hnil.
  pose proof (DecimalPos.Unsigned.of_to p) as Hof. rewrite DecimalPos.Unsigned.of_uint_alt in Hof.
  assert (Hval : forall d k,
             (DecimalPos.Unsigned.of_lu (Decimal.rev d) + k * 10 ^ DecimalPos.Unsigned.usize d
              = N.pos p)%N ->
             (Z.of_N k * 10 ^ Z.of_N (DecimalPos.Unsigned.usize d)
              + Z.of_N (DecimalPos.Unsigned.of_lu (Decimal.rev d)) = Z.pos p)%Z).
  { intros d k H. apply (f_equal Z.of_N) in H.
    rewrite N2Z.inj_add, N2Z.inj_mul, N2Z.inj_pow in H. cbn [Z.of_N] in H. lia. }
  destruct (Pos.to_uint p) as [|d|d|d|d|d|d|d|d|d|d] eqn:Hd; [congruence|..];
    unfold Decimal.rev in Hof; cbn [Decimal.revapp] in Hof;
    rewrite DecimalPos.Unsigned.of_lu_revapp in Hof; fold (Decimal.rev d) in Hof;
    apply Hval in Hof;
    match type of Hof with
    | context [Z.of_N (DecimalPos.Unsigned.of_lu (?f Decimal.Nil))] =>
        let v := eval vm_compute in (Z.of_N (DecimalPos.Unsigned.of_lu (f Decimal.Nil))) in
        change (Z.of_N (DecimalPos.Unsigned.of_lu (f Decimal.Nil))) with v in Hof
    end;
    cbn [NilZero.string_of_uint NilEmpty.string_of_uint]; rewrite str_cons;
    eval_head_char; eexists _, _; (split; [reflexivity|]);
    (split; [discriminate|]);
    cbn [digits];
    match goal with |- context [digitValue ?c] =>
      let v := eval vm_compute in (digitValue c) in
      change (digitValue c) with v end;
    cbv iota; rewrite digits_of_uint, (digits_end _ rest Hrest); apply f_equal; lia.
Qed.

(** The digits of an integer, with anything but a digit after them, stand
    for the integer. *)
Lemma mathInt_decimal (z : Z) (rest : jsstring) :
  endsDigits rest -> mathInt (decimal z ++ rest) = Some z.
Proof.
  intros Hrest. unfold decimal. destruct z as [|p|p].
  - change (str (NilZero.string_of_int (Z.to_int 0))) with [48%N].
    cbn [app]. rewrite (proj1 (mathInt_digit_head 48 rest ltac:(discriminate))).
    cbn [digits]. change (digitValue 48) with (Some 0%Z). cbv iota.
    now rewrite (digits_end _ rest Hrest).
  - cbn [Z.to_int NilZero.string_of_int].
    destruct (digits_of_positive p rest Hrest) as (c & more & -> & Hc & H).
    cbn [app]. now rewrite (proj1 (mathInt_digit_head c (more ++ rest) Hc)).
  - cbn [Z.to_int NilZero.string_of_int]. rewrite str_cons.
    destruct (digits_of_positive p rest Hrest) as (c & more & -> & _ & H).
    unfold mathInt. eval_head_char. cbn [trimStart app].
    change (isWhiteSpace 45) with false. cbv iota.
    cbn [app] in H. rewrite H. reflexivity.
Qed.

(** An integer of at most 53 bits is read back as it is. *)
Lemma parseInt_small (s : jsstring) (z : Z) :
  mathInt s = Some z -> (Z.abs z <= 2 ^ 53)%Z -> parseInt s = Some z.
Proof.
  intros Hs Hz. unfold parseInt. rewrite Hs. cbv zeta.
  pose proof (double_int z Hz) as Hd.
  assert (Hsmall : Qle_bool (pow2 1024) (Qabs (double (inject_Z z))) = false).
  { apply not_true_is_false. intros H. apply Qle_bool_iff in H.
    rewrite Hd in H.
    assert (Habs : Qabs (inject_Z z) <= inject_Z (2 ^ 53)).
    { apply Qabs_Qle_condition. rewrite <- inject_Z_opp, <- !Zle_Qle. lia. }
    assert (Hbig : inject_Z (2 ^ 53) < pow2 1024) by (vm_compute; reflexivity).
    lra. }
  rewrite Hsmall. f_equal. rewrite (Qfloor_comp _ _ Hd). apply Qfloor_Z.
Qed.

Lemma uint_chars (d : Decimal.uint) :
  Forall (fun c => isWhiteSpace c = false) (str (NilEmpty.string_of_uint d)).
Proof.
  induction d; cbn [NilEmpty.string_of_uint]; [exact (Forall_nil _)|..];
    rewrite str_cons; (constructor; [reflexivity|assumption]).
Qed.

(** The digits of an integer are not empty and hold no white space. *)
Lemma decimal_chars (z : Z) :
  decimal z <> [] /\ Forall (fun c => isWhiteSpace c = false) (decimal z).
Proof.
  unfold decimal. destruct z as [|p|p].
  - split; [discriminate|repeat constructor].
  - cbn [Z.to_int NilZero.string_of_int].
    destruct (digits_of_positive p [] I) as (c & rest & Hs & _ & _).
    split; [rewrite Hs; discriminate|].
    pose proof (DecimalPos.Unsigned.to_uint_nonnil p).
    destruct (Pos.to_uint p) eqn:Hp; [congruence|..]; apply uint_chars.
  - cbn [Z.to_int NilZero.string_of_int]. rewrite str_cons.
    split; [discriminate|]. constructor; [reflexivity|].
    pose proof (DecimalPos.Unsigned.to_uint_nonnil p).
    destruct (Pos.to_uint p) eqn:Hp; [congruence|..]; apply uint_chars.
Qed.

Lemma endsWith_CR_app (a s : jsstring) :
  s <> [] -> Forall (fun c => isWhiteSpace c = false) s ->
  endsWith (a ++ s) [CR] = false.
Proof.
  intros Hne Hall. destruct (exists_last Hne) as (s' & x & ->).
  unfold endsWith. rewrite app_assoc, rev_app_distr. cbn [rev app startsWith].
  apply Forall_app in Hall. destruct Hall as [_ Hx]. inversion Hx as [|? ? Hws _].
  unfold CR. destruct (x =? 13)%N eqn:Hx13; [|reflexivity].
  apply N.eqb_eq in Hx13. rewrite Hx13 in Hws. vm_compute in Hws.
  discriminate Hws.
Qed.

(** The record of an exit event sets the exit code when its payload
    reads as an integer, and nothing else. *)
Lemma exitRecord_sets_code (v : Vars) (n : Z) :
  fold_left handleLine (exitRecord n) (emitEvent v)
  = {| v_stdout := v_stdout (emitEvent v); v_stderr := v_stderr (emitEvent v);
       v_exitCode := match parseInt (decimal n) with
                     | Some code => Some code
                     | None => v_exitCode (emitEvent v)
                     end;
       v_pendingError := v_pendingError (emitEvent v);
       v_currentEvent := str "message"; v_dataLines := [] |}.
Proof.
  destruct (emitEvent_resets v) as [Hd Hc].
  destruct (decimal_chars n) as [Hne Hall].
  unfold exitRecord. cbn [fold_left].
  change (handleLine (emitEvent v) (str "event: exit"))
    with {| v_stdout := v_stdout (emitEvent v); v_stderr := v_stderr (emitEvent v);
            v_exitCode := v_exitCode (emitEvent v);
            v_pendingError := v_pendingError (emitEvent v);
            v_currentEvent := str "exit";
            v_dataLines := v_dataLines (emitEvent v) |}.
  rewrite Hd.
  assert (Hdata : forall w,
             handleLine w (str "data: " ++ decimal n)
             = {| v_stdout := v_stdout w; v_stderr := v_stderr w;
                  v_exitCode := v_exitCode w; v_pendingError := v_pendingError w;
                  v_currentEvent := v_currentEvent w;
                  v_dataLines := v_dataLines w ++ [decimal n] |}).
  { intros w. unfold handleLine.
    rewrite (endsWith_CR_app (str "data: ") (decimal n) Hne Hall).
    change (str "data: " ++ decimal n)
      with (100 :: 97 :: 116 :: 97 :: 58 :: 32 :: decimal n)%N.
    cbn [startsWith str map list_ascii_of_string N.eqb Pos.eqb N_of_ascii
         N_of_digits andb sliceFrom skipn trimStart].
    change (isWhiteSpace 32) with true. cbv iota.
    destruct (decimal n) as [|c rest]; [congruence|].
    inversion Hall as [|? ? Hws _]. cbn [trimStart]. rewrite Hws. reflexivity. }
  rewrite Hdata. cbn [v_dataLines v_stdout v_stderr v_exitCode v_pendingError
                      v_currentEvent app].
  rewrite (handleLine_blank _ [] eq_refl).
  unfold emitEvent at 1. cbn [v_dataLines v_stdout v_stderr v_exitCode
                              v_pendingError v_currentEvent join].
  change (JS.eqb (str "exit") (str "stdout")) with false.
  change (JS.eqb (str "exit") (str "stderr")) with false.
  change (JS.eqb (str "exit") (str "exit")) with true.
  change (JS.eqb (str "exit") (str "error")) with false.
  cbv iota. destruct (parseInt (decimal n)); reflexivity.
Qed.

(** What assembly makes of lines that end with the record of an exit
    event. *)
Lemma assemble_exitRecord (lines : list jsstring) (n : Z) :
  assemble (lines ++ [] :: exitRecord n)
  = finish
      {| v_stdout := v_stdout (emitEvent (fold_left handleLine lines initialVars));
         v_stderr := v_stderr (emitEvent (fold_left handleLine lines initialVars));
         v_exitCode :=
           match parseInt (decimal n) with
           | Some code => Some code
           | None => v_exitCode (emitEvent (fold_left handleLine lines initialVars))
           end;
         v_pendingError :=
           v_pendingError (emitEvent (fold_left handleLine lines initialVars));
         v_currentEvent := str "message"; v_dataLines := [] |}.
Proof.
  unfold assemble. rewrite fold_left_app.
  change (fold_left handleLine ([] :: exitRecord n)
            (fold_left handleLine lines initialVars))
    with (fold_left handleLine (exitRecord n)
            (handleLine (fold_left handleLine lines initialVars) [])).
  rewrite (handleLine_blank _ [] eq_refl), exitRecord_sets_code.
  reflexivity.
Qed.

End ExitCodes.

(** X6: after any lines that emit no error event, a blank line and the
    record of an exit event with the decimal digits of an integer of at
    most 53 bits make assembly return that integer as the exit code, with
    the stdout and stderr of the lines before: the last exit event is the
    one that counts. A longer integer comes through as the double nearest
    to it (2^53 + 1 as 2^53), and from 2^1024 on, where that is an
    infinity, the event counts for nothing. *)
Theorem exit_code_comes_through (lines : list jsstring) (n : Z) :
  Forall (fun e => hasType "error" e = false) (emittedEvents initialVars lines) ->
  ((Z.abs n <= 2 ^ 53)%Z ->
   assemble (lines ++ [] :: exitRecord n)
   = Ok {| Islo.stdout := outputOf "stdout" (emittedEvents initialVars lines);
           Islo.stderr := outputOf "stderr" (emittedEvents initialVars lines);
           Islo.exitCode := n |})
  /\ match parseInt (decimal n) with
     | Some code =>
         assemble (lines ++ [] :: exitRecord n)
         = Ok {| Islo.stdout := outputOf "stdout" (emittedEvents initialVars lines);
                 Islo.stderr := outputOf "stderr" (emittedEvents initialVars lines);
                 Islo.exitCode := code |}
     | None => assemble (lines ++ [] :: exitRecord n) = assemble lines
     end
  /\ parseInt (decimal (2 ^ 53 + 1)) = Some (2 ^ 53)%Z
  /\ parseInt (decimal (10 ^ 400)) = None.
Proof.
  intros Hno.
  destruct (lines_fold_events lines initialVars) as (Ho & He & _ & Hp).
  cbn zeta in Ho, He, Hp.
  rewrite (errorOf_no_error _ _ Hno) in Hp.
  cbn [v_stdout v_stderr v_pendingError initialVars app] in Ho, He, Hp.
  assert (Hread : forall code, parseInt (decimal n) = Some code ->
            assemble (lines ++ [] :: exitRecord n)
            = Ok {| Islo.stdout := outputOf "stdout" (emittedEvents initialVars lines);
                    Islo.stderr := outputOf "stderr" (emittedEvents initialVars lines);
                    Islo.exitCode := code |}).
  { intros code Hcode. rewrite assemble_exitRecord, Hcode.
    unfold finish. cbn [v_stdout v_stderr v_exitCode v_pendingError].
    rewrite Hp, Ho, He. reflexivity. }
  split; [|split; [|split]].
  - intros Hn. apply Hread, parseInt_small; [|exact Hn].
    rewrite <- (app_nil_r (decimal n)). now apply mathInt_decimal.
  - destruct (parseInt (decimal n)) as [code|] eqn:Hcode; [now apply Hread|].
    rewrite assemble_exitRecord, Hcode. unfold assemble, finish.
    cbn [v_stdout v_stderr v_exitCode v_pendingError]. reflexivity.
  - vm_compute. reflexivity.
  - vm_compute. reflexivity.
Qed.

Lemma exit_code_comes_through_witness :
  let lines := [str "event: stdout"; str "data: building"; [];
                str "event: exit"; str "data: 1"] in
  Forall (fun e => hasType "error" e = false) (emittedEvents initialVars lines)
  /\ assemble (lines ++ [] :: exitRecord (-9))
     = Ok {| Islo.stdout := str "building"; Islo.stderr := [];
             Islo.exitCode := -9 |}.
Proof.
  intros lines.
  assert (H : Forall (fun e => hasType "error" e = false)
                (emittedEvents initialVars lines))
    by (vm_compute; repeat constructor).
  split; [exact H|].
  rewrite (proj1 (exit_code_comes_through lines (-9) H)) by (vm_compute; discriminate).
  vm_compute. reflexivity.
Defined.

(* ================================================================== *)
(** * Statistics, time-outs and truncation (src/run.ts) *)
(* ================================================================== *)

Section Statistics.

Lemma ascending_spec (a b : Q) :
  if positive (ascending a b) then b < a else a <= b.
Proof.
  unfold ascending. rewrite positive_fsub.
  destruct (Qle_bool (a - b) 0) eqn:H; cbn [negb].
  - apply Qle_bool_iff in H. lra.
  - assert (~ a - b <= 0) by (intros Hn; apply Qle_bool_iff in Hn; congruence).
    lra.
Qed.

(** The comparator of [computeStats] is consistent on any numbers, so
    that every engine sorts them as insertion does. *)
Lemma ascending_consistent (l : list Q) : consistent ascending l.
Proof.
  intros a b c _ _ _. unfold ascending.
  rewrite !positive_fsub, !negative_fsub, !isZero_fsub. cbn [isNaN].
  repeat split; try reflexivity; rewrite ?negb_true_iff; intros;
    repeat match goal with
           | H : Qeq_bool _ _ = true |- _ => apply Qeq_bool_iff in H
           | H : Qle_bool _ _ = false |- _ =>
               apply not_true_iff_false in H; rewrite Qle_bool_iff in H
           end;
    try (apply Qeq_bool_iff; lra);
    try (apply not_true_iff_false; rewrite Qle_bool_iff; lra).
Qed.

Lemma ascending_in_every_engine {engine : ArraySort} (l : list Q) :
  arraySort ascending l = sort ascending l.
Proof. apply arraySort_consistent, ascending_consistent. Qed.

Lemma insert_ascending (x : Q) (l : list Q) :
  Sorted Qle l -> Sorted Qle (insert ascending x l).
Proof.
  induction 1 as [|y l Hl IH Hhd]; cbn [insert].
  - repeat constructor.
  - pose proof (ascending_spec x y) as Hxy.
    destruct (positive (ascending x y)).
    + constructor; [exact IH|].
      destruct l as [|z l]; cbn [insert].
      * constructor. lra.
      * pose proof (ascending_spec x z) as Hxz.
        destruct (positive (ascending x z)); constructor;
          [now inversion Hhd|lra].
    + constructor; [now constructor|now constructor].
Qed.

Lemma sort_ascending (l : list Q) : StronglySorted Qle (sort ascending l).
Proof.
  apply Sorted_StronglySorted; [intros a b c; apply Qle_trans|].
  induction l as [|x l IH]; cbn [sort]; [constructor|].
  now apply insert_ascending.
Qed.

Lemma sorted_nth_le (l : list Q) (i j : nat) :
  StronglySorted Qle l -> (i <= j < List.length l)%nat ->
  nth i l 0 <= nth j l 0.
Proof.
  intros Hs. revert i j. induction Hs as [|x l Hl IH Hall]; intros i j Hij.
  - cbn in Hij. lia.
  - destruct i as [|i], j as [|j]; cbn [nth List.length] in *.
    + lra.
    + rewrite Forall_forall in Hall. apply Hall, nth_In. lia.
    + lia.
    + apply IH. lia.
Qed.

Lemma Forall2_Qeq_refl (l : list Q) : Forall2 Qeq l l.
Proof. induction l; constructor; [reflexivity|assumption]. Qed.

Lemma Forall2_Qeq_trans (a b c : list Q) :
  Forall2 Qeq a b -> Forall2 Qeq b c -> Forall2 Qeq a c.
Proof.
  intros H. revert c. induction H as [|x y a b Hxy _ IH]; intros c Hc.
  - inversion Hc. constructor.
  - inversion Hc as [|? z ? c' Hyz Hbc]; subst. constructor.
    + now rewrite Hxy.
    + now apply IH.
Qed.

Lemma insert_insert (x y : Q) (l : list Q) :
  Forall2 Qeq (insert ascending x (insert ascending y l))
              (insert ascending y (insert ascending x l)).
Proof.
  induction l as [|z l IH]; cbn [insert].
  - pose proof (ascending_spec x y). pose proof (ascending_spec y x).
    destruct (positive (ascending x y)), (positive (ascending y x));
      cbn [insert]; try lra; repeat constructor; try reflexivity; lra.
  - pose proof (ascending_spec x y) as Hxy.
    pose proof (ascending_spec y x) as Hyx.
    pose proof (ascending_spec x z) as Hxz.
    pose proof (ascending_spec y z) as Hyz.
    destruct (positive (ascending y z)) eqn:Eyz,
             (positive (ascending x z)) eqn:Exz; cbn [insert];
      rewrite ?Exz, ?Eyz.
    + constructor; [reflexivity|exact IH].
    + destruct (positive (ascending y x)); [|lra].
      cbn [insert]. rewrite ?Eyz. apply Forall2_Qeq_refl.
    + destruct (positive (ascending x y)); [|lra].
      cbn [insert]. rewrite ?Exz. apply Forall2_Qeq_refl.
    + destruct (positive (ascending x y)), (positive (ascending y x));
        cbn [insert]; rewrite ?Exz, ?Eyz; try lra;
        repeat (constructor; try reflexivity; try lra);
        apply Forall2_Qeq_refl.
Qed.

Lemma insert_Forall2 (x : Q) (a b : list Q) :
  Forall2 Qeq a b ->
  Forall2 Qeq (insert ascending x a) (insert ascending x b).
Proof.
  induction 1 as [|y z a b Hyz Hab IH]; cbn [insert].
  - repeat constructor.
  - pose proof (ascending_spec x y). pose proof (ascending_spec x z).
    destruct (positive (ascending x y)), (positive (ascending x z));
      try lra.
    + now constructor.
    + constructor; [reflexivity|now constructor].
Qed.

Lemma sort_permuted (a b : list Q) :
  Permutation a b -> Forall2 Qeq (sort ascending a) (sort ascending b).
Proof.
  induction 1 as [|x a b _ IH|x y a|a b c _ IH1 _ IH2]; cbn [sort].
  - constructor.
  - now apply insert_Forall2.
  - apply insert_insert.
  - now apply (Forall2_Qeq_trans _ (sort ascending b)).
Qed.

Lemma Forall2_nth (a b : list Q) (i : nat) :
  Forall2 Qeq a b -> nth i a 0 == nth i b 0.
Proof.
  intros H. revert i. induction H as [|x y a b Hxy _ IH]; intros [|i]; cbn [nth];
    try reflexivity; [exact Hxy|apply IH].
Qed.

(** Rounding commutes with a power of two as a factor. *)
Lemma double_scale (x : Q) (k : Z) : double (x * pow2 k) == double x * pow2 k.
Proof.
  assert (Hpos : forall x, 0 < x -> doublePos (x * pow2 k) == doublePos x * pow2 k).
  { clear x. intros x Hx. pose proof (pow2_pos k) as Hk.
    destruct (ilog2_spec x Hx) as [Hlo Hhi].
    assert (Hlog : ilog2 (x * pow2 k) = (ilog2 x + k)%Z).
    { apply ilog2_unique.
      - rewrite pow2_plus. apply Qmult_le_compat_r; lra.
      - replace (ilog2 x + k + 1)%Z with ((ilog2 x + 1) + k)%Z by lia.
        rewrite pow2_plus. apply Qmult_lt_r; assumption. }
    unfold doublePos. rewrite Hlog.
    replace (ilog2 x + k - 52)%Z with ((ilog2 x - 52) + k)%Z by lia.
    pose proof (pow2_pos (ilog2 x - 52)) as He.
    assert (Hy : x * pow2 k / pow2 (ilog2 x - 52 + k) == x / pow2 (ilog2 x - 52)).
    { rewrite pow2_plus. field. lra. }
    rewrite (nearestEven_comp _ _ Hy), pow2_plus. ring. }
  pose proof (pow2_pos k) as Hk.
  destruct (Qcompare_spec x 0) as [Hx|Hx|Hx].
  - rewrite Hx. setoid_replace (0 * pow2 k) with 0 by ring. reflexivity.
  - assert (Hx' : x * pow2 k < 0) by nra.
    rewrite (double_neg_eq _ Hx'), (double_neg_eq _ Hx).
    rewrite (doublePos_comp (- (x * pow2 k)) (- x * pow2 k)) by (nra || ring).
    rewrite Hpos by lra. ring.
  - assert (Hx' : 0 < x * pow2 k) by nra.
    rewrite (double_pos_eq _ Hx'), (double_pos_eq _ Hx). now apply Hpos.
Qed.

(** The mean of two doubles, as the code takes it, lies between them. *)
Lemma mean_between (a b : Q) :
  isDouble a -> isDouble b -> a <= b ->
  a <= fdiv (fadd a b) 2 /\ fdiv (fadd a b) 2 <= b.
Proof.
  unfold isDouble, fdiv, fadd. intros Ha Hb Hab.
  assert (Htwice : forall x, double x == x -> double (2 * x) == 2 * x).
  { intros x Hx. setoid_replace (2 * x) with (x * pow2 1)
      by (change (pow2 1) with 2; ring).
    rewrite double_scale, Hx. reflexivity. }
  assert (Hhalf : double (double (a + b) / 2) == double (a + b) / 2).
  { setoid_replace (double (a + b) / 2) with (double (a + b) * pow2 (-1))
      by (change (pow2 (-1)) with (1 # 2); field).
    rewrite double_scale, double_idem. reflexivity. }
  rewrite Hhalf.
  assert (H1 : double (2 * a) <= double (a + b)) by (apply double_mono; lra).
  assert (H2 : double (a + b) <= double (2 * b)) by (apply double_mono; lra).
  rewrite (Htwice a Ha) in H1. rewrite (Htwice b Hb) in H2.
  split; [apply Qle_shift_div_l|apply Qle_shift_div_r]; lra.
Qed.

Lemma stats_min_max (values : list Q) :
  values <> [] ->
  let s := computeStats values in
  (forall v, In v values -> min s <= v /\ v <= max s)
  /\ In (min s) values /\ In (max s) values.
Proof.
  intros Hne. destruct values as [|v0 vs]; [congruence|]. clear Hne.
  cbn zeta. unfold computeStats. cbv beta iota. cbn [min max].
  remember (v0 :: vs) as values eqn:Hvalues.
  remember (sort ascending values) as sorted eqn:Hs.
  assert (Hperm : Permutation values sorted)
    by (subst sorted; apply sort_permutation).
  assert (Hsorted : StronglySorted Qle sorted)
    by (subst sorted; apply sort_ascending).
  assert (Hlen : List.length sorted = S (List.length vs))
    by (rewrite <- (Permutation_length Hperm); subst values; reflexivity).
  split; [|split].
  - intros v Hin. apply (Permutation_in _ Hperm) in Hin.
    destruct (In_nth _ _ 0 Hin) as (k & Hk & <-).
    split; apply sorted_nth_le; try assumption; lia.
  - apply (Permutation_in _ (Permutation_sym Hperm)), nth_In. lia.
  - apply (Permutation_in _ (Permutation_sym Hperm)), nth_In. lia.
Qed.

End Statistics.

(** X7: for samples that are not empty, [min] and [max] are samples and
    bracket every sample, and for samples that are doubles [median] lies
    between them. The [avg] need not: it is a sum of doubles divided, and
    for three samples 0.1 it is above [max]. *)
Theorem stats_bracket_the_samples (values : list Q) :
  values <> [] ->
  let s := computeStats values in
  (forall v, In v values -> min s <= v /\ v <= max s)
  /\ In (min s) values
  /\ In (max s) values
  /\ (Forall isDouble values -> min s <= median s /\ median s <= max s)
  /\ (let tenth := double (1 # 10) in
      max (computeStats [tenth; tenth; tenth])
      < avg (computeStats [tenth; tenth; tenth])).
Proof.
  intros Hne.
  destruct (stats_min_max values Hne) as (Hall & Hmin & Hmax).
  cbn zeta in *. split; [exact Hall|]. split; [exact Hmin|].
  split; [exact Hmax|]. split; [|vm_compute; reflexivity].
  intros Hdouble.
  destruct values as [|v0 vs]; [congruence|]. clear Hne Hall Hmin Hmax.
  unfold computeStats. cbv beta iota. cbn [min max median].
  remember (v0 :: vs) as values eqn:Hvalues.
  remember (sort ascending values) as sorted eqn:Hs.
  assert (Hperm : Permutation values sorted)
    by (subst sorted; apply sort_permutation).
  assert (Hsorted : StronglySorted Qle sorted)
    by (subst sorted; apply sort_ascending).
  assert (Hlen : List.length sorted = S (List.length vs))
    by (rewrite <- (Permutation_length Hperm); subst values; reflexivity).
  assert (Hnth : forall k, (k < List.length sorted)%nat ->
             nth 0 sorted 0 <= nth k sorted 0
             /\ nth k sorted 0 <= nth (List.length sorted - 1) sorted 0
             /\ isDouble (nth k sorted 0)).
  { intros k Hk. split; [|split]; try (apply sorted_nth_le; try assumption; lia).
    rewrite Forall_forall in Hdouble.
    apply Hdouble, (Permutation_in _ (Permutation_sym Hperm)), nth_In, Hk. }
  assert (Hmid : (List.length sorted / 2 < List.length sorted)%nat)
    by (apply Nat.div_lt; lia).
  destruct (Hnth _ Hmid) as (H1 & H2 & Hd).
  assert (Hmid' : (List.length sorted / 2 - 1 < List.length sorted)%nat) by lia.
  destruct (Hnth _ Hmid') as (H3 & H4 & Hd').
  destruct (List.length sorted mod 2 =? 0)%nat; [|split; assumption].
  assert (Hle : nth (List.length sorted / 2 - 1) sorted 0
                <= nth (List.length sorted / 2) sorted 0)
    by (apply sorted_nth_le; [assumption|lia]).
  destruct (mean_between _ _ Hd' Hd Hle) as [Hlo Hhi]. split; lra.
Qed.

Lemma stats_bracket_the_samples_witness :
  [100; 400; 300; 200] <> []
  /\ Forall isDouble [100; 400; 300; 200]
  /\ min (computeStats [100; 400; 300; 200]) == 100
  /\ max (computeStats [100; 400; 300; 200]) == 400
  /\ median (computeStats [100; 400; 300; 200]) == 250
  /\ min (computeStats [100; 400; 300; 200])
     <= median (computeStats [100; 400; 300; 200]).
Proof.
  assert (Hne : [100; 400; 300; 200] <> ([] : list Q)) by discriminate.
  assert (Hd : Forall isDouble [100; 400; 300; 200])
    by (repeat constructor; vm_compute; reflexivity).
  split; [exact Hne|]. split; [exact Hd|].
  repeat (split; [vm_compute; reflexivity|]).
  exact (proj1 (proj1 (proj2 (proj2 (proj2
           (stats_bracket_the_samples [100; 400; 300; 200] Hne)))) Hd)).
Defined.

(** X8: [min], [max] and [median] do not depend on the order of the
    samples: for two arrangements of the same samples they are the same
    numbers. The [avg] does depend on it: the samples 0.1, 0.2 and 0.3
    have another [avg] than 0.3, 0.2 and 0.1. *)
Theorem stats_ignore_the_order (a b : list Q) :
  Permutation a b ->
  sameRanks (computeStats a) (computeStats b)
  /\ (let x := double (1 # 10) in
      let y := double (2 # 10) in
      let z := double (3 # 10) in
      avg (computeStats [z; y; x]) < avg (computeStats [x; y; z])).
Proof.
  intros Hperm. split; [|vm_compute; reflexivity].
  pose proof (sort_permuted a b Hperm) as Hsort.
  pose proof (Permutation_length Hperm) as Hlen.
  assert (Hslen : List.length (sort ascending a) = List.length (sort ascending b)).
  { rewrite <- (Permutation_length (sort_permutation ascending a)).
    rewrite <- (Permutation_length (sort_permutation ascending b)). exact Hlen. }
  destruct a as [|x a], b as [|y b]; try discriminate.
  - repeat split; reflexivity.
  - unfold sameRanks, computeStats. cbn [min max median p95 p99].
    rewrite <- Hslen.
    repeat split.
    + now apply Forall2_nth.
    + now apply Forall2_nth.
    + destruct (List.length (sort ascending (x :: a)) mod 2 =? 0)%nat.
      * rewrite (Forall2_nth _ _ (List.length (sort ascending (x :: a)) / 2 - 1) Hsort).
        rewrite (Forall2_nth _ _ (List.length (sort ascending (x :: a)) / 2) Hsort).
        reflexivity.
      * now apply Forall2_nth.
Qed.

Lemma stats_ignore_the_order_witness :
  Permutation [300; 100; 200] [100; 200; 300]
  /\ sameRanks (computeStats [300; 100; 200]) (computeStats [100; 200; 300]).
Proof.
  assert (H : Permutation [300; 100; 200] [100; 200; 300]).
  { apply (perm_trans (l' := [100; 300; 200])); [apply perm_swap|].
    apply perm_skip, perm_swap. }
  split; [exact H|]. exact (proj1 (stats_ignore_the_order _ _ H)).
Defined.

Lemma msToSeconds_whole (ms : Q) :
  exists k : Z,
    msToSeconds ms = inject_Z k /\ (1 <= k)%Z /\ ms <= msToSeconds ms * 1000.
Proof.
  unfold msToSeconds.
  pose proof (Qle_ceiling (ms / 1000)) as Hle.
  assert (Hms : ms == ms / 1000 * 1000) by (field).
  destruct (Qle_bool 1 (inject_Z (Qceiling (ms / 1000)))) eqn:H1.
  - apply Qle_bool_iff in H1. exists (Qceiling (ms / 1000)).
    split; [reflexivity|]. split; [rewrite Zle_Qle; exact H1|lra].
  - assert (Hn : ~ 1 <= inject_Z (Qceiling (ms / 1000)))
      by (intros Hn; apply Qle_bool_iff in Hn; congruence).
    exists 1%Z. split; [reflexivity|]. split; [lia|lra].
Qed.




(** X11: for a limit of at least 3, [truncate] gives at most that many
    characters, leaves a string that fits as it is, cuts a longer one to
    exactly the limit, its first characters and three dots, and does
    nothing to a string it has cut already. *)
Theorem truncate_cuts_once (value : jsstring) (maxLength : nat) :
  (3 <= maxLength)%nat ->
  (List.length (truncate value maxLength) <= maxLength)%nat
  /\ ((List.length value <= maxLength)%nat -> truncate value maxLength = value)
  /\ ((maxLength < List.length value)%nat ->
      truncate value maxLength = firstn (maxLength - 3) value ++ str "..."
      /\ List.length (truncate value maxLength) = maxLength)
  /\ truncate (truncate value maxLength) maxLength = truncate value maxLength.
Proof.
  intros Hmax.
  pose proof (truncate_length value maxLength Hmax) as Hlen.
  split; [exact Hlen|]. split; [|split].
  - intros Hle. unfold truncate. apply Nat.leb_le in Hle. now rewrite Hle.
  - intros Hgt. unfold truncate. pose proof Hgt as Hgt'.
    apply Nat.leb_gt in Hgt'. rewrite Hgt'. split; [reflexivity|].
    unfold sliceTo. rewrite length_app, length_firstn. cbn. lia.
  - unfold truncate at 1. apply Nat.leb_le in Hlen. now rewrite Hlen.
Qed.

Lemma truncate_cuts_once_witness :
  (3 <= 8)%nat /\ truncate (str "0123456789") 8 = str "01234...".
Proof.
  split; [lia|].
  destruct (truncate_cuts_once (str "0123456789") 8) as (_ & _ & Hcut & _);
    [lia|].
  destruct Hcut as [Hcut _]; [cbn; lia|]. rewrite Hcut. reflexivity.
Defined.

(* ================================================================== *)
(** * Further properties of the scores (src/scoring.ts) *)
(* ================================================================== *)

Section Scores.

Lemma double_1 : double 1 == 1.
Proof. vm_compute. reflexivity. Qed.

Lemma double_100 : double 100 == 100.
Proof. vm_compute. reflexivity. Qed.

(** The number [scoreMetric] computes before it is clamped. *)
Lemma rawScore_bounds (v : Q) :
  let x := fmul 100 (fsub 1 (fdiv v 10000)) in
  (0 <= v -> x <= 100) /\ (10000 <= v -> x <= 0).
Proof.
  cbn zeta. unfold fmul, fsub, fdiv. split; intros Hv.
  - assert (H1 : 0 <= double (v / 10000)).
    { apply double_nonneg. apply Qle_shift_div_l; lra. }
    assert (H2 : double (1 - double (v / 10000)) <= 1).
    { rewrite <- double_1 at 2. apply double_mono. lra. }
    rewrite <- double_100 at 2. apply double_mono. lra.
  - assert (H1 : 1 <= double (v / 10000)).
    { rewrite <- double_1 at 1. apply double_mono. apply Qle_shift_div_l; lra. }
    assert (H2 : double (1 - double (v / 10000)) <= 0).
    { change 0 with (double 0). apply double_mono. lra. }
    change 0 with (double 0). apply double_mono. lra.
Qed.

Lemma rawScore_decreasing (v v' : Q) :
  v <= v' ->
  fmul 100 (fsub 1 (fdiv v' 10000)) <= fmul 100 (fsub 1 (fdiv v 10000)).
Proof.
  intros Hle. unfold fmul, fsub, fdiv.
  assert (H1 : double (v / 10000) <= double (v' / 10000)).
  { apply double_mono. apply Qle_shift_div_l; [reflexivity|].
    setoid_replace (v / 10000 * 10000) with v by field. exact Hle. }
  assert (H2 : double (1 - double (v' / 10000))
               <= double (1 - double (v / 10000)))
    by (apply double_mono; lra).
  apply double_mono. lra.
Qed.

Lemma scoreMetric_range (v : Q) :
  exists s,
    scoreMetric (Num v) = Num s
    /\ 0 <= s
    /\ (0 <= v -> s <= 100)
    /\ (10000 <= v -> s == 0).
Proof.
  rewrite scoreMetric_value. cbv zeta.
  destruct (rawScore_bounds v) as [H100 Hceil]. cbn zeta in H100, Hceil.
  eexists. split; [reflexivity|].
  destruct (Qle_bool 0 (fmul 100 (fsub 1 (fdiv v 10000)))) eqn:H.
  - apply Qle_bool_iff in H. split; [exact H|]. split; [exact H100|].
    intros Hv. specialize (Hceil Hv). lra.
  - split; [lra|]. split; intros; lra.
Qed.

Lemma successRate_quotient (result : BenchmarkResult) :
  skipped result = false -> iterations result <> [] ->
  let ok := filter (fun i => negb (truthy (error i))) (iterations result) in
  let q := inject_Z (Z.of_nat (List.length ok))
           / inject_Z (Z.of_nat (List.length (iterations result))) in
  computeSuccessRate result = double q
  /\ 0 <= q /\ q <= 1
  /\ (q == 0 <-> ok = [])
  /\ (List.length ok = List.length (iterations result) -> q == 1).
Proof.
  intros Hs Hne. cbn zeta. unfold computeSuccessRate. rewrite Hs. cbn [orb].
  destruct (iterations result) as [|i l] eqn:Hi; [congruence|].
  rewrite <- Hi in *. clear Hne.
  assert (Hlen : (List.length (iterations result) =? 0)%nat = false)
    by (rewrite Hi; reflexivity).
  rewrite Hlen. split; [reflexivity|].
  pose proof (filter_length_le (fun i => negb (truthy (error i)))
                (iterations result)) as Hle.
  set (ok := filter (fun i => negb (truthy (error i))) (iterations result)) in *.
  assert (Hpos : 0 < inject_Z (Z.of_nat (List.length (iterations result)))).
  { change 0 with (inject_Z 0). rewrite <- Zlt_Qlt. rewrite Hi. cbn [List.length].
    lia. }
  assert (Hok : 0 <= inject_Z (Z.of_nat (List.length ok)))
    by (change 0 with (inject_Z 0); rewrite <- Zle_Qle; lia).
  assert (Hok' : inject_Z (Z.of_nat (List.length ok))
                 <= inject_Z (Z.of_nat (List.length (iterations result))))
    by (rewrite <- Zle_Qle; lia).
  split; [apply Qle_shift_div_l; [exact Hpos|lra]|].
  split; [apply Qle_shift_div_r; [exact Hpos|lra]|].
  split; [split|].
  - intros Hzero. destruct ok as [|j ok']; [reflexivity|]. exfalso.
    assert (Hnum : 0 < inject_Z (Z.of_nat (List.length (j :: ok')))).
    { change 0 with (inject_Z 0). rewrite <- Zlt_Qlt. cbn [List.length]. lia. }
    assert (Hdiv : 0 < inject_Z (Z.of_nat (List.length (j :: ok')))
                    / inject_Z (Z.of_nat (List.length (iterations result)))).
    { apply Qlt_shift_div_l; [exact Hpos|]. lra. }
    lra.
  - intros ->. cbn [List.length Z.of_nat]. unfold Qdiv.
    change (inject_Z 0) with 0. ring.
  - intros ->. field. lra.
Qed.

Lemma successRate_range (result : BenchmarkResult) :
  0 <= computeSuccessRate result /\ computeSuccessRate result <= 1.
Proof.
  destruct (skipped result) eqn:Hs;
    [unfold computeSuccessRate; rewrite Hs; split; discriminate|].
  destruct (iterations result) as [|i l] eqn:Hi;
    [unfold computeSuccessRate; rewrite Hs, Hi; split; discriminate|].
  destruct (successRate_quotient result Hs) as (-> & H0 & H1 & _);
    [rewrite Hi; discriminate|].
  split; [now apply double_nonneg|].
  rewrite <- double_1. now apply double_mono.
Qed.

Lemma none_succeeded (results : list TimingResult) :
  filter (fun r => negb (truthy (error r))) results = []
  <-> Forall (fun i => truthy (error i) = true) results.
Proof.
  induction results as [|i l IH]; cbn [filter].
  - split; constructor.
  - destruct (truthy (error i)) eqn:Hi; cbn [negb].
    + rewrite IH. split; [now constructor|now inversion 1].
    + split; [discriminate|inversion 1; congruence].
Qed.

Lemma roundQ_range (x : Q) (n : Z) :
  0 <= x -> x < inject_Z n + (1 # 2) -> 0 <= roundQ x /\ roundQ x <= inject_Z n.
Proof.
  intros H0 Hn. unfold roundQ. split.
  - change 0 with (inject_Z 0). rewrite <- Zle_Qle.
    change 0%Z with (Qfloor 0). apply Qfloor_resp_le. lra.
  - rewrite <- Zle_Qle.
    assert (Hlt : (Qfloor (x + (1 # 2)) < n + 1)%Z); [|lia].
    rewrite Zlt_Qlt. rewrite inject_Z_plus. change (inject_Z 1) with 1.
    pose proof (Qfloor_le (x + (1 # 2))). lra.
Qed.

(** A sum of two numbers of at most 200 in all, as the code takes it. *)
Lemma fadd_bounds (a b : Q) :
  0 <= a -> 0 <= b -> a + b <= 200 ->
  0 <= fadd a b /\ fadd a b <= a + b + 200 * (1 # 9007199254740992).
Proof.
  intros Ha Hb Hab. unfold fadd. split; [apply double_nonneg; lra|].
  assert (Habs : Qabs (a + b) <= 200) by (apply Qabs_Qle_condition; split; lra).
  destruct (double_within (a + b) 200 Habs) as [_ H].
  change (1 # 2 ^ 53) with (1 # 9007199254740992) in H. lra.
Qed.

(** A weight times a score, as the code takes it. *)
Lemma fmul_bounds (w s : Q) :
  0 <= w -> 0 <= s -> s <= 100 ->
  0 <= fmul w s
  /\ fmul w s <= w * 100 * (1 + (1 # 9007199254740992)).
Proof.
  intros Hw Hs Hs'. unfold fmul.
  assert (H0 : 0 <= w * s) by (apply Qmult_le_0_compat; assumption).
  assert (H1 : w * s <= w * 100).
  { apply Qmult_le_compat_nonneg; split; try assumption; lra. }
  split; [now apply double_nonneg|].
  assert (Habs : Qabs (w * s) <= w * 100) by (apply Qabs_Qle_condition; split; lra).
  destruct (double_within (w * s) (w * 100) Habs) as [_ H].
  change (1 # 2 ^ 53) with (1 # 9007199254740992) in H. lra.
Qed.

End Scores.

(** X12: the score of a metric is a number from 0 up, at most 100 for a
    time that is not negative and 0 from the ceiling of 10000 ms on, and
    a longer time never scores higher. *)
Theorem metric_score_is_bounded_and_decreasing (v : Q) :
  exists s,
    scoreMetric (Num v) = Num s
    /\ 0 <= s
    /\ (0 <= v -> s <= 100)
    /\ (10000 <= v -> s == 0)
    /\ (forall v' s', v <= v' -> scoreMetric (Num v') = Num s' -> s' <= s).
Proof.
  destruct (scoreMetric_range v) as (s & Hs & H0 & H100 & Hceil).
  exists s. split; [exact Hs|]. split; [exact H0|]. split; [exact H100|].
  split; [exact Hceil|].
  intros v' s' Hle Hs'.
  rewrite scoreMetric_value in Hs, Hs'. cbv zeta in Hs, Hs'.
  injection Hs as <-. injection Hs' as <-.
  pose proof (rawScore_decreasing v v' Hle) as Hdec.
  destruct (Qle_bool 0 (fmul 100 (fsub 1 (fdiv v' 10000)))) eqn:E';
    destruct (Qle_bool 0 (fmul 100 (fsub 1 (fdiv v 10000)))) eqn:E;
    try apply Qle_bool_iff in E; try apply Qle_bool_iff in E';
    try (apply not_true_iff_false in E; rewrite Qle_bool_iff in E);
    try (apply not_true_iff_false in E'; rewrite Qle_bool_iff in E');
    lra.
Qed.

Lemma metric_score_is_bounded_and_decreasing_witness :
  0 <= 2000 /\ 2000 <= 5000
  /\ scoreMetric (Num 2000) =n= Num 80 /\ scoreMetric (Num 5000) =n= Num 50
  /\ exists s s', scoreMetric (Num 2000) = Num s
                  /\ scoreMetric (Num 5000) = Num s' /\ s' <= s /\ s <= 100.
Proof.
  assert (H0 : 0 <= 2000) by discriminate.
  assert (Hle : 2000 <= 5000) by discriminate.
  split; [exact H0|]. split; [exact Hle|].
  split; [vm_compute; reflexivity|]. split; [vm_compute; reflexivity|].
  destruct (metric_score_is_bounded_and_decreasing 2000)
    as (s & Hs & _ & H100 & _ & Hdec).
  destruct (scoreMetric_range 5000) as (s' & Hs' & _).
  exists s, s'. split; [exact Hs|]. split; [exact Hs'|].
  split; [exact (Hdec 5000 s' Hle Hs')|exact (H100 H0)].
Defined.

(** The success rate is 0 for a skipped result and when no iteration
    succeeded, and only then. *)
Lemma successRate_zero (result : BenchmarkResult) :
  computeSuccessRate result == 0
  <-> skipped result = true
      \/ Forall (fun i => truthy (error i) = true) (iterations result).
Proof.
  destruct (skipped result) eqn:Hs.
  - unfold computeSuccessRate. rewrite Hs. split; [now left|reflexivity].
  - destruct (iterations result) as [|i l] eqn:Hi.
    + unfold computeSuccessRate. rewrite Hs, Hi.
      split; [right; constructor|reflexivity].
    + destruct (successRate_quotient result Hs) as (-> & _ & _ & Hzero & _);
        [rewrite Hi; discriminate|].
      rewrite double_zero_iff, Hzero, none_succeeded, Hi.
      split; [now right|]. intros [H|H]; [discriminate|exact H].
Qed.

(** X13: the success rate lies between 0 and 1; it is 0 exactly when
    the result is skipped or no iteration succeeded. *)
Theorem success_rate_is_a_fraction (result : BenchmarkResult) :
  0 <= computeSuccessRate result
  /\ computeSuccessRate result <= 1
  /\ (computeSuccessRate result == 0
      <-> skipped result = true
          \/ Forall (fun i => truthy (error i) = true) (iterations result)).
Proof.
  destruct (successRate_range result) as [H0 H1].
  split; [exact H0|]. split; [exact H1|]. apply successRate_zero.
Qed.

Lemma success_rate_is_a_fraction_witness :
  skipped missingKey = true /\ computeSuccessRate missingKey == 0.
Proof.
  split; [reflexivity|].
  destruct (success_rate_is_a_fraction missingKey) as (_ & _ & Hzero).
  apply Hzero. left. reflexivity.
Defined.

(** X14: for a result that is not skipped, with stats that are not
    negative and carry [p95] and [p99], and weights that are not negative
    and sum to 1, or to within 1e-9 of it as doubles may, the composite
    score is a number between 0 and 100. *)
Theorem composite_score_is_in_range
    (weights : ScoringWeights) (result : BenchmarkResult) :
  weightsNormal weights ->
  statsInRange (sum_ttiMs (summary result)) ->
  exists s,
    compositeScore (scoreResult weights result) = Some (Num s)
    /\ 0 <= s /\ s <= 100.
Proof.
  intros (Wm & W5 & W9 & Wi & Wa & Wsum) (Smin & Smax & Smed & S95 & S99).
  destruct S95 as (v95 & H95 & P95). destruct S99 as (v99 & H99 & P99).
  unfold scoreResult.
  destruct (skipped result || Qeq_bool (computeSuccessRate result) 0);
    [exists 0; split; [reflexivity|split; lra]|].
  destruct (timing_score_weighted_sum _ weights v95 v99 H95 H99)
    as (m & s95 & s99 & smin & smax & Hm & H5 & H9 & Hi & Ha & ->).
  assert (Hscore : forall v s, 0 <= v -> scoreMetric (Num v) = Num s ->
            0 <= s /\ s <= 100).
  { intros v s Hv Hs. destruct (scoreMetric_range v) as (s' & Hs' & H0 & H100 & _).
    rewrite Hs in Hs'. injection Hs' as <-. split; [exact H0|now apply H100]. }
  destruct (Hscore _ _ Smed Hm) as [Em0 Em1].
  destruct (Hscore _ _ P95 H5) as [E50 E51].
  destruct (Hscore _ _ P99 H9) as [E90 E91].
  destruct (Hscore _ _ Smin Hi) as [Ei0 Ei1].
  destruct (Hscore _ _ Smax Ha) as [Ea0 Ea1].
  destruct (fmul_bounds _ _ Wm Em0 Em1) as [Pm0 Pm1].
  destruct (fmul_bounds _ _ W5 E50 E51) as [P50 P51].
  destruct (fmul_bounds _ _ W9 E90 E91) as [P90 P91].
  destruct (fmul_bounds _ _ Wi Ei0 Ei1) as [Pi0 Pi1].
  destruct (fmul_bounds _ _ Wa Ea0 Ea1) as [Pa0 Pa1].
  apply Qabs_Qle_condition in Wsum. destruct Wsum as [_ Wsum].
  destruct (fadd_bounds _ _ Pm0 P50) as [A20 A21]; [lra|].
  destruct (fadd_bounds _ _ A20 P90) as [A30 A31]; [lra|].
  destruct (fadd_bounds _ _ A30 Pi0) as [A40 A41]; [lra|].
  destruct (fadd_bounds _ _ A40 Pa0) as [A50 A51]; [lra|].
  destruct (successRate_range result) as [R0 R1].
  cbn [mul lift2 JS.round div compositeScore withScores].
  revert A50 A51 R0 R1.
  generalize (computeSuccessRate result).
  generalize (fadd (fadd (fadd (fadd (fmul (w_median weights) m)
                                     (fmul (w_p95 weights) s95))
                               (fmul (w_p99 weights) s99))
                         (fmul (w_min weights) smin))
                   (fmul (w_max weights) smax)).
  intros t rate A50 A51 R0 R1. unfold fmul, fdiv.
  assert (Ht : t <= 100 + (1 # 1000000)) by lra.
  assert (Hp0 : 0 <= t * rate) by (apply Qmult_le_0_compat; assumption).
  assert (Hp1 : t * rate <= t * 1).
  { apply Qmult_le_compat_nonneg; split; try assumption; lra. }
  assert (Habs : Qabs (t * rate) <= 200) by (apply Qabs_Qle_condition; split; lra).
  destruct (double_within (t * rate) 200 Habs) as [_ Hprod].
  assert (Hprod0 : 0 <= double (t * rate)) by now apply double_nonneg.
  change (1 # 2 ^ 53) with (1 # 9007199254740992) in Hprod.
  assert (Habs' : Qabs (double (t * rate) * 100) <= 20000)
    by (apply Qabs_Qle_condition; split; lra).
  destruct (double_within (double (t * rate) * 100) 20000 Habs') as [_ Hy].
  assert (Hy0 : 0 <= double (double (t * rate) * 100))
    by (apply double_nonneg; lra).
  change (1 # 2 ^ 53) with (1 # 9007199254740992) in Hy.
  destruct (roundQ_range (double (double (t * rate) * 100)) 10000) as [Hr0 Hr1];
    [exact Hy0|change (inject_Z 10000) with 10000; lra|].
  change (inject_Z 10000) with 10000 in Hr1.
  eexists. split; [reflexivity|]. split.
  - apply double_nonneg. apply Qle_shift_div_l; lra.
  - apply Qle_trans with (double 100); [|rewrite double_100; apply Qle_refl].
    apply double_mono. apply Qle_shift_div_r; lra.
Qed.

Lemma composite_score_is_in_range_witness :
  weightsNormal DEFAULT_WEIGHTS
  /\ statsInRange (sum_ttiMs (summary halfSuccessful))
  /\ exists s, compositeScore (scoreResult DEFAULT_WEIGHTS halfSuccessful)
               = Some (Num s) /\ s <= 100.
Proof.
  assert (Hw : weightsNormal DEFAULT_WEIGHTS).
  { unfold weightsNormal. repeat (split; [vm_compute; discriminate|]).
    vm_compute. discriminate. }
  assert (Hs : statsInRange (sum_ttiMs (summary halfSuccessful))).
  { unfold statsInRange. cbn. repeat (split; [discriminate|]).
    split; eexists; (split; [reflexivity|discriminate]). }
  split; [exact Hw|]. split; [exact Hs|].
  destruct (composite_score_is_in_range DEFAULT_WEIGHTS halfSuccessful Hw Hs)
    as (s & Hscore & _ & H100).
  exists s. split; assumption.
Defined.

(** X15: scoring only fills in the success rate and the composite
    score, and scoring again, with the same or other weights, gives what
    scoring once with the last weights gives. *)
Theorem scoring_again_overrides
    (results : list BenchmarkResult) (first last : ScoringWeights) :
  computeCompositeScores (computeCompositeScores results first) last
  = computeCompositeScores results last
  /\ map provider (computeCompositeScores results last) = map provider results
  /\ map iterations (computeCompositeScores results last) = map iterations results
  /\ map summary (computeCompositeScores results last) = map summary results
  /\ map skipped (computeCompositeScores results last) = map skipped results.
Proof.
  assert (Hkeep : forall w r,
             provider (scoreResult w r) = provider r
             /\ iterations (scoreResult w r) = iterations r
             /\ summary (scoreResult w r) = summary r
             /\ skipped (scoreResult w r) = skipped r).
  { intros w r. unfold scoreResult.
    destruct (skipped r || Qeq_bool (computeSuccessRate r) 0);
      repeat split; reflexivity. }
  assert (Hagain : forall r, scoreResult last (scoreResult first r)
                             = scoreResult last r).
  { intros r. unfold scoreResult at 2.
    destruct (skipped r || Qeq_bool (computeSuccessRate r) 0); reflexivity. }
  unfold computeCompositeScores. rewrite !map_map.
  repeat split; apply map_ext; intros r; try apply Hagain; apply Hkeep.
Qed.

Section Resorting.

Lemma compareResults_one_way (a b : BenchmarkResult) :
  (skipped a = false -> isNaN (scoreOrZero a) = false) ->
  (skipped b = false -> isNaN (scoreOrZero b) = false) ->
  positive (compareResults a b) = true ->
  positive (compareResults b a) = false.
Proof.
  unfold compareResults. intros Ha Hb.
  destruct (skipped a), (skipped b); cbn [andb negb positive]; try discriminate;
    try reflexivity.
  specialize (Ha eq_refl). specialize (Hb eq_refl).
  destruct (scoreOrZero a) as [x|], (scoreOrZero b) as [y|]; try discriminate.
  cbn [sub lift2]. rewrite !positive_fsub.
  destruct (Qle_bool (y - x) 0) eqn:H1; [discriminate|]. intros _.
  assert (~ y - x <= 0) by (intros Hn; apply Qle_bool_iff in Hn; congruence).
  assert (H2 : Qle_bool (x - y) 0 = true) by (apply Qle_bool_iff; lra).
  now rewrite H2.
Qed.

Lemma insert_in_order (x : BenchmarkResult) (l : list BenchmarkResult) :
  scoresAreNumbers (x :: l) ->
  Sorted (fun a b => positive (compareResults a b) = false) l ->
  Sorted (fun a b => positive (compareResults a b) = false)
         (insert compareResults x l).
Proof.
  intros Hnum Hsorted.
  induction Hsorted as [|y l Hl IH Hhd]; cbn [insert].
  - repeat constructor.
  - destruct (positive (compareResults x y)) eqn:Hxy.
    + assert (Hyx : positive (compareResults y x) = false).
      { apply (compareResults_one_way x y); [| |exact Hxy].
        - apply Hnum. now left.
        - apply Hnum. right. now left. }
      constructor.
      * apply IH. intros r [<-|Hin]; apply Hnum; [now left|right; now right].
      * destruct l as [|z l]; cbn [insert].
        -- now constructor.
        -- destruct (positive (compareResults x z)); constructor;
             [now inversion Hhd|exact Hyx].
    + constructor; [now constructor|now constructor].
Qed.

Lemma sort_in_order (l : list BenchmarkResult) :
  scoresAreNumbers l ->
  Sorted (fun a b => positive (compareResults a b) = false)
         (sort compareResults l).
Proof.
  induction l as [|x l IH]; intros Hnum; cbn [sort]; [constructor|].
  apply insert_in_order.
  - intros r [<-|Hin]; [apply Hnum; now left|].
    apply Hnum. right.
    now apply (Permutation_in r (Permutation_sym (sort_permutation compareResults l))).
  - apply IH. intros r Hin. apply Hnum. now right.
Qed.

Lemma sort_of_ordered (l : list BenchmarkResult) :
  Sorted (fun a b => positive (compareResults a b) = false) l ->
  sort compareResults l = l.
Proof.
  induction 1 as [|x l Hl IH Hhd]; cbn [sort]; [reflexivity|].
  rewrite IH. destruct Hhd as [|y l Hxy]; cbn [insert]; [reflexivity|].
  now rewrite Hxy.
Qed.

End Resorting.

(** X16: for results whose scores are numbers, sorting a sorted list
    changes nothing. *)
Theorem sorting_twice_is_sorting_once
    {engine : ArraySort} (results : list BenchmarkResult) :
  scoresAreNumbers results ->
  sortByCompositeScore (sortByCompositeScore results)
  = sortByCompositeScore results.
Proof.
  intros Hnum. rewrite (sortByCompositeScore_sort results Hnum).
  assert (Hnum' : scoresAreNumbers (sort compareResults results)).
  { apply (scoresAreNumbers_incl results); [|exact Hnum].
    intros r. apply Permutation_in, Permutation_sym, sort_permutation. }
  rewrite (sortByCompositeScore_sort _ Hnum').
  apply sort_of_ordered, sort_in_order, Hnum.
Qed.

Lemma sorting_twice_is_sorting_once_witness :
  let results := [missingKey; scoring "slow" 90; scoring "fast" 95] in
  scoresAreNumbers results
  /\ sortByCompositeScore (engine := insertionSort)
       (sortByCompositeScore (engine := insertionSort) results)
     = [scoring "fast" 95; scoring "slow" 90; missingKey].
Proof.
  intros results.
  assert (Hnum : scoresAreNumbers results).
  { intros r [<-|[<-|[<-|[]]]] _; reflexivity. }
  split; [exact Hnum|].
  rewrite (sorting_twice_is_sorting_once (engine := insertionSort) results Hnum).
  reflexivity.
Defined.

(* ================================================================== *)
(** * The results file and the client (src/table.ts) *)
(* ================================================================== *)

Section Rounding.

Lemma roundQ_unique (y : Q) (n : Z) :
  inject_Z n - (1 # 2) <= y -> y < inject_Z n + (1 # 2) -> roundQ y = inject_Z n.
Proof.
  intros Hlo Hhi. unfold roundQ. f_equal.
  pose proof (Qfloor_le (y + (1 # 2))) as Hle.
  pose proof (Qlt_floor (y + (1 # 2))) as Hlt.
  rewrite inject_Z_plus in Hlt. change (inject_Z 1) with 1 in Hlt.
  assert (H1 : (Qfloor (y + (1 # 2)) < n + 1)%Z).
  { rewrite Zlt_Qlt, inject_Z_plus. change (inject_Z 1) with 1. lra. }
  assert (H2 : (n < Qfloor (y + (1 # 2)) + 1)%Z).
  { rewrite Zlt_Qlt, inject_Z_plus. change (inject_Z 1) with 1. lra. }
  lia.
Qed.

(** Rounding a rounded time again finds the same number of hundredths,
    for times of up to 1e12 ms. *)
Lemma hundredths_are_found_again (x : Q) (n : Z) :
  Qabs x <= 1000000000000 ->
  inject_Z n - (1 # 2) <= double (x * 100) ->
  double (x * 100) < inject_Z n + (1 # 2) ->
  roundQ (double (double (inject_Z n / 100) * 100)) = inject_Z n.
Proof.
  intros Hx Hlo Hhi.
  apply Qabs_Qle_condition in Hx. destruct Hx as [Hx1 Hx2].
  assert (Hy : Qabs (x * 100) <= 100000000000000)
    by (apply Qabs_Qle_condition; split; lra).
  destruct (double_within _ _ Hy) as [Hy1 Hy2].
  change (1 # 2 ^ 53) with (1 # 9007199254740992) in Hy1, Hy2.
  assert (Hn : Qabs (inject_Z n / 100) <= 1000000000001).
  { apply Qabs_Qle_condition.
    split; [apply Qle_shift_div_l; [reflexivity|lra]
           |apply Qle_shift_div_r; [reflexivity|lra]]. }
  destruct (double_within _ _ Hn) as [Hr1 Hr2].
  change (1 # 2 ^ 53) with (1 # 9007199254740992) in Hr1, Hr2.
  assert (Hd : inject_Z n / 100 * 100 == inject_Z n) by field.
  assert (Hz : Qabs (double (inject_Z n / 100) * 100) <= 100000000000200)
    by (apply Qabs_Qle_condition; split; lra).
  destruct (double_within _ _ Hz) as [Hz1 Hz2].
  change (1 # 2 ^ 53) with (1 # 9007199254740992) in Hz1, Hz2.
  apply roundQ_unique; lra.
Qed.

End Rounding.

(** X17: rounding for the results file gives the double nearest to a
    number of hundredths: of the integer nearest to the hundredfold, the
    upper one at a tie. It keeps the order of two numbers, leaves NaN as
    NaN, and changes nothing when applied to a rounded time of up to
    1e12 ms. It ends within half a hundredth, up to the roundings of the
    doubles, which do count: 0.015 is rounded to 0.02, more than 0.005
    away. *)
Theorem file_rounding_is_stable (x : Q) :
  (exists n : Z,
      Table.round (Num x) = Num (double (inject_Z n / 100))
      /\ inject_Z n - (1 # 2) <= double (x * 100)
      /\ double (x * 100) < inject_Z n + (1 # 2)
      /\ Qabs (double (inject_Z n / 100) - x)
         <= (1 # 200) + (Qabs x + 1) * (1 # 2 ^ 51))
  /\ (Qabs x <= 1000000000000 ->
      Table.round (Table.round (Num x)) = Table.round (Num x))
  /\ Table.round NaN = NaN
  /\ (forall y r r',
        x <= y -> Table.round (Num x) = Num r -> Table.round (Num y) = Num r' ->
        r <= r')
  /\ (Table.round (Num (double (15 # 1000))) =n= Num (double (2 # 100))
      /\ 1 # 200 < double (2 # 100) - double (15 # 1000)).
Proof.
  destruct (round2_hundredths x) as (n & Hn & Hlo & Hhi & Hnear).
  change (round2 (Num x)) with (Table.round (Num x)) in Hn.
  split; [|split; [|split; [|split]]].
  - exists n. now repeat split.
  - intros Hx. rewrite Hn. unfold Table.round.
    cbn [mul lift2 JS.round div]. unfold fmul, fdiv.
    now rewrite (hundredths_are_found_again x n Hx Hlo Hhi).
  - reflexivity.
  - intros y r r' Hxy Hr Hr'. unfold Table.round in Hr, Hr'.
    cbn [mul lift2 JS.round div] in Hr, Hr'.
    injection Hr as <-. injection Hr' as <-. unfold fdiv, fmul.
    apply double_mono. apply Qle_shift_div_r; [reflexivity|].
    setoid_replace (roundQ (double (y * 100)) / 100 * 100)
      with (roundQ (double (y * 100))) by field.
    apply roundQ_mono, double_mono. lra.
  - split; vm_compute; reflexivity.
Qed.

Lemma file_rounding_is_stable_witness :
  (12345 # 10000) <= (12355 # 10000)
  /\ Qabs (12345 # 10000) <= 1000000000000
  /\ Table.round (Num (12345 # 10000)) =n= Num (double (123 # 100))
  /\ Table.round (Num (12355 # 10000)) =n= Num (double (124 # 100))
  /\ Table.round (Table.round (Num (12345 # 10000)))
     = Table.round (Num (12345 # 10000)).
Proof.
  assert (Hle : (12345 # 10000) <= (12355 # 10000)) by discriminate.
  assert (Habs : Qabs (12345 # 10000) <= 1000000000000) by discriminate.
  split; [exact Hle|]. split; [exact Habs|].
  split; [vm_compute; reflexivity|]. split; [vm_compute; reflexivity|].
  destruct (file_rounding_is_stable (12345 # 10000)) as (_ & Hagain & _).
  exact (Hagain Habs).
Defined.

Section BaseUrl.

Lemma dropSlashes_spec (s : jsstring) :
  exists n, s = repeat slash n ++ dropSlashes s
            /\ match dropSlashes s with
               | [] => True
               | c :: _ => (c =? slash)%N = false
               end.
Proof.
  induction s as [|c s (n & Hs & Hhd)]; cbn [dropSlashes].
  - exists 0%nat. split; [reflexivity|exact I].
  - destruct (c =? slash)%N eqn:Hc.
    + apply N.eqb_eq in Hc. subst c. exists (S n). cbn [repeat app].
      split; [now f_equal|exact Hhd].
    + exists 0%nat. split; [reflexivity|exact Hc].
Qed.

Lemma rev_repeat (c : N) (n : nat) : rev (repeat c n) = repeat c n.
Proof.
  induction n as [|n IH]; [reflexivity|].
  cbn [repeat rev]. rewrite IH. symmetry. apply repeat_cons.
Qed.

End BaseUrl.

(** X18: the normalized base URL is the URL without the slashes it ends
    with: it does not end with a slash, and normalizing it again changes
    nothing. *)
Theorem base_url_loses_trailing_slashes (url : jsstring) :
  (exists n, url = normalizeBaseUrl url ++ repeat slash n)
  /\ endsWith (normalizeBaseUrl url) [slash] = false
  /\ normalizeBaseUrl (normalizeBaseUrl url) = normalizeBaseUrl url.
Proof.
  unfold normalizeBaseUrl.
  destruct (dropSlashes_spec (rev url)) as (n & Hs & Hhd).
  assert (Hends : endsWith (rev (dropSlashes (rev url))) [slash] = false).
  { unfold endsWith. rewrite rev_involutive. cbn [rev app].
    destruct (dropSlashes (rev url)) as [|c rest]; [reflexivity|].
    cbn [startsWith]. now rewrite Hhd. }
  split; [|split].
  - exists n. apply (f_equal (@rev N)) in Hs.
    rewrite rev_involutive, rev_app_distr, rev_repeat in Hs. exact Hs.
  - exact Hends.
  - rewrite rev_involutive.
    destruct (dropSlashes (rev url)) as [|c rest]; [reflexivity|].
    cbn [dropSlashes]. now rewrite Hhd.
Qed.

(* ================================================================== *)
(** * The command line (src/run.ts) *)
(* ================================================================== *)

Section Arguments.

Lemma eqb_eq (s t : jsstring) : JS.eqb s t = true <-> s = t.
Proof.
  revert t. induction s as [|c s IH]; intros [|d t]; cbn [JS.eqb];
    try (split; [discriminate|discriminate]); [split; reflexivity|].
  rewrite andb_true_iff, N.eqb_eq, IH. split.
  - intros [-> ->]. reflexivity.
  - intros [= -> ->]. split; reflexivity.
Qed.

Lemma indexOfArg_split (flag : jsstring) (args : list jsstring) (i : nat) :
  indexOfArg flag args = Some i <->
  exists before rest,
    args = before ++ flag :: rest /\ ~ In flag before /\ List.length before = i.
Proof.
  revert i. induction args as [|a args IH]; intros i; cbn [indexOfArg].
  - split; [discriminate|]. intros (before & rest & H & _).
    destruct before; discriminate.
  - destruct (JS.eqb a flag) eqn:Ha.
    + apply eqb_eq in Ha. subst a. split.
      * intros [= <-]. exists [], args. repeat split. intros [].
      * intros (before & rest & H & Hnot & <-).
        destruct before as [|b before]; [reflexivity|].
        injection H as <- _. exfalso. apply Hnot. now left.
    + assert (Hne : a <> flag)
        by (intros ->; rewrite (proj2 (eqb_eq flag flag) eq_refl) in Ha;
            discriminate).
      split.
      * destruct (indexOfArg flag args) as [j|]; [|discriminate].
        intros [= <-]. destruct (proj1 (IH j) eq_refl)
          as (before & rest & -> & Hnot & <-).
        exists (a :: before), rest. repeat split.
        intros [H|H]; [congruence|contradiction].
      * intros (before & rest & H & Hnot & <-).
        destruct before as [|b before]; [injection H as -> _; congruence|].
        injection H as <- ->.
        assert (Hj : indexOfArg flag (before ++ flag :: rest)
                     = Some (List.length before)).
        { apply IH. exists before, rest. repeat split.
          intros Hin. apply Hnot. now right. }
        rewrite Hj. reflexivity.
Qed.

Lemma ifTruthy_nonempty (s : option jsstring) (c : jsstring) :
  ifTruthy s = Some c -> c <> [] /\ s = Some c.
Proof.
  unfold ifTruthy. destruct s as [[|x s]|]; cbn [truthy]; try discriminate.
  intros [= <-]. split; [discriminate|reflexivity].
Qed.

End Arguments.

(** X19: [getArgValue] gives the argument that follows the first
    occurrence of the flag, whatever it is, and nothing when the flag is
    absent or is the last argument. *)
Theorem flag_value_follows_first_occurrence
    (args : list jsstring) (flag v : jsstring) :
  (getArgValue args flag = Some v
   <-> exists before after,
         args = before ++ flag :: v :: after /\ ~ In flag before)
  /\ (~ In flag args -> getArgValue args flag = None)
  /\ (forall before, ~ In flag before ->
        getArgValue (before ++ [flag]) flag = None).
Proof.
  assert (Hnth : forall (before rest : list jsstring),
             nth_error (before ++ flag :: rest) (List.length before + 1)
             = nth_error rest 0).
  { intros before rest. rewrite nth_error_app2 by lia.
    replace (List.length before + 1 - List.length before)%nat with 1%nat by lia.
    reflexivity. }
  split; [split|split].
  - unfold getArgValue.
    destruct (indexOfArg flag args) as [i|] eqn:Hi; [|discriminate].
    apply indexOfArg_split in Hi. destruct Hi as (before & rest & -> & Hnot & <-).
    destruct (List.length before + 1 <? List.length (before ++ flag :: rest))%nat;
      [|discriminate].
    rewrite Hnth. destruct rest as [|v' after]; [discriminate|].
    intros [= ->]. now exists before, after.
  - intros (before & after & -> & Hnot). unfold getArgValue.
    assert (Hi : indexOfArg flag (before ++ flag :: v :: after)
                 = Some (List.length before))
      by (apply indexOfArg_split; now exists before, (v :: after)).
    rewrite Hi, Hnth.
    assert (Hlt : (List.length before + 1
                   <? List.length (before ++ flag :: v :: after))%nat = true).
    { apply Nat.ltb_lt. rewrite length_app. cbn [List.length]. lia. }
    rewrite Hlt. reflexivity.
  - intros Hnot. unfold getArgValue.
    destruct (indexOfArg flag args) as [i|] eqn:Hi; [|reflexivity].
    apply indexOfArg_split in Hi. destruct Hi as (before & rest & -> & _).
    exfalso. apply Hnot, in_or_app. right. now left.
  - intros before Hnot. unfold getArgValue.
    assert (Hi : indexOfArg flag (before ++ [flag]) = Some (List.length before))
      by (apply indexOfArg_split; now exists before, []).
    rewrite Hi.
    assert (Hlt : (List.length before + 1 <? List.length (before ++ [flag]))%nat
                  = false).
    { apply Nat.ltb_ge. rewrite length_app. cbn [List.length]. lia. }
    rewrite Hlt. reflexivity.
Qed.

Lemma flag_value_follows_first_occurrence_witness :
  let args := [str "--provider"; str "--iterations"; str "--iterations"; str "5"] in
  ~ In (str "--iterations") [str "--provider"]
  /\ getArgValue args (str "--provider") = Some (str "--iterations")
  /\ getArgValue args (str "--iterations") = Some (str "--iterations").
Proof.
  intros args.
  assert (Hnot : ~ In (str "--iterations") [str "--provider"]).
  { intros [H|[]]. discriminate H. }
  split; [exact Hnot|]. split; [reflexivity|].
  apply (proj1 (flag_value_follows_first_occurrence args (str "--iterations")
                  (str "--iterations"))).
  exists [str "--provider"], [str "5"]. split; [reflexivity|exact Hnot].
Defined.

Section Counts.

Lemma double_of_integer (z : Z) :
  exists k : Z, double (inject_Z z) == inject_Z k.
Proof.
  assert (Hpos : forall p : Z, (0 < p)%Z ->
            exists k : Z, double (inject_Z p) == inject_Z k).
  { intros p Hp. destruct (Z_le_gt_dec p (2 ^ 53)) as [Hs|Hb].
    - exists p. apply double_int. lia.
    - assert (Hx : 0 < inject_Z p)
        by (change 0 with (inject_Z 0); rewrite <- Zlt_Qlt; lia).
      rewrite (double_pos_eq _ Hx). unfold doublePos.
      destruct (ilog2_spec _ Hx) as [_ Hhi].
      assert (H53 : pow2 53 <= inject_Z p).
      { rewrite (pow2_Z 53) by lia. rewrite <- Zle_Qle. lia. }
      assert (He : (53 < ilog2 (inject_Z p) + 1)%Z)
        by (apply pow2_lt_inv; lra).
      eexists. rewrite (pow2_Z (ilog2 (inject_Z p) - 52)) at 2 by lia.
      rewrite <- inject_Z_mult. reflexivity. }
  destruct z as [|p|p].
  - exists 0%Z. reflexivity.
  - apply Hpos. lia.
  - destruct (Hpos (Zpos p) ltac:(lia)) as [k Hk]. exists (- k)%Z.
    change (Zneg p) with (- Zpos p)%Z.
    rewrite !inject_Z_opp, double_opp, Hk. reflexivity.
Qed.

Lemma double_integer (z : Z) :
  inject_Z (Qfloor (double (inject_Z z))) == double (inject_Z z).
Proof.
  destruct (double_of_integer z) as [k Hk].
  rewrite (Qfloor_comp _ _ Hk), Qfloor_Z. symmetry. exact Hk.
Qed.

Lemma parseInt_sign (s : jsstring) (z m : Z) :
  mathInt s = Some z -> parseInt s = Some m ->
  ((z <= 0)%Z -> (m <= 0)%Z) /\ ((0 < z)%Z -> (0 < m)%Z).
Proof.
  intros Hz. unfold parseInt. rewrite Hz. cbv zeta.
  destruct (Qle_bool (pow2 1024) (Qabs (double (inject_Z z)))); [discriminate|].
  intros [= <-]. split; intros Hs.
  - assert (H : double (inject_Z z) <= 0).
    { rewrite <- double_0. apply double_mono.
      change 0 with (inject_Z 0). now rewrite <- Zle_Qle. }
    pose proof (Qfloor_le (double (inject_Z z))) as Hf.
    rewrite Zle_Qle. change (inject_Z 0) with 0. lra.
  - assert (H : 1 <= double (inject_Z z)).
    { rewrite <- double_1. apply double_mono.
      change 1 with (inject_Z 1). rewrite <- Zle_Qle. lia. }
    assert (Hf : (Qfloor 1 <= Qfloor (double (inject_Z z)))%Z)
      by now apply Qfloor_resp_le.
    change (Qfloor 1) with 1%Z in Hf. lia.
Qed.

Lemma parsePositiveInt_cases (value flagName : jsstring) :
  match parseInt value with
  | Some m =>
      if (m <=? 0)%Z
      then parsePositiveInt value flagName
           = Throw (flagName ++ str " must be a positive integer")
      else parsePositiveInt value flagName = Ok m
  | None => parsePositiveInt value flagName
            = Throw (flagName ++ str " must be a positive integer")
  end.
Proof.
  unfold parsePositiveInt.
  destruct (parseInt value) as [m|]; cbn [isInteger negb orb]; [|reflexivity].
  destruct (m <=? 0)%Z; reflexivity.
Qed.

End Counts.

(** X20: an argument that starts with the decimal digits of a positive
    integer of at most 2^53 is read as that integer; one that starts
    with those of an integer that is not positive is refused. Whatever
    is read is positive and is the integer the argument starts with,
    rounded to a double: 9007199254740993 is read as 9007199254740992,
    and an integer of 401 digits is refused. Without the flag there are
    10 iterations. *)
Theorem parsed_counts_are_positive
    (n : Z) (rest flagName : jsstring) (args : list jsstring) :
  endsDigits rest ->
  ((0 < n <= 2 ^ 53)%Z -> parsePositiveInt (decimal n ++ rest) flagName = Ok n)
  /\ ((n <= 0)%Z ->
      parsePositiveInt (decimal n ++ rest) flagName
      = Throw (flagName ++ str " must be a positive integer"))
  /\ (forall value m,
        parsePositiveInt value flagName = Ok m ->
        (0 < m)%Z
        /\ exists z, mathInt value = Some z
                     /\ inject_Z m == double (inject_Z z))
  /\ parsePositiveInt (str "9007199254740993") flagName = Ok 9007199254740992%Z
  /\ parsePositiveInt (decimal (10 ^ 400)) flagName
     = Throw (flagName ++ str " must be a positive integer")
  /\ (forall m, iterationsOf args = Ok m -> (0 < m)%Z)
  /\ (getArgValue args (str "--iterations") = None -> iterationsOf args = Ok 10%Z).
Proof.
  intros Hrest.
  assert (Hpos : forall value f m, parsePositiveInt value f = Ok m ->
                   (0 < m)%Z /\ parseInt value = Some m).
  { intros value f m H. pose proof (parsePositiveInt_cases value f) as Hc.
    destruct (parseInt value) as [k|]; [|congruence].
    destruct (k <=? 0)%Z eqn:Hk; [congruence|].
    apply Z.leb_gt in Hk. rewrite Hc in H. injection H as <-. now split. }
  split; [|split; [|split; [|split; [|split; [|split]]]]].
  - intros Hn. pose proof (parsePositiveInt_cases (decimal n ++ rest) flagName) as Hc.
    rewrite (parseInt_small (decimal n ++ rest) n) in Hc;
      [|now apply mathInt_decimal|lia].
    destruct (n <=? 0)%Z eqn:Hk; [apply Z.leb_le in Hk; lia|exact Hc].
  - intros Hn. pose proof (parsePositiveInt_cases (decimal n ++ rest) flagName) as Hc.
    destruct (parseInt (decimal n ++ rest)) as [m|] eqn:Hm; [|exact Hc].
    destruct (parseInt_sign _ n m (mathInt_decimal n rest Hrest) Hm) as [Hle _].
    specialize (Hle Hn). apply Z.leb_le in Hle. now rewrite Hle in Hc.
  - intros value m H. destruct (Hpos value flagName m H) as [Hm Hp].
    split; [exact Hm|]. unfold parseInt in Hp.
    destruct (mathInt value) as [z|]; [|discriminate]. exists z.
    split; [reflexivity|]. cbv zeta in Hp.
    destruct (Qle_bool (pow2 1024) (Qabs (double (inject_Z z)))); [discriminate|].
    injection Hp as <-. apply double_integer.
  - pose proof (parsePositiveInt_cases (str "9007199254740993") flagName) as Hc.
    assert (Hp : parseInt (str "9007199254740993") = Some 9007199254740992%Z)
      by (vm_compute; reflexivity).
    rewrite Hp in Hc. exact Hc.
  - pose proof (parsePositiveInt_cases (decimal (10 ^ 400)) flagName) as Hc.
    assert (Hp : parseInt (decimal (10 ^ 400)) = None) by (vm_compute; reflexivity).
    rewrite Hp in Hc. exact Hc.
  - intros m H. unfold iterationsOf in H. now apply Hpos in H.
  - intros Hnone. unfold iterationsOf. rewrite Hnone. reflexivity.
Qed.

Lemma parsed_counts_are_positive_witness :
  endsDigits (str " runs")
  /\ getArgValue [str "--provider"; str "e2b"] (str "--iterations") = None
  /\ iterationsOf [str "--provider"; str "e2b"] = Ok 10%Z
  /\ parsePositiveInt (str "20 runs") (str "--iterations") = Ok 20%Z
  /\ parsePositiveInt (str "0 runs") (str "--iterations")
     = Throw (str "--iterations must be a positive integer").
Proof.
  assert (Hrest : endsDigits (str " runs")) by reflexivity.
  split; [exact Hrest|].
  destruct (parsed_counts_are_positive 20 (str " runs") (str "--iterations")
              [str "--provider"; str "e2b"] Hrest) as (Hread & _ & _ & _ & _ & _ & Hdefault).
  split; [reflexivity|]. split; [exact (Hdefault eq_refl)|].
  split; [|reflexivity].
  apply Hread. lia.
Defined.

(** X21: a workload the command line resolves to has a setup command
    or a workload command; the commands and the directory it holds are not
    empty, its time-out is positive, and a command given on the command
    line is the one it holds, whatever the file says. An iteration run
    with it returns only samples that carry [workloadMs] and [totalMs]. *)
Theorem resolved_workload_is_well_formed
    (readWorkload : jsstring -> result (option PartialWorkloadConfig))
    (args : list jsstring) (cfg : WorkloadConfig) :
  resolveWorkloadConfig readWorkload args = Ok (Some cfg) ->
  (truthy (setupCommand cfg) = true \/ truthy (command cfg) = true)
  /\ (forall c, setupCommand cfg = Some c -> c <> [])
  /\ (forall c, command cfg = Some c -> c <> [])
  /\ (forall c, cwd cfg = Some c -> c <> [])
  /\ (forall t, timeoutMs cfg = Some t -> 0 < t)
  /\ (forall c, getArgValue args (str "--setup-cmd") = Some c ->
        setupCommand cfg = ifTruthy (Some c))
  /\ (forall c, getArgValue args (str "--workload-cmd") = Some c ->
        command cfg = ifTruthy (Some c))
  /\ (forall compute timeout w sample,
        fst (runIteration compute timeout (Some cfg) w) = Ok sample ->
        workloadMs sample <> None /\ totalMs sample <> None).
Proof.
  unfold resolveWorkloadConfig. intros H.
  destruct (match getArgValue args (str "--workload-file") with
            | Some (c :: p) =>
                match readWorkload (c :: p) with
                | Ok (Some parsed) => Ok parsed
                | Ok None => Throw (str "Invalid workload file: " ++ c :: p)
                | Throw message => Throw message
                end
            | _ => Ok noFile
            end) as [fileConfig|]; [|discriminate].
  set (setup := coalesce (getArgValue args (str "--setup-cmd"))
                  (file_setupCommand fileConfig)) in *.
  set (cmd := coalesce (getArgValue args (str "--workload-cmd"))
                (file_command fileConfig)) in *.
  destruct (negb (truthy setup) && negb (truthy cmd)) eqn:Hboth; [discriminate|].
  destruct (match getArgValue args (str "--workload-timeout-ms") with
            | Some (c :: t) =>
                match parsePositiveInt (c :: t) (str "--workload-timeout-ms") with
                | Ok n => Ok (Some (inject_Z n))
                | Throw message => Throw message
                end
            | _ => Ok (file_timeoutMs fileConfig)
            end) as [timeout|]; [|discriminate].
  destruct (match timeout with Some t => Qle_bool t 0 | None => false end)
    eqn:Htimeout; [discriminate|].
  injection H as <-. cbn [setupCommand command cwd timeoutMs].
  assert (Hone : truthy (ifTruthy setup) = true \/ truthy (ifTruthy cmd) = true).
  { unfold ifTruthy. destruct (truthy setup) eqn:Hs; [now left|].
    destruct (truthy cmd) eqn:Hc; [now right|]. discriminate. }
  split; [exact Hone|].
  split; [intros c Hc; now apply (ifTruthy_nonempty _ _ Hc)|].
  split; [intros c Hc; now apply (ifTruthy_nonempty _ _ Hc)|].
  split; [intros c Hc; now apply (ifTruthy_nonempty _ _ Hc)|].
  split.
  { intros t ->.
    assert (~ t <= 0) by (intros Hn; apply Qle_bool_iff in Hn; congruence).
    lra. }
  split; [intros c Hc; unfold setup; now rewrite Hc|].
  split; [intros c Hc; unfold cmd; now rewrite Hc|].
  intros compute timeout' w sample Hok.
  unfold runIteration in Hok.
  match type of Hok with
  | context [tryBlock ?c ?t ?wl ?ms ?f] =>
      destruct (tryBlock c t wl ms f) as [r f'] eqn:Htry
  end.
  cbn [fst] in Hok. subst r.
  pose proof (tryBlock_sample_fields _ _ _ _ _ _ _ Htry) as Hshape.
  cbv zeta in Hshape. cbn [setupCommand command] in Hshape.
  destruct Hone as [Hone|Hone]; rewrite Hone in Hshape; cbn [negb andb] in Hshape.
  - exact Hshape.
  - rewrite andb_false_r in Hshape. exact Hshape.
Qed.

Lemma resolved_workload_is_well_formed_witness :
  let file := {| file_name := None; file_setupCommand := Some (str "npm ci");
                 file_command := Some (str "npm test"); file_cwd := Some [];
                 file_timeoutMs := Some 60000 |} in
  let args := [str "--workload-file"; str "w.json"; str "--setup-cmd"; []] in
  let cfg := {| name := str "custom-workload"; setupCommand := None;
                command := Some (str "npm test"); cwd := None;
                timeoutMs := Some 60000 |} in
  resolveWorkloadConfig (fun _ => Ok (Some file)) args = Ok (Some cfg)
  /\ setupCommand cfg = ifTruthy (Some []).
Proof.
  intros file args cfg.
  assert (H : resolveWorkloadConfig (fun _ => Ok (Some file)) args = Ok (Some cfg))
    by reflexivity.
  split; [exact H|].
  destruct (resolved_workload_is_well_formed _ _ _ H)
    as (_ & _ & _ & _ & _ & Hcli & _).
  exact (Hcli [] eq_refl).
Defined.

(* ================================================================== *)
(** * The calls of an iteration (src/run.ts) *)
(* ================================================================== *)

Section Trace.

Lemma bind_cases {A B : Type} (m : M A) (k : A -> M B) (f : Frame) :
  (exists a f1, m f = (Ok a, f1) /\ bind m k f = k a f1)
  \/ (exists message f1,
        m f = (Throw message, f1) /\ bind m k f = (Throw message, f1)).
Proof.
  unfold bind. destruct (m f) as [[a|message] f1].
  - left. now exists a, f1.
  - right. now exists message, f1.
Qed.

(** A checked command logs its call, and nothing else, whatever comes
    of it. *)
Lemma checked_step (compute : Compute) (sb : Sandbox) (command : jsstring)
    (dir : option jsstring) (seconds ms : Q) (failurePrefix message : jsstring)
    (f : Frame) :
  exists r w',
    inWorld (fun w =>
      let '(p, w1) :=
        runCheckedCommand compute sb command dir seconds failurePrefix w in
      withTimeout p ms message w1) f
    = (r, {| world := w'; sandbox := sandbox f |})
    /\ calls w'
       = calls (world f)
         ++ [CallRunCommand sb command
               {| opt_cwd := if truthy dir then dir else None;
                  opt_timeout := seconds |}].
Proof.
  unfold inWorld, runCheckedCommand, withTimeout.
  match goal with
  | |- context [awaitRace ?p ?t ?m ?w] =>
      pose proof (awaitRace_calls p t m w) as Hcalls;
      destruct (awaitRace p t m w) as [r w'] eqn:Hrace
  end.
  exists r, w'. split; [reflexivity|]. exact Hcalls.
Qed.

Lemma when_step (b : bool) (compute : Compute) (sb : Sandbox)
    (command : jsstring) (dir : option jsstring) (seconds ms : Q)
    (failurePrefix message : jsstring) (f : Frame) :
  exists r w',
    when b (inWorld (fun w =>
      let '(p, w1) :=
        runCheckedCommand compute sb command dir seconds failurePrefix w in
      withTimeout p ms message w1)) f
    = (r, {| world := w'; sandbox := sandbox f |})
    /\ calls w'
       = calls (world f)
         ++ (if b
             then [CallRunCommand sb command
                     {| opt_cwd := if truthy dir then dir else None;
                        opt_timeout := seconds |}]
             else []).
Proof.
  destruct b; cbn [when].
  - apply checked_step.
  - exists (Ok tt), (world f). destruct f as [w s]. split; [reflexivity|].
    cbn [world]. now rewrite app_nil_r.
Qed.

Lemma creation_outcome (compute : Compute) (timeout : Q) (w : World) :
  let step := inWorld (fun w =>
                withTimeout (create compute w) timeout
                  (str "Sandbox creation timed out") (logCall CallCreate w))
                {| world := w; sandbox := None |} in
  (exists message dt,
      creationFailure (create compute w) timeout = Some (message, dt)
      /\ step = (Throw message,
                 {| world := {| now := now w + dt;
                                calls := calls w ++ [CallCreate] |};
                    sandbox := None |}))
  \/ (exists sb after,
        create compute w = Some (after, Fulfilled sb)
        /\ Qle_bool after timeout = true
        /\ creationFailure (create compute w) timeout = None
        /\ step = (Ok sb,
                   {| world := {| now := now w + after;
                                  calls := calls w ++ [CallCreate] |};
                      sandbox := None |})).
Proof.
  cbn zeta. unfold inWorld, withTimeout, awaitRace, creationFailure.
  cbn [world sandbox].
  destruct (create compute w) as [[after [sb|reason]]|].
  - destruct (Qle_bool after timeout) eqn:Hle.
    + right. exists sb, after. repeat split. exact Hle.
    + left. eexists _, _. split; reflexivity.
  - destruct (Qle_bool after timeout); left; eexists _, _; split; reflexivity.
  - left. eexists _, _. split; reflexivity.
Qed.

Lemma tryBlock_trace (compute : Compute) (timeout : Q)
    (workload : option WorkloadConfig) (w : World) :
  let tried := tryBlock compute timeout workload (workloadTimeout workload)
                 {| world := w; sandbox := None |} in
  (exists message dt,
      creationFailure (create compute w) timeout = Some (message, dt)
      /\ tried = (Throw message,
                  {| world := {| now := now w + dt;
                                 calls := calls w ++ [CallCreate] |};
                     sandbox := None |}))
  \/ (exists sb after done,
        create compute w = Some (after, Fulfilled sb)
        /\ Qle_bool after timeout = true
        /\ sandbox (snd tried) = Some sb
        /\ calls (world (snd tried))
           = calls w ++ CallCreate :: smokeCall sb :: done
        /\ (exists rest, planned sb workload = done ++ rest)
        /\ (forall sample, fst tried = Ok sample -> done = planned sb workload)).
Proof.
  cbn zeta. unfold tryBlock.
  erewrite bind_ok; [|reflexivity]. cbv beta.
  destruct (creation_outcome compute timeout w)
    as [(message & dt & Hfail & Hstep)|(sb & after & Hcreate & Hle & _ & Hstep)];
    cbn zeta in Hstep.
  - left. exists message, dt. split; [exact Hfail|].
    unfold bind at 1. rewrite Hstep. reflexivity.
  - right. exists sb, after.
    erewrite bind_ok; [|exact Hstep]. cbv beta.
    erewrite bind_ok; [|reflexivity]. cbv beta. cbn [world sandbox].
    match goal with
    | |- context [bind ?m ?k ?f] =>
        destruct (bind_cases m k f) as [(u & f1 & Hm & Hb)|(msg & f1 & Hm & Hb)];
        rewrite Hb; clear Hb;
        destruct (checked_step compute sb smokeCommand None 30 30000
                    (str "First command execution failed")
                    (str "First command execution timed out") f)
          as (r & w1 & Heq & Hcalls);
        rewrite Heq in Hm; injection Hm as -> <-;
        cbn [world sandbox calls] in Hcalls
    end.
    2:{ exists []. cbn [snd fst world sandbox].
        split; [exact Hcreate|]. split; [exact Hle|]. split; [reflexivity|].
        split; [rewrite Hcalls, <- app_assoc; reflexivity|].
        split; [now exists (planned sb workload)|discriminate]. }
    erewrite bind_ok; [|reflexivity]. cbv beta. cbn [world now].
    assert (Hbase : calls w1 = calls w ++ CallCreate :: smokeCall sb :: [])
      by (rewrite Hcalls, <- app_assoc; reflexivity).
    clear Hcalls Hstep Heq.
    set (setup := match workload with Some wl => setupCommand wl | None => None end).
    set (cmd := match workload with Some wl => command wl | None => None end).
    set (dir := match workload with Some wl => cwd wl | None => None end).
    assert (Hplan : planned sb workload
              = (if truthy setup
                 then [CallRunCommand sb (match setup with Some c => c | None => [] end)
                         {| opt_cwd := if truthy dir then dir else None;
                            opt_timeout := msToSeconds (workloadTimeout workload) |}]
                 else [])
                ++ (if truthy cmd
                    then [CallRunCommand sb (match cmd with Some c => c | None => [] end)
                            {| opt_cwd := if truthy dir then dir else None;
                               opt_timeout := msToSeconds (workloadTimeout workload) |}]
                    else [])).
    { unfold planned, setup, cmd, dir. destruct workload as [wl|]; [|reflexivity].
      destruct (setupCommand wl) as [[|c s]|], (command wl) as [[|c' s']|];
        reflexivity. }
    rewrite Hplan. clear Hplan.
    cbv zeta.
    set (c1 := CallRunCommand sb (match setup with Some c => c | None => [] end) _).
    set (c2 := CallRunCommand sb (match cmd with Some c => c | None => [] end) _).
    destruct (negb (truthy setup) && negb (truthy cmd)) eqn:Hnone.
    { apply andb_true_iff in Hnone. destruct Hnone as [Hs Hc].
      apply negb_true_iff in Hs, Hc. rewrite Hs, Hc. exists [].
      cbn [ret snd fst world sandbox app].
      split; [exact Hcreate|]. split; [exact Hle|].
      split; [reflexivity|]. split; [exact Hbase|].
      split; [now exists []|reflexivity]. }
    erewrite bind_ok; [|reflexivity]. cbv beta. cbn [world now].
    match goal with
    | |- context [bind ?m ?k ?f] =>
        destruct (bind_cases m k f) as [(u1 & f1 & Hm & Hb)|(msg & f1 & Hm & Hb)];
        rewrite Hb; clear Hb;
        destruct (when_step (truthy setup) compute sb
                    (match setup with Some c => c | None => [] end) dir
                    (msToSeconds (workloadTimeout workload))
                    (workloadTimeout workload)
                    (str "Workload setup failed")
                    (str "Workload setup timed out") f)
          as (r & w2 & Heq & Hcalls);
        rewrite Heq in Hm; injection Hm as -> <-;
        cbn [world sandbox calls] in Hcalls; fold c1 in Hcalls
    end.
    2:{ exists (if truthy setup then [c1] else []).
        cbn [snd fst world sandbox].
        split; [exact Hcreate|]. split; [exact Hle|].
        split; [reflexivity|].
        split; [rewrite Hcalls, Hbase, <- app_assoc; reflexivity|].
        split; [now exists (if truthy cmd then [c2] else [])|discriminate]. }
    match goal with
    | |- context [bind ?m ?k ?f] =>
        destruct (bind_cases m k f) as [(u2 & f1 & Hm & Hb)|(msg & f1 & Hm & Hb)];
        rewrite Hb; clear Hb;
        destruct (when_step (truthy cmd) compute sb
                    (match cmd with Some c => c | None => [] end) dir
                    (msToSeconds (workloadTimeout workload))
                    (workloadTimeout workload)
                    (str "Workload command failed")
                    (str "Workload command timed out") f)
          as (r' & w3 & Heq' & Hcalls');
        rewrite Heq' in Hm; injection Hm as -> <-;
        cbn [world sandbox calls] in Hcalls'; fold c2 in Hcalls'
    end.
    all: exists ((if truthy setup then [c1] else [])
                 ++ (if truthy cmd then [c2] else []));
      cbn [bind performanceNow ret snd fst world sandbox];
      (split; [exact Hcreate|]); (split; [exact Hle|]);
      (split; [reflexivity|]);
      (split; [rewrite Hcalls', Hcalls, Hbase, <- !app_assoc; reflexivity|]);
      (split; [exists []; now rewrite app_nil_r|reflexivity]).
Qed.

End Trace.

Lemma runIteration_tried (compute : Compute) (timeout : Q)
    (workload : option WorkloadConfig) (w : World) :
  let tried := tryBlock compute timeout workload (workloadTimeout workload)
                 {| world := w; sandbox := None |} in
  runIteration compute timeout workload w
  = (fst tried, finallyBlock compute (snd tried)).
Proof.
  cbn zeta. unfold runIteration. fold (workloadTimeout workload).
  destruct (tryBlock compute timeout workload (workloadTimeout workload)
              {| world := w; sandbox := None |}) as [r f].
  reflexivity.
Qed.

Lemma finallyBlock_calls (compute : Compute) (f : Frame) :
  calls (finallyBlock compute f)
  = calls (world f)
    ++ match sandbox f with Some sb => [CallDestroy sb] | None => [] end.
Proof.
  unfold finallyBlock. destruct (sandbox f) as [sb|].
  - rewrite awaitRace_calls. reflexivity.
  - now rewrite app_nil_r.
Qed.

Lemma creation_failure_throws (compute : Compute) (timeout : Q)
    (workload : option WorkloadConfig) (w : World) (message : jsstring) (dt : Q) :
  creationFailure (create compute w) timeout = Some (message, dt) ->
  runIteration compute timeout workload w
  = (Throw message, {| now := now w + dt; calls := calls w ++ [CallCreate] |}).
Proof.
  intros Hfail. rewrite runIteration_tried.
  destruct (tryBlock_trace compute timeout workload w)
    as [(message' & dt' & Hfail' & Htried)
       |(sb & after & done & Hcreate & Hle & _)]; cbn zeta in *.
  - rewrite Hfail in Hfail'. injection Hfail' as <- <-.
    rewrite Htried. reflexivity.
  - unfold creationFailure in Hfail. rewrite Hcreate, Hle in Hfail.
    discriminate.
Qed.

Lemma late_iterations_destroy_nothing (compute : Compute) (timeout : Q)
    (workload : option WorkloadConfig) (n : nat) (results : list TimingResult)
    (w : World) :
  (forall w', exists after sb,
      create compute w' = Some (after, Fulfilled sb)
      /\ Qle_bool after timeout = false) ->
  let done := runIterations n compute timeout workload results w in
  destroyCalls (calls (snd done)) = destroyCalls (calls w)
  /\ createCalls (calls (snd done)) = (createCalls (calls w) + n)%nat.
Proof.
  intros Hlate. cbn zeta. revert results w.
  induction n as [|n IH]; intros results w; cbn [runIterations].
  - cbn [snd]. split; [reflexivity|lia].
  - unfold iterationSample. destruct (Hlate w) as (after & sb & Hcreate & Hle).
    rewrite (creation_failure_throws compute timeout workload w
               (str "Sandbox creation timed out") timeout)
      by (unfold creationFailure; now rewrite Hcreate, Hle).
    destruct (IH (results ++ [failedSample (str "Sandbox creation timed out")])
                {| now := now w + timeout; calls := calls w ++ [CallCreate] |})
      as [Hd Hc].
    unfold failedSample in Hd, Hc. rewrite Hd, Hc. cbn [calls].
    unfold destroyCalls, createCalls. rewrite !filter_app, !length_app.
    cbn. lia.
Qed.

(** C7, evaluated on the code: a sandbox that [create] fulfils with
    only after the time-out of the creation is never destroyed. The
    iteration throws that the creation timed out when the timer fires,
    and its only call is [create]: [destroy] is called neither on the
    sandbox nor at all. Over the iterations of a provider that is always
    late, a sandbox is created in each one and none is destroyed. *)
Theorem late_creation_is_never_destroyed
    (compute : Compute) (timeout : Q) (workload : option WorkloadConfig)
    (w : World) (after : Q) (sb : Sandbox) :
  create compute w = Some (after, Fulfilled sb) ->
  Qle_bool after timeout = false ->
  let done := runIteration compute timeout workload w in
  done = (Throw (str "Sandbox creation timed out"),
          {| now := now w + timeout; calls := calls w ++ [CallCreate] |})
  /\ destroyCalls (calls (snd done)) = destroyCalls (calls w)
  /\ (~ In (CallDestroy sb) (calls w) -> ~ In (CallDestroy sb) (calls (snd done)))
  /\ ((forall w', create compute w' = Some (after, Fulfilled sb)) ->
      forall n results,
        let all := runIterations n compute timeout workload results w in
        destroyCalls (calls (snd all)) = destroyCalls (calls w)
        /\ createCalls (calls (snd all)) = (createCalls (calls w) + n)%nat).
Proof.
  intros Hcreate Hle. cbn zeta.
  rewrite (creation_failure_throws compute timeout workload w
             (str "Sandbox creation timed out") timeout)
    by (unfold creationFailure; now rewrite Hcreate, Hle).
  cbn [snd calls]. split; [reflexivity|]. split; [|split].
  - unfold destroyCalls. rewrite filter_app, length_app. cbn. lia.
  - intros Hnot Hin. apply in_app_or in Hin.
    destruct Hin as [Hin|[Hin|[]]]; [now apply Hnot|discriminate].
  - intros Halways n results.
    apply late_iterations_destroy_nothing.
    intros w'. exists after, sb. split; [apply Halways|exact Hle].
Qed.

Lemma late_creation_is_never_destroyed_witness :
  let late :=
    {| create := fun _ => Some (120001, Fulfilled {| sandboxId := 1 |});
       runCommand := fun _ _ _ _ => Some (290, Fulfilled succeeded);
       destroy := fun _ _ => Some (5, Fulfilled tt) |} in
  create late startOfRun = Some (120001, Fulfilled {| sandboxId := 1 |})
  /\ Qle_bool 120001 120000 = false
  /\ runIteration late 120000 None startOfRun
     = (Throw (str "Sandbox creation timed out"),
        {| now := 0 + 120000; calls := [CallCreate] |})
  /\ destroyCalls (calls (snd (runIterations 3 late 120000 None [] startOfRun)))
     = 0%nat.
Proof.
  intros late.
  destruct (late_creation_is_never_destroyed late 120000 None startOfRun
              120001 {| sandboxId := 1 |} eq_refl eq_refl)
    as (Hdone & _ & _ & Hall).
  split; [reflexivity|]. split; [reflexivity|]. split; [exact Hdone|].
  exact (proj1 (Hall (fun _ => eq_refl) 3%nat [])).
Defined.

(** X22: when [create] rejects or does not settle within its time-out,
    the iteration throws the reason of the rejection, or that creation
    timed out; the only call it has made is [create], so that nothing is
    destroyed and no command is run, and no more time than the time-out
    has passed. *)
Theorem failed_creation_ends_the_iteration
    (compute : Compute) (timeout : Q) (workload : option WorkloadConfig)
    (w : World) (message : jsstring) (dt : Q) :
  creationFailure (create compute w) timeout = Some (message, dt) ->
  runIteration compute timeout workload w
  = (Throw message, {| now := now w + dt; calls := calls w ++ [CallCreate] |})
  /\ dt <= timeout
  /\ (message = str "Sandbox creation timed out"
      \/ exists after, create compute w = Some (after, Rejected message)).
Proof.
  intros Hfail. split; [now apply creation_failure_throws|].
  unfold creationFailure in Hfail.
  destruct (create compute w) as [[after [sb|reason]]|].
  - destruct (Qle_bool after timeout); [discriminate|].
    injection Hfail as <- <-. split; [lra|now left].
  - destruct (Qle_bool after timeout) eqn:Hle; injection Hfail as <- <-.
    + apply Qle_bool_iff in Hle. split; [exact Hle|]. right. now exists after.
    + split; [lra|now left].
  - injection Hfail as <- <-. split; [lra|now left].
Qed.

Lemma failed_creation_ends_the_iteration_witness :
  let refusing :=
    {| create := fun _ => Some (40, Rejected (str "quota exceeded"));
       runCommand := fun _ _ _ _ => None;
       destroy := fun _ _ => None |} in
  creationFailure (create refusing startOfRun) 120000
  = Some (str "quota exceeded", 40)
  /\ runIteration refusing 120000 (Some setupOnly) startOfRun
     = (Throw (str "quota exceeded"), {| now := 0 + 40; calls := [CallCreate] |}).
Proof.
  intros refusing. split; [reflexivity|].
  exact (proj1 (failed_creation_ends_the_iteration refusing 120000
                  (Some setupOnly) startOfRun (str "quota exceeded") 40
                  eq_refl)).
Defined.

(** X23: once [create] has fulfilled in time, the calls of an iteration
    are [create], the first command, then commands of the workload in
    their order (the setup command, then the workload command, each in the
    directory of the workload and with its time-out in seconds), and
    [destroy] last, all on the sandbox created. A throw cuts the commands
    short; an iteration that returns a sample has run them all. *)
Theorem iteration_calls_follow_the_plan
    (compute : Compute) (timeout : Q) (workload : option WorkloadConfig)
    (w : World) :
  creationFailure (create compute w) timeout = None ->
  let done := runIteration compute timeout workload w in
  exists sb ran,
    (exists after, create compute w = Some (after, Fulfilled sb))
    /\ calls (snd done)
       = calls w ++ CallCreate :: smokeCall sb :: ran ++ [CallDestroy sb]
    /\ (exists rest, planned sb workload = ran ++ rest)
    /\ (forall sample, fst done = Ok sample -> ran = planned sb workload).
Proof.
  intros Hnone. cbn zeta. rewrite runIteration_tried.
  destruct (tryBlock_trace compute timeout workload w)
    as [(message & dt & Hfail & _)
       |(sb & after & ran & Hcreate & Hle & Hsb & Hcalls & Hprefix & Hall)];
    cbn zeta in *; [congruence|].
  exists sb, ran. cbn [fst snd].
  split; [now exists after|]. split; [|split; [exact Hprefix|exact Hall]].
  rewrite finallyBlock_calls, Hsb, Hcalls, <- app_assoc. reflexivity.
Qed.

Lemma iteration_calls_follow_the_plan_witness :
  let provider := scripted succeeded (Some (5, Fulfilled tt)) in
  let sb := {| sandboxId := 1 |} in
  creationFailure (create provider startOfRun) 120000 = None
  /\ exists ran,
       calls (snd (runIteration provider 120000 (Some setupOnly) startOfRun))
       = CallCreate :: smokeCall sb :: ran ++ [CallDestroy sb]
       /\ ran = planned sb (Some setupOnly).
Proof.
  intros provider sb. split; [reflexivity|].
  destruct (iteration_calls_follow_the_plan provider 120000 (Some setupOnly)
              startOfRun eq_refl) as (sb' & ran & (after & Hsb) & Hcalls & _ & Hall).
  injection Hsb as _ <-.
  exists ran. split; [exact Hcalls|]. eapply Hall. reflexivity.
Defined.

Section Samples.

Lemma checkResult_ok (failurePrefix : jsstring) (r : CommandResult) :
  checkResult failurePrefix r = Ok tt <-> Runtime.exitCode r = 0%Z.
Proof.
  unfold checkResult. destruct (Runtime.exitCode r =? 0)%Z eqn:Hexit; cbn [negb].
  - apply Z.eqb_eq in Hexit. now split.
  - apply Z.eqb_neq in Hexit. split; [|contradiction].
    destruct (if truthy (trimOpt (Runtime.stderr r))
              then trimOpt (Runtime.stderr r)
              else trimOpt (Runtime.stdout r)) as [[|c d]|]; discriminate.
Qed.

(** What a checked command that came through says of the provider. *)
Lemma checked_step_ok (compute : Compute) (sb : Sandbox) (command : jsstring)
    (dir : option jsstring) (seconds ms : Q) (failurePrefix message : jsstring)
    (f f' : Frame) (u : unit) :
  inWorld (fun w =>
    let '(p, w1) :=
      runCheckedCommand compute sb command dir seconds failurePrefix w in
    withTimeout p ms message w1) f = (Ok u, f') ->
  exists after r,
    runCommand compute (world f) sb command
      {| opt_cwd := if truthy dir then dir else None; opt_timeout := seconds |}
    = Some (after, Fulfilled r)
    /\ Runtime.exitCode r = 0%Z
    /\ after <= ms
    /\ now (world f') = now (world f) + after.
Proof.
  unfold inWorld, runCheckedCommand, withTimeout, awaitRace, thenCheck.
  destruct (runCommand compute (world f) sb command _)
    as [[after [r|reason]]|]; [| |discriminate].
  - destruct (Qle_bool after ms) eqn:Hle; [|discriminate].
    destruct (checkResult failurePrefix r) as [[]|] eqn:Hcheck; [|discriminate].
    intros [= _ <-]. exists after, r. split; [reflexivity|].
    split; [now apply (checkResult_ok failurePrefix)|].
    split; [now apply Qle_bool_iff|reflexivity].
  - destruct (Qle_bool after ms); discriminate.
Qed.

End Samples.

(** X24: an iteration returns a sample only if [create] fulfilled
    within its time-out and the first command, run on the sandbox created,
    fulfilled within 30000 ms with exit code 0; the sample has no error,
    and its [ttiMs] is the time the two took, so at most the time-out and
    30000 ms. *)
Theorem returned_sample_times_create_and_first_command
    (compute : Compute) (timeout : Q) (workload : option WorkloadConfig)
    (w : World) (sample : TimingResult) :
  fst (runIteration compute timeout workload w) = Ok sample ->
  exists sb created smoked r,
    create compute w = Some (created, Fulfilled sb)
    /\ created <= timeout
    /\ runCommand compute (advance created (logCall CallCreate w)) sb
         smokeCommand {| opt_cwd := None; opt_timeout := 30 |}
       = Some (smoked, Fulfilled r)
    /\ Runtime.exitCode r = 0%Z
    /\ smoked <= 30000
    /\ ttiMs sample == created + smoked
    /\ ttiMs sample <= timeout + 30000
    /\ error sample = None.
Proof.
  rewrite runIteration_tried. cbn [fst].
  destruct (tryBlock compute timeout workload (workloadTimeout workload)
              {| world := w; sandbox := None |}) as [r0 f0] eqn:H.
  cbn [fst]. intros ->. unfold tryBlock in H.
  apply bind_inv in H. destruct H as (start & f1 & Hstart & H). cbv beta in H.
  injection Hstart as <- <-. cbn [world now] in H.
  apply bind_inv in H. destruct H as (sb & f2 & Hcreate & H). cbv beta in H.
  destruct (creation_outcome compute timeout w)
    as [(message & dt & _ & Hstep)|(sb' & created & Hc & Hle & _ & Hstep)];
    cbn zeta in Hstep; rewrite Hstep in Hcreate; [discriminate|].
  injection Hcreate as <- <-.
  apply bind_inv in H. destruct H as (u & f3 & Hset & H). cbv beta in H.
  injection Hset as _ <-. cbn [world sandbox] in H.
  apply bind_inv in H. destruct H as (u' & f4 & Hsmoke & H). cbv beta in H.
  apply checked_step_ok in Hsmoke.
  destruct Hsmoke as (smoked & r & Hrun & Hexit & Hsm & Hnow).
  cbn [world now] in Hrun, Hnow.
  apply bind_inv in H. destruct H as (t & f5 & Ht & H). cbv beta in H.
  injection Ht as <- <-. cbv zeta in H.
  apply Qle_bool_iff in Hle.
  assert (Hsample : ttiMs sample = now (world f4) - now w /\ error sample = None).
  { destruct (negb _ && negb _) in H.
    - injection H as <- _. split; reflexivity.
    - do 5 (apply bind_inv in H; destruct H as (? & ? & _ & H); cbv beta in H).
      injection H as <- _. split; reflexivity. }
  destruct Hsample as [Htti Herr].
  exists sb', created, smoked, r.
  split; [exact Hc|]. split; [exact Hle|]. split; [exact Hrun|].
  split; [exact Hexit|]. split; [exact Hsm|].
  rewrite Htti, Hnow.
  split; [ring|]. split; [|exact Herr]. lra.
Qed.

Lemma returned_sample_times_create_and_first_command_witness :
  let provider := scripted succeeded (Some (5, Fulfilled tt)) in
  fst (runIteration provider 120000 None startOfRun) = Ok (bareSample (0 + 120 + 290 - 0))
  /\ ttiMs (bareSample (0 + 120 + 290 - 0)) <= 120000 + 30000.
Proof.
  intros provider.
  assert (H : fst (runIteration provider 120000 None startOfRun)
              = Ok (bareSample (0 + 120 + 290 - 0))) by reflexivity.
  split; [exact H|].
  destruct (returned_sample_times_create_and_first_command provider 120000 None
              startOfRun _ H) as (_ & _ & _ & _ & _ & _ & _ & _ & _ & _ & Hb & _).
  exact Hb.
Defined.

(* ================================================================== *)
(** * The benchmark of one provider (src/run.ts) *)
(* ================================================================== *)

Section Provider.

Lemma createCalls_app (a b : list Call) :
  createCalls (a ++ b) = (createCalls a + createCalls b)%nat.
Proof. unfold createCalls. now rewrite filter_app, length_app. Qed.

Lemma destroyCalls_app (a b : list Call) :
  destroyCalls (a ++ b) = (destroyCalls a + destroyCalls b)%nat.
Proof. unfold destroyCalls. now rewrite filter_app, length_app. Qed.

Lemma planned_commands (sb : Sandbox) (workload : option WorkloadConfig)
    (ran rest : list Call) :
  planned sb workload = ran ++ rest -> createCalls ran = 0%nat.
Proof.
  intros H.
  assert (Hall : createCalls (planned sb workload) = 0%nat).
  { unfold planned. destruct workload as [wl|]; [|reflexivity].
    destruct (setupCommand wl) as [[|c s]|], (command wl) as [[|c' s']|];
      reflexivity. }
  rewrite H, createCalls_app in Hall. lia.
Qed.

(** An iteration calls [create] once, and [destroy] at most once. *)
Lemma iteration_creates_once (compute : Compute) (timeout : Q)
    (workload : option WorkloadConfig) (w : World) :
  let w' := snd (runIteration compute timeout workload w) in
  createCalls (calls w') = S (createCalls (calls w))
  /\ (destroyCalls (calls w') <= S (destroyCalls (calls w)))%nat.
Proof.
  cbn zeta. rewrite runIteration_tried. cbn [snd].
  rewrite finallyBlock_calls, createCalls_app, destroyCalls_app.
  destruct (tryBlock_trace compute timeout workload w)
    as [(message & dt & _ & Htried)
       |(sb & after & ran & Hcreate & Hle & Hsb & Hcalls & (rest & Hplan) & _)];
    cbn zeta in *.
  - rewrite Htried. cbn [snd world sandbox calls].
    rewrite createCalls_app, destroyCalls_app. cbn. lia.
  - destruct (tryBlock_keeps_sandbox compute timeout workload
                (workloadTimeout workload) w after sb Hcreate Hle) as [_ Hd].
    cbn zeta in Hd. rewrite Hd, Hsb, Hcalls.
    change (CallCreate :: smokeCall sb :: ran)
      with ([CallCreate; smokeCall sb] ++ ran).
    rewrite !createCalls_app, (planned_commands sb workload ran rest Hplan).
    cbn. lia.
Qed.

Lemma iterations_tally (n : nat) (compute : Compute) (timeout : Q)
    (workload : option WorkloadConfig) (results : list TimingResult) (w : World) :
  let done := runIterations n compute timeout workload results w in
  (exists samples, fst done = results ++ samples /\ List.length samples = n)
  /\ createCalls (calls (snd done)) = (createCalls (calls w) + n)%nat
  /\ (destroyCalls (calls (snd done)) <= destroyCalls (calls w) + n)%nat.
Proof.
  cbn zeta. revert results w. induction n as [|n IH]; intros results w;
    cbn [runIterations].
  - cbn [fst snd]. split; [exists []; now rewrite app_nil_r|]. split; lia.
  - unfold iterationSample.
    pose proof (iteration_creates_once compute timeout workload w) as Hone.
    cbn zeta in Hone.
    destruct (runIteration compute timeout workload w) as [[sample|message] w1];
      cbn [snd] in Hone; destruct Hone as [Hc Hd];
      match goal with
      | |- context [runIterations n compute timeout workload (results ++ [?s]) w1] =>
          destruct (IH (results ++ [s]) w1) as ((samples & Heq & Hlen) & Hc' & Hd');
          (split; [exists (s :: samples); split;
                     [rewrite Heq, <- app_assoc; reflexivity
                     |cbn [List.length]; lia]
                  |split; lia])
      end.
Qed.

Lemma join_carries (sep v : jsstring) (parts : list jsstring) :
  In v parts -> occursIn v (join sep parts).
Proof.
  induction parts as [|p rest IH]; [intros []|].
  intros Hin. destruct rest as [|q rest].
  - destruct Hin as [->|[]]. apply occursIn_self.
  - change (join sep (p :: q :: rest)) with (p ++ sep ++ join sep (q :: rest)).
    destruct Hin as [->|Hin].
    + apply occursIn_app_l, occursIn_self.
    + now apply occursIn_app_r, occursIn_app_r, IH.
Qed.

Lemma all_variables_set (env : jsstring -> option jsstring)
    (config : ProviderConfig) :
  (forall v, In v (requiredEnvVars config) -> truthy (env v) = true) ->
  filter (fun v => negb (truthy (env v))) (requiredEnvVars config) = [].
Proof.
  intros Hset. induction (requiredEnvVars config) as [|v l IH]; [reflexivity|].
  cbn [filter]. rewrite (Hset v (or_introl eq_refl)). cbn [negb].
  apply IH. intros v' Hin. apply Hset. now right.
Qed.

End Provider.

(** X25: a required environment variable that is unset or empty makes
    [runBenchmark] skip the provider: the client is not created, no call
    is made on it and no time passes, the result has no iterations, and
    its reason names the variable after the word Missing. *)
Theorem missing_variable_skips_the_provider
    (env : jsstring -> option jsstring) (config : ProviderConfig)
    (workload : option WorkloadConfig) (w : World) (v : jsstring) :
  In v (requiredEnvVars config) ->
  truthy (env v) = false ->
  exists result,
    runBenchmark env config workload w = (Ok result, w)
    /\ skipped result = true
    /\ iterations result = []
    /\ provider result = cfg_name config
    /\ exists names,
         skipReason result = Some (str "Missing: " ++ names)
         /\ occursIn v names.
Proof.
  intros Hin Hunset. unfold runBenchmark.
  assert (Hmissing : In v (filter (fun v => negb (truthy (env v)))
                             (requiredEnvVars config)))
    by (apply filter_In; split; [exact Hin|now rewrite Hunset]).
  destruct (filter (fun v => negb (truthy (env v))) (requiredEnvVars config))
    as [|m ms] eqn:Hfilter; [destruct Hmissing|].
  eexists. split; [reflexivity|].
  cbn [skippedResult skipped iterations provider skipReason].
  repeat (split; [reflexivity|]).
  exists (join (str ", ") (m :: ms)). split; [reflexivity|].
  now apply join_carries.
Qed.

Lemma missing_variable_skips_the_provider_witness :
  let config :=
    {| cfg_name := str "e2b"; cfg_iterations := None; cfg_timeout := None;
       requiredEnvVars := [str "E2B_API_KEY"; str "E2B_TEAM"];
       createCompute := Throw (str "no client") |} in
  let env := fun v => if JS.eqb v (str "E2B_API_KEY") then Some (str "k") else Some [] in
  In (str "E2B_TEAM") (requiredEnvVars config)
  /\ truthy (env (str "E2B_TEAM")) = false
  /\ exists result,
       runBenchmark env config None startOfRun = (Ok result, startOfRun)
       /\ skipped result = true.
Proof.
  intros config env.
  assert (Hin : In (str "E2B_TEAM") (requiredEnvVars config))
    by (right; left; reflexivity).
  split; [exact Hin|]. split; [reflexivity|].
  destruct (missing_variable_skips_the_provider env config None startOfRun
              (str "E2B_TEAM") Hin eq_refl) as (result & Hrun & Hskipped & _).
  exists result. split; [exact Hrun|exact Hskipped].
Defined.

(** X26: with every required variable set, [runBenchmark] creates the
    client. If that throws, [runBenchmark] throws the same before any
    iteration, with no call made. Otherwise it runs the number of
    iterations asked for, 10 by default, and returns: the result holds
    one sample for each, failed or not; [create] has been called once
    for each, and [destroy] at most once for each. *)
Theorem benchmark_runs_every_iteration
    (env : jsstring -> option jsstring) (config : ProviderConfig)
    (workload : option WorkloadConfig) (w : World) :
  (forall v, In v (requiredEnvVars config) -> truthy (env v) = true) ->
  match createCompute config with
  | Throw message => runBenchmark env config workload w = (Throw message, w)
  | Ok compute =>
      exists result w',
        runBenchmark env config workload w = (Ok result, w')
        /\ List.length (iterations result) = iterationCount config
        /\ createCalls (calls w')
           = (createCalls (calls w) + iterationCount config)%nat
        /\ (destroyCalls (calls w')
            <= destroyCalls (calls w) + iterationCount config)%nat
        /\ provider result = cfg_name config
  end
  /\ (cfg_iterations config = None -> iterationCount config = 10%nat).
Proof.
  intros Hset.
  split; [|unfold iterationCount; now intros ->].
  unfold runBenchmark. fold (iterationCount config).
  rewrite (all_variables_set env config Hset).
  destruct (createCompute config) as [compute|message]; [|reflexivity].
  pose proof (iterations_tally (iterationCount config) compute
                (match cfg_timeout config with Some t => t | None => 120000 end)
                workload [] w) as Htally.
  cbn zeta in Htally.
  destruct (runIterations (iterationCount config) compute _ workload [] w)
    as [results w'].
  cbn [fst snd] in Htally.
  destruct Htally as ((samples & -> & Hlen) & Hc & Hd). cbn [app] in *.
  destruct (filter (fun r => negb (truthy (error r))) samples);
    eexists; exists w'; (split; [reflexivity|]);
    cbn [iterations provider skippedResult]; repeat split; assumption.
Qed.

Lemma benchmark_runs_every_iteration_witness :
  let config :=
    {| cfg_name := str "e2b"; cfg_iterations := Some 3%nat; cfg_timeout := None;
       requiredEnvVars := [str "E2B_API_KEY"];
       createCompute := Ok (scripted succeeded None) |} in
  let broken :=
    {| cfg_name := str "e2b"; cfg_iterations := Some 3%nat; cfg_timeout := None;
       requiredEnvVars := [str "E2B_API_KEY"];
       createCompute := Throw (str "no client") |} in
  let env := fun _ : jsstring => Some (str "k") in
  (forall v, In v (requiredEnvVars config) -> truthy (env v) = true)
  /\ (exists result w',
        runBenchmark env config None startOfRun = (Ok result, w')
        /\ List.length (iterations result) = 3%nat)
  /\ runBenchmark env broken None startOfRun = (Throw (str "no client"), startOfRun).
Proof.
  intros config broken env.
  assert (Hset : forall v, In v (requiredEnvVars config) -> truthy (env v) = true)
    by (intros v _; reflexivity).
  split; [exact Hset|]. split.
  - destruct (proj1 (benchmark_runs_every_iteration env config None startOfRun Hset))
      as (result & w' & Hrun & Hlen & _).
    exists result, w'. split; [exact Hrun|exact Hlen].
  - exact (proj1 (benchmark_runs_every_iteration env broken None startOfRun Hset)).
Defined.

(** X27: a result [runBenchmark] returns is skipped exactly when none
    of its iterations succeeded, which is when its success rate is 0. In
    a result that is not skipped, the [ttiMs] of every successful
    iteration lies between the [min] and the [max] of the summary, and
    both are the [ttiMs] of a successful iteration: the 0 recorded for a
    failed iteration does not enter the summary. With the client created,
    [runBenchmark] does return a result. *)
Theorem skipped_when_nothing_succeeded
    (env : jsstring -> option jsstring) (config : ProviderConfig)
    (workload : option WorkloadConfig) (w : World) :
  (forall compute, createCompute config = Ok compute ->
     exists result w', runBenchmark env config workload w = (Ok result, w'))
  /\ forall result w',
       runBenchmark env config workload w = (Ok result, w') ->
       let tti := sum_ttiMs (summary result) in
       let succeededIn i := In i (iterations result) /\ truthy (error i) = false in
       (skipped result = true
        <-> Forall (fun i => truthy (error i) = true) (iterations result))
       /\ (skipped result = true <-> computeSuccessRate result == 0)
       /\ (skipped result = false ->
           (forall i, succeededIn i -> min tti <= ttiMs i /\ ttiMs i <= max tti)
           /\ (exists i, succeededIn i /\ ttiMs i = min tti)
           /\ (exists i, succeededIn i /\ ttiMs i = max tti)).
Proof.
  split.
  { intros compute Hcompute. unfold runBenchmark. rewrite Hcompute.
    destruct (filter (fun v => negb (truthy (env v))) (requiredEnvVars config));
      [|now eexists; eexists].
    destruct (runIterations _ _ _ _ _ _) as [results w'].
    destruct (filter (fun r => negb (truthy (error r))) results);
      now eexists; eexists. }
  intros result w' Hrun. cbn zeta.
  assert (Hskip : (skipped result = true
                   <-> Forall (fun i => truthy (error i) = true)
                         (iterations result))
          /\ (skipped result = false ->
              sum_ttiMs (summary result)
              = computeStats
                  (map ttiMs
                     (filter (fun r => negb (truthy (error r)))
                        (iterations result)))
              /\ filter (fun r => negb (truthy (error r)))
                   (iterations result) <> [])).
  { unfold runBenchmark in Hrun.
    destruct (filter (fun v => negb (truthy (env v))) (requiredEnvVars config)).
    2:{ injection Hrun as <- _. cbn [skippedResult skipped iterations].
        split; [split; [constructor|reflexivity]|discriminate]. }
    destruct (createCompute config) as [compute|message]; [|discriminate].
    destruct (runIterations _ _ _ _ _ _) as [results w1].
    destruct (filter (fun r => negb (truthy (error r))) results) as [|s ss] eqn:Hf;
      injection Hrun as <- _;
      cbn [skippedResult skipped iterations summary sum_ttiMs].
    - split; [|discriminate]. split; [intros _; now apply none_succeeded|reflexivity].
    - split.
      + split; [discriminate|]. intros Hall. apply none_succeeded in Hall.
        congruence.
      + intros _. rewrite Hf. split; [reflexivity|discriminate]. }
  destruct Hskip as [Hskip Hstats].
  split; [exact Hskip|]. split.
  - rewrite successRate_zero. split; [now left|].
    intros [H|H]; [exact H|now apply Hskip].
  - intros Hnot. destruct (Hstats Hnot) as [-> Hne].
    set (ok := filter (fun r => negb (truthy (error r))) (iterations result)) in *.
    assert (Hok : forall i, In i ok <-> In i (iterations result)
                                        /\ truthy (error i) = false).
    { intros i. unfold ok. rewrite filter_In, negb_true_iff. reflexivity. }
    assert (Hvalues : map ttiMs ok <> [])
      by (destruct ok; [congruence|discriminate]).
    destruct (stats_min_max (map ttiMs ok) Hvalues) as (Hall & Hmin & Hmax).
    cbn zeta in Hall, Hmin, Hmax.
    split; [|split].
    + intros i Hi. apply Hall, in_map, Hok, Hi.
    + apply in_map_iff in Hmin. destruct Hmin as (i & Heq & Hin).
      exists i. split; [now apply Hok|exact Heq].
    + apply in_map_iff in Hmax. destruct Hmax as (i & Heq & Hin).
      exists i. split; [now apply Hok|exact Heq].
Qed.

Lemma skipped_when_nothing_succeeded_witness :
  let config :=
    {| cfg_name := str "e2b"; cfg_iterations := Some 2%nat; cfg_timeout := None;
       requiredEnvVars := [];
       createCompute := Ok (scripted succeeded None) |} in
  exists result w',
    runBenchmark (fun _ => None) config None startOfRun = (Ok result, w')
    /\ skipped result = false
    /\ exists i, (In i (iterations result) /\ truthy (error i) = false)
                 /\ ttiMs i = min (sum_ttiMs (summary result)).
Proof.
  intros config.
  set (done := runBenchmark (fun _ => None) config None startOfRun).
  set (result := match fst done with Ok r => r | Throw _ => missingKey end).
  assert (Hrun : done = (Ok result, snd done)) by (vm_compute; reflexivity).
  assert (Hnot : skipped result = false) by (vm_compute; reflexivity).
  exists result, (snd done). split; [exact Hrun|]. split; [exact Hnot|].
  destruct (skipped_when_nothing_succeeded (fun _ => None) config None startOfRun)
    as [_ Hresult].
  destruct (Hresult result (snd done) Hrun) as (_ & _ & Hstats).
  exact (proj1 (proj2 (Hstats Hnot))).
Defined.

Section EmptyMessage.

Variables (compute : Compute) (timeout : Q) (workload : option WorkloadConfig).
Hypothesis silent : forall w, exists dt,
  creationFailure (create compute w) timeout = Some ([], dt).

Lemma silent_iterations (n : nat) (results : list TimingResult) (w : World) :
  fst (runIterations n compute timeout workload results w)
  = results ++ repeat (failedSample []) n.
Proof.
  revert results w. induction n as [|n IH]; intros results w;
    cbn [runIterations repeat].
  - now rewrite app_nil_r.
  - unfold iterationSample. destruct (silent w) as (dt & Hfail).
    rewrite (creation_failure_throws compute timeout workload w [] dt Hfail).
    rewrite IH, <- app_assoc. reflexivity.
Qed.

End EmptyMessage.

(** X28: an iteration that fails with an empty message is not told
    from a successful one. When [create] rejects with an empty message in
    every iteration, the result is not skipped, every sample is the record
    of a failure, the [min] and [max] of [ttiMs] in the summary are 0, and
    the success rate is 1. *)
Theorem failure_without_message_counts_as_success
    (env : jsstring -> option jsstring) (config : ProviderConfig)
    (compute : Compute) (workload : option WorkloadConfig) (w : World) :
  (forall v, In v (requiredEnvVars config) -> truthy (env v) = true) ->
  createCompute config = Ok compute ->
  (forall w', exists dt,
      creationFailure (create compute w')
        (match cfg_timeout config with Some t => t | None => 120000 end)
      = Some ([], dt)) ->
  (0 < iterationCount config)%nat ->
  exists result w',
    runBenchmark env config workload w = (Ok result, w')
    /\ iterations result = repeat (failedSample []) (iterationCount config)
    /\ skipped result = false
    /\ min (sum_ttiMs (summary result)) = 0
    /\ max (sum_ttiMs (summary result)) = 0
    /\ computeSuccessRate result == 1.
Proof.
  intros Hset Hcompute Hsilent Hpos.
  assert (Hkeep : forall n,
             filter (fun r => negb (truthy (error r))) (repeat (failedSample []) n)
             = repeat (failedSample []) n).
  { induction n as [|n IH]; [reflexivity|]. cbn [repeat filter].
    cbn [failedSample error truthy negb]. now rewrite IH. }
  unfold runBenchmark. fold (iterationCount config).
  rewrite (all_variables_set env config Hset), Hcompute.
  pose proof (silent_iterations compute _ workload Hsilent
                (iterationCount config) [] w) as Hruns.
  destruct (runIterations (iterationCount config) compute _ workload [] w)
    as [results w'].
  cbn [fst app] in Hruns. subst results. rewrite Hkeep.
  destruct (iterationCount config) as [|n] eqn:Hn; [lia|].
  rewrite <- Hn in *. clear Hn n.
  destruct (repeat (failedSample []) (iterationCount config)) as [|s rest] eqn:Hrep.
  { apply (f_equal (@List.length _)) in Hrep. rewrite repeat_length in Hrep.
    cbn in Hrep. lia. }
  rewrite <- Hrep. clear s rest Hrep.
  eexists. exists w'. split; [reflexivity|].
  cbn [iterations skipped summary sum_ttiMs].
  split; [reflexivity|]. split; [reflexivity|].
  assert (Hzero : forall v,
             In v (map ttiMs (repeat (failedSample []) (iterationCount config))) ->
             v = 0).
  { intros v Hin. apply in_map_iff in Hin. destruct Hin as (s & <- & Hin).
    apply repeat_spec in Hin. now subst s. }
  assert (Hvalues : map ttiMs (repeat (failedSample []) (iterationCount config))
                    <> []).
  { intros Hnil. apply (f_equal (@List.length _)) in Hnil.
    rewrite length_map, repeat_length in Hnil. cbn in Hnil. lia. }
  destruct (stats_min_max _ Hvalues) as (_ & Hmin & Hmax).
  split; [exact (Hzero _ Hmin)|]. split; [exact (Hzero _ Hmax)|].
  match goal with
  | |- computeSuccessRate ?r == 1 =>
      destruct (successRate_quotient r) as (Hrate & _ & _ & _ & Hone)
  end.
  - reflexivity.
  - cbn [iterations]. intros Hnil. apply Hvalues. now rewrite Hnil.
  - cbn zeta in Hrate, Hone. cbn [iterations] in Hrate, Hone.
    rewrite Hkeep in Hrate, Hone. rewrite Hrate, (Hone eq_refl). apply double_1.
Qed.

Lemma failure_without_message_counts_as_success_witness :
  let silentProvider :=
    {| create := fun _ => Some (40, Rejected []);
       runCommand := fun _ _ _ _ => None;
       destroy := fun _ _ => None |} in
  let config :=
    {| cfg_name := str "e2b"; cfg_iterations := Some 2%nat; cfg_timeout := None;
       requiredEnvVars := []; createCompute := Ok silentProvider |} in
  (0 < iterationCount config)%nat
  /\ exists result w',
       runBenchmark (fun _ => None) config None startOfRun = (Ok result, w')
       /\ computeSuccessRate result == 1.
Proof.
  intros silentProvider config.
  assert (Hpos : (0 < iterationCount config)%nat) by (cbn; lia).
  split; [exact Hpos|].
  destruct (failure_without_message_counts_as_success (fun _ => None) config
              silentProvider None startOfRun) as (result & w' & Hrun & H);
    [intros v []|reflexivity|intros w'; exists 40; reflexivity|exact Hpos|].
  exists result, w'. split; [exact Hrun|apply H].
Defined.

(* ================================================================== *)
(** * The iterations of the results file (src/table.ts) *)
(* ================================================================== *)

(** X29: the iteration written to the results file has the fields
    the sample has, with each time rounded as the file rounds: at most
    half a hundredth away, up to the roundings of the doubles. It has an
    error exactly when the sample has one that is not empty; so the
    success rate computed over the written iterations is that of the
    run. *)
Theorem written_iterations_keep_the_outcome (result : BenchmarkResult) :
  (forall i : TimingResult,
      let written := Table.cleanIteration i in
      let near (v' v : Q) :=
        Table.round (Num v) = Num v'
        /\ Qabs (v' - v) <= (1 # 200) + (Qabs v + 1) * (1 # 2 ^ 51) in
      truthy (error written) = truthy (error i)
      /\ (error written = None \/ error written = error i)
      /\ near (ttiMs written) (ttiMs i)
      /\ (workloadMs written = None <-> workloadMs i = None)
      /\ (totalMs written = None <-> totalMs i = None)
      /\ (forall v, workloadMs i = Some v ->
            exists v', workloadMs written = Some v' /\ near v' v)
      /\ (forall v, totalMs i = Some v ->
            exists v', totalMs written = Some v' /\ near v' v))
  /\ computeSuccessRate
       {| provider := provider result;
          iterations := map Table.cleanIteration (iterations result);
          summary := summary result; skipped := skipped result;
          skipReason := skipReason result; successRate := successRate result;
          compositeScore := compositeScore result |}
     = computeSuccessRate result.
Proof.
  assert (Hround : forall x,
             let v' := match Table.round (Num x) with Num q => q | NaN => 0 end in
             Table.round (Num x) = Num v'
             /\ Qabs (v' - x) <= (1 # 200) + (Qabs x + 1) * (1 # 2 ^ 51)).
  { intros x. destruct (round2_hundredths x) as (n & Hn & _ & _ & Hnear).
    change (round2 (Num x)) with (Table.round (Num x)) in Hn. cbn zeta.
    rewrite Hn. split; [reflexivity|exact Hnear]. }
  assert (Htruthy : forall i, truthy (error (Table.cleanIteration i))
                              = truthy (error i)).
  { intros i. unfold Table.cleanIteration. cbn [error].
    destruct (truthy (error i)) eqn:Hi; [exact Hi|reflexivity]. }
  split.
  - intros i. cbn zeta. split; [apply Htruthy|].
    unfold Table.cleanIteration. cbn [error ttiMs workloadMs totalMs].
    split; [destruct (truthy (error i)); [now right|now left]|].
    split; [apply Hround|].
    split; [destruct (workloadMs i); cbn [option_map]; split; congruence|].
    split; [destruct (totalMs i); cbn [option_map]; split; congruence|].
    split; intros v ->; cbn [option_map]; eexists; (split; [reflexivity|]);
      apply Hround.
  - unfold computeSuccessRate. cbn [skipped iterations].
    rewrite length_map.
    assert (Hcount : forall l,
               List.length (filter (fun i => negb (truthy (error i)))
                              (map Table.cleanIteration l))
               = List.length (filter (fun i => negb (truthy (error i))) l)).
    { induction l as [|i l IH]; [reflexivity|]. cbn [map filter].
      rewrite Htruthy. destruct (truthy (error i)); cbn [negb List.length];
        now rewrite IH. }
    now rewrite Hcount.
Qed.

Lemma written_iterations_keep_the_outcome_witness :
  let i := {| ttiMs := 1234567 # 1000; workloadMs := Some (1 # 3);
              totalMs := None; error := Some [] |} in
  workloadMs i = Some (1 # 3)
  /\ exists v', workloadMs (Table.cleanIteration i) = Some v'
                /\ Qabs (v' - (1 # 3)) <= (1 # 200) + (Qabs (1 # 3) + 1) * (1 # 2 ^ 51).
Proof.
  intros i. split; [reflexivity|].
  destruct (written_iterations_keep_the_outcome missingKey) as [Heach _].
  destruct (Heach i) as (_ & _ & _ & _ & _ & Hwork & _).
  destruct (Hwork (1 # 3) eq_refl) as (v' & Hv' & _ & Hnear).
  exists v'. split; [exact Hv'|exact Hnear].
Defined.
